(** * Patho-Annotation: a shallow embedding of the annotation platform

    The development embeds the logic of the browser application:
    - [types.ts]: the enumerations and record interfaces;
    - [App.tsx]: the two IndexedDB object stores, the cropper, the batch
      orchestrator [processBatchSequentially], the unified history and the
      confirm / delete handlers;
    - [components/TextEntry.tsx]: the structured diagnostic basis;
    - [components/JSONPreview.tsx]: the export transformation.

    Conventions.  A JavaScript string is a Rocq [string] (its UTF-8 bytes).
    A JavaScript object whose interface has optional members is a record
    with [option] fields.  Handlers are computations in a state-and-exception
    monad over the record [World].  Everything the browser supplies from
    outside (the identifier generator, the clock, the extraction service,
    the image decoder) is gathered in the record [Env]. *)

From Stdlib Require Import ZArith QArith Qround Qabs Qpower Lia Lra Lqa Ascii String.
From Stdlib Require Import SpecFloat.
From Equations Require Import Equations.
From stdpp Require Import base list gmap strings sorting pretty.

Local Open Scope string_scope.
Local Open Scope nat_scope.

(* ===================================================================== *)
(** * types.ts *)
(* ===================================================================== *)

Inductive TextLabel :=
  | PATIENT_DATA | GROSS_EXAM | IHC_TEXT | DIAGNOSIS
  | DIAGNOSTIC_BASIS | DIFFERENTIAL | KNOWLEDGE.

Definition TextLabel_value (l : TextLabel) : string :=
  match l with
  | PATIENT_DATA => "病人资料"
  | GROSS_EXAM => "大体检查"
  | IHC_TEXT => "免疫组化"
  | DIAGNOSIS => "病理诊断"
  | DIAGNOSTIC_BASIS => "诊断依据"
  | DIFFERENTIAL => "鉴别诊断"
  | KNOWLEDGE => "知识拓展"
  end.

#[global] Instance TextLabel_eq_dec : EqDecision TextLabel.
Proof. solve_decision. Defined.

Inductive UserRole := ADMIN | USER.

Module User.
Record t := mk { id : string; username : string; password : option string; role : UserRole }.
End User.

(** [ImageType] and [Magnification] are string enumerations.  The batch
    orchestrator fills the corresponding members of an [ImageRecord] from
    untyped response data, so their carrier here is the run-time one, a
    string, and the enumeration is the list of its values. *)
Module ImageType.
Definition HE : string := "HE染色".
Definition IHC : string := "免疫组化".
Definition values : list string := [HE; IHC].
End ImageType.

Module Magnification.
Definition X10 : string := "x10".
Definition X20 : string := "x20".
Definition X40 : string := "x40".
Definition X100 : string := "x100".
Definition X200 : string := "x200".
Definition X400 : string := "x400".
Definition OTHER : string := "其他".
Definition values : list string := [X10; X20; X40; X100; X200; X400; OTHER].
End Magnification.

Module ImageRecord.
Record t := mk {
  id : string;
  url : string;
  fileName : string;
  type : string;
  magnification : string;
  description : string }.
End ImageRecord.

Module TextRecord.
Record t := mk { id : string; label : TextLabel; content : string }.
End TextRecord.

(** An instant, as the number of milliseconds since the epoch.  The source
    keeps instants as the ISO-8601 text produced by [toISOString] and reads
    them back with [new Date(..).getTime()]; the two are inverse to each
    other, so the text is represented by the instant it denotes. *)
Definition Instant := Z.

Inductive Status := confirmed | draft.

#[global] Instance Status_eq_dec : EqDecision Status.
Proof. solve_decision. Defined.

(** A case object.  [CaseRecord] is the interface of types.ts; [id] and
    [status] are the two members that [DraftRecord] (App.tsx) adds, and that
    the unified history sets on its items.  An absent member is [None]. *)
Module CaseRecord.
Record t := mk {
  id : option string;
  status : option Status;
  caseId : string;
  userId : string;
  username : option string;
  organCategory : string;
  textSections : list TextRecord.t;
  images : list ImageRecord.t;
  submittedAt : option Instant;
  updatedAt : option Instant }.

(** [{ ...c, status: s }] *)
Definition with_status (s : option Status) (c : t) : t :=
  mk (id c) s (caseId c) (userId c) (username c) (organCategory c)
     (textSections c) (images c) (submittedAt c) (updatedAt c).

(** [{ ...c, submittedAt: i }] *)
Definition with_submittedAt (i : option Instant) (c : t) : t :=
  mk (id c) (status c) (caseId c) (userId c) (username c) (organCategory c)
     (textSections c) (images c) i (updatedAt c).

(** [delete c.id] *)
Definition delete_id (c : t) : t :=
  mk None (status c) (caseId c) (userId c) (username c) (organCategory c)
     (textSections c) (images c) (submittedAt c) (updatedAt c).

(** [delete c.status] *)
Definition delete_status (c : t) : t := with_status None c.
End CaseRecord.

(* ===================================================================== *)
(** * App.tsx: transient page queue and extraction response *)
(* ===================================================================== *)

Module QueuedImage.
Record t := mk { id : string; data : string; type : string; name : string; selected : bool }.
End QueuedImage.

(** [box_2d], in the order [ymin, xmin, ymax, xmax]. *)
Module Box.
Record t := mk { ymin : Q; xmin : Q; ymax : Q; xmax : Q }.
End Box.

(** One element of [detectedImages] in the parsed response.  The response
    is untyped ([any]); every member may be missing. *)
Module AiImage.
Record t := mk {
  box_2d : option Box.t;
  type : option string;
  magnification : option string;
  description : option string;
  originalImageIndex : option Z }.
End AiImage.

Module AiSection.
Record t := mk { label : TextLabel; content : string }.
End AiSection.

Module AiCase.
Record t := mk {
  chapterNumber : option string;
  caseNumber : option string;
  organCategory : option string;
  textSections : option (list AiSection.t);
  detectedImages : option (list AiImage.t) }.
End AiCase.

Inductive NotificationType := success | error.

Module Notification.
Record t := mk { type : NotificationType; message : string }.
End Notification.

Inductive StoreName := STORE_CASES | STORE_DRAFTS.

#[global] Instance StoreName_eq_dec : EqDecision StoreName.
Proof. solve_decision. Defined.

(** What a run does to the outside, in order. *)
Inductive Event :=
  | EvNotify (n : Notification.t)
  | EvExtract (chunk : list QueuedImage.t)
  | EvPut (store : StoreName) (data : CaseRecord.t)
  | EvDelete (store : StoreName) (key : string).

(* ===================================================================== *)
(** * The environment and the state *)
(* ===================================================================== *)

(** A canvas element: its [width] and [height] attributes ([unsigned long]). *)
Module Canvas.
Record t := mk { width : Z; height : Z }.
End Canvas.

(** A JavaScript number is an IEEE 754 binary64 value.  A finite value is
    kept as the rational that it denotes.  The two zeros are not told
    apart: the cropper divides by the constant 1000 only, and neither
    [Math.max(1, .)] nor the conversion to an integer nor [drawImage]
    distinguishes them. *)
Module Number.

Inductive t := Finite (q : Q) | PosInfinity | NegInfinity | NaN.

(** The integer [k] with [2^k <= q < 2^(k+1)], for a positive [q]. *)
Definition log2 (q : Q) : Z :=
  let k := (Z.log2 (Qnum q) - Z.log2 (Z.pos (Qden q)))%Z in
  if Qle_bool (2 ^ k) q then k else (k - 1)%Z.

(** The nearest integer, the even one of the two when they are as near. *)
Definition round_half_even (q : Q) : Z :=
  let f := Qfloor q in
  match (q - inject_Z f ?= 1 # 2)%Q with
  | Lt => f
  | Gt => (f + 1)%Z
  | Eq => if Z.even f then f else (f + 1)%Z
  end.

(** The exponent of the last bit of the significand of [q]: 53 bits, and
    no exponent below that of the subnormal numbers. *)
Definition exponent (q : Q) : Z := Z.max (log2 (Qabs q) - 52) (-1074).

(** The binary64 value nearest to a rational: the nearest multiple of
    [2 ^ exponent q], ties to the even significand; an infinity from
    [2 ^ 1024] on. *)
Definition nearest (q : Q) : t :=
  if Qeq_bool q 0 then Finite 0
  else
    let e := exponent q in
    let r := Qred (inject_Z (round_half_even (q / 2 ^ e)) * 2 ^ e) in
    if Qle_bool (2 ^ 1024) r then PosInfinity
    else if Qle_bool r (- 2 ^ 1024) then NegInfinity
    else Finite r.

(** The rounding of the exact result of an operation, and of a numeral
    when it is parsed; it depends on the value of the rational only. *)
Definition round (q : Q) : t := nearest (Qred q).

(** [a - b] *)
Definition sub (a b : t) : t :=
  match a, b with
  | Finite x, Finite y => round (x - y)
  | Finite _, PosInfinity => NegInfinity
  | Finite _, NegInfinity => PosInfinity
  | PosInfinity, Finite _ => PosInfinity
  | PosInfinity, NegInfinity => PosInfinity
  | NegInfinity, Finite _ => NegInfinity
  | NegInfinity, PosInfinity => NegInfinity
  | _, _ => NaN
  end.

(** [a / 1000] *)
Definition div1000 (a : t) : t :=
  match a with
  | Finite x => round (x / 1000)
  | _ => a
  end.

(** An infinity of the sign of [q], which is not zero, or of the other
    sign. *)
Definition infinity (same : bool) (q : Q) : t :=
  if Bool.eqb same (Qle_bool 0 q) then PosInfinity else NegInfinity.

(** [a * b] *)
Definition mul (a b : t) : t :=
  match a, b with
  | Finite x, Finite y => round (x * y)
  | NaN, _ | _, NaN => NaN
  | Finite x, PosInfinity | PosInfinity, Finite x =>
      if Qeq_bool x 0 then NaN else infinity true x
  | Finite x, NegInfinity | NegInfinity, Finite x =>
      if Qeq_bool x 0 then NaN else infinity false x
  | PosInfinity, PosInfinity | NegInfinity, NegInfinity => PosInfinity
  | PosInfinity, NegInfinity | NegInfinity, PosInfinity => NegInfinity
  end.

(** [Math.max(a, b)] *)
Definition max (a b : t) : t :=
  match a, b with
  | NaN, _ | _, NaN => NaN
  | PosInfinity, _ | _, PosInfinity => PosInfinity
  | NegInfinity, x | x, NegInfinity => x
  | Finite x, Finite y => if Qlt_le_dec x y then Finite y else Finite x
  end.

(** The number that a value of [SpecFloat], the specification of the
    IEEE 754 operations in the Standard Library, denotes; and the binary64
    value of an integer there.  They serve to compare [round] with that
    specification. *)
Definition of_spec_float (f : spec_float) : t :=
  match f with
  | S754_zero _ => Finite 0
  | S754_infinity false => PosInfinity
  | S754_infinity true => NegInfinity
  | S754_nan => NaN
  | S754_finite s m e =>
      Finite (Qred ((if s then -1 else 1) * inject_Z (Z.pos m) * 2 ^ e))
  end.

Definition binary64_of_Z (n : Z) : spec_float := binary_normalize 53 1024 n 0 false.

#[global] Instance Q_eq_dec : EqDecision Q.
Proof. solve_decision. Defined.

#[global] Instance eq_dec : EqDecision t.
Proof. solve_decision. Defined.

End Number.

(** The arguments of the nine-argument [drawImage]. *)
Module DrawImage.
Record t := mk { sx : Number.t; sy : Number.t; sw : Number.t; sh : Number.t;
                 dx : Number.t; dy : Number.t; dw : Number.t; dh : Number.t }.
End DrawImage.

Module Env.
Record t := mk {
  (** the successive results of [uuidv4()] *)
  uuid : nat -> string;
  (** the instants observed by the successive [new Date()] *)
  clock : nat -> Instant;
  (** the extraction service followed by [JSON.parse] and the read of
      [result.cases]: [None] when any of these raises; an element [None]
      of the list is an entry whose processing raises (such as [null]) *)
  extraction : list QueuedImage.t -> option (list (option AiCase.t));
  (** natural width and height of the image decoded from a data URL,
      given as mime type and base64 payload *)
  imageSize : string -> string -> Z * Z;
  (** the base64 payload of [canvas.toDataURL(mimeType)] after the draw *)
  toDataURL : string -> string -> Canvas.t -> DrawImage.t -> string }.
End Env.

Module BatchProgress.
Record t := mk { current : nat; total : nat }.
End BatchProgress.

Module World.
Record t := mk {
  (* React state of the App component *)
  user : option User.t;
  notification : option Notification.t;
  isAIProcessing : bool;
  isMinimized : bool;
  globalHistory : list CaseRecord.t;
  batchProgress : BatchProgress.t;
  queuedImages : list QueuedImage.t;
  draftCases : list CaseRecord.t;
  selectedDraftIndex : Z;
  (* the database 'PathologyDataPlatform' *)
  cases : gmap string CaseRecord.t;
  drafts : gmap string CaseRecord.t;
  (* how many identifiers and instants have been drawn so far *)
  uuids : nat;
  ticks : nat;
  (* the events so far, oldest first *)
  trace : list Event }.

Definition set_notification (x : option Notification.t) (w : t) : t :=
  mk (user w) x (isAIProcessing w) (isMinimized w) (globalHistory w)
     (batchProgress w) (queuedImages w) (draftCases w) (selectedDraftIndex w)
     (cases w) (drafts w) (uuids w) (ticks w) (trace w).
Definition set_isAIProcessing (x : bool) (w : t) : t :=
  mk (user w) (notification w) x (isMinimized w) (globalHistory w)
     (batchProgress w) (queuedImages w) (draftCases w) (selectedDraftIndex w)
     (cases w) (drafts w) (uuids w) (ticks w) (trace w).
Definition set_isMinimized (x : bool) (w : t) : t :=
  mk (user w) (notification w) (isAIProcessing w) x (globalHistory w)
     (batchProgress w) (queuedImages w) (draftCases w) (selectedDraftIndex w)
     (cases w) (drafts w) (uuids w) (ticks w) (trace w).
Definition set_globalHistory (x : list CaseRecord.t) (w : t) : t :=
  mk (user w) (notification w) (isAIProcessing w) (isMinimized w) x
     (batchProgress w) (queuedImages w) (draftCases w) (selectedDraftIndex w)
     (cases w) (drafts w) (uuids w) (ticks w) (trace w).
Definition set_batchProgress (x : BatchProgress.t) (w : t) : t :=
  mk (user w) (notification w) (isAIProcessing w) (isMinimized w) (globalHistory w)
     x (queuedImages w) (draftCases w) (selectedDraftIndex w)
     (cases w) (drafts w) (uuids w) (ticks w) (trace w).
Definition set_queuedImages (x : list QueuedImage.t) (w : t) : t :=
  mk (user w) (notification w) (isAIProcessing w) (isMinimized w) (globalHistory w)
     (batchProgress w) x (draftCases w) (selectedDraftIndex w)
     (cases w) (drafts w) (uuids w) (ticks w) (trace w).
Definition set_draftCases (x : list CaseRecord.t) (w : t) : t :=
  mk (user w) (notification w) (isAIProcessing w) (isMinimized w) (globalHistory w)
     (batchProgress w) (queuedImages w) x (selectedDraftIndex w)
     (cases w) (drafts w) (uuids w) (ticks w) (trace w).
Definition set_cases (x : gmap string CaseRecord.t) (w : t) : t :=
  mk (user w) (notification w) (isAIProcessing w) (isMinimized w) (globalHistory w)
     (batchProgress w) (queuedImages w) (draftCases w) (selectedDraftIndex w)
     x (drafts w) (uuids w) (ticks w) (trace w).
Definition set_drafts (x : gmap string CaseRecord.t) (w : t) : t :=
  mk (user w) (notification w) (isAIProcessing w) (isMinimized w) (globalHistory w)
     (batchProgress w) (queuedImages w) (draftCases w) (selectedDraftIndex w)
     (cases w) x (uuids w) (ticks w) (trace w).
Definition set_uuids (x : nat) (w : t) : t :=
  mk (user w) (notification w) (isAIProcessing w) (isMinimized w) (globalHistory w)
     (batchProgress w) (queuedImages w) (draftCases w) (selectedDraftIndex w)
     (cases w) (drafts w) x (ticks w) (trace w).
Definition set_ticks (x : nat) (w : t) : t :=
  mk (user w) (notification w) (isAIProcessing w) (isMinimized w) (globalHistory w)
     (batchProgress w) (queuedImages w) (draftCases w) (selectedDraftIndex w)
     (cases w) (drafts w) (uuids w) x (trace w).
Definition emit (e : Event) (w : t) : t :=
  mk (user w) (notification w) (isAIProcessing w) (isMinimized w) (globalHistory w)
     (batchProgress w) (queuedImages w) (draftCases w) (selectedDraftIndex w)
     (cases w) (drafts w) (uuids w) (ticks w) (trace w ++ [e]).
End World.

(* ===================================================================== *)
(** * The monad of handlers: state, and exceptions that keep the state *)
(* ===================================================================== *)

Inductive Result (A : Type) :=
  | Ok (a : A)
  | Throw.
Arguments Ok {A} a.
Arguments Throw {A}.

Definition M (A : Type) : Type := World.t -> Result A * World.t.

Definition ret {A} (a : A) : M A := fun w => (Ok a, w).

Definition bind {A B} (m : M A) (k : A -> M B) : M B :=
  fun w => match m w with
           | (Ok a, w') => k a w'
           | (Throw, w') => (Throw, w')
           end.

Definition throw {A} : M A := fun w => (Throw, w).

Definition get : M World.t := fun w => (Ok w, w).

Definition modify (f : World.t -> World.t) : M unit := fun w => (Ok tt, f w).

(** [try { body } catch { handler } finally { fin }]: [fin] runs whatever
    the outcome of [body] and [handler]; an exception of [handler] goes on
    after it. *)
Definition try_catch_finally (body handler fin : M unit) : M unit :=
  fun w =>
    let '(r, w1) := match body w with
                    | (Ok _, w') => (Ok tt, w')
                    | (Throw, w') => handler w'
                    end in
    match fin w1 with
    | (Ok _, w2) => (r, w2)
    | (Throw, w2) => (Throw, w2)
    end.

(** [try { body } catch { handler }] *)
Definition try_catch (body handler : M unit) : M unit :=
  try_catch_finally body handler (ret tt).

Definition exec {A} (m : M A) (w : World.t) : World.t := snd (m w).
Definition outcome {A} (m : M A) (w : World.t) : Result A := fst (m w).

Declare Scope monad_scope.
Delimit Scope monad_scope with monad.
Notation "x <- m ;; k" := (bind m (fun x => k))
  (at level 100, m at next level, right associativity) : monad_scope.
Notation "m ;;; k" := (bind m (fun _ => k))
  (at level 100, right associativity) : monad_scope.
Local Open Scope monad_scope.

(** [await Promise.all(xs.map(async x => f(x)))]: the results in the order
    of [xs]; the first rejection rejects the whole.  The callbacks are run
    one after the other, in the order of [xs]. *)
Fixpoint promise_all {A B} (f : A -> M B) (xs : list A) : M (list B) :=
  match xs with
  | [] => ret []
  | x :: xs' => y <- f x ;; ys <- promise_all f xs' ;; ret (y :: ys)
  end.

(** [xs.map(x => f(x))] for a callback with effects. *)
Definition traverse {A B} (f : A -> M B) (xs : list A) : M (list B) := promise_all f xs.

(* ===================================================================== *)
(** * App.tsx: the database layer *)
(* ===================================================================== *)

(** The key path declared for each store in [initDB]. *)
Definition keyPath (storeName : StoreName) (data : CaseRecord.t) : option string :=
  match storeName with
  | STORE_CASES => Some (CaseRecord.caseId data)
  | STORE_DRAFTS => CaseRecord.id data
  end.

Definition objectStore (storeName : StoreName) (w : World.t) : gmap string CaseRecord.t :=
  match storeName with
  | STORE_CASES => World.cases w
  | STORE_DRAFTS => World.drafts w
  end.

Definition set_objectStore (storeName : StoreName) (m : gmap string CaseRecord.t)
    (w : World.t) : World.t :=
  match storeName with
  | STORE_CASES => World.set_cases m w
  | STORE_DRAFTS => World.set_drafts m w
  end.

(** [objectStore.put(data)] on a store with in-line keys: the record is
    stored under the key found at the key path, replacing the record that
    had this key; without a key there, [put] raises.  The database is taken
    to open. *)
Definition saveToDB (storeName : StoreName) (data : CaseRecord.t) : M unit :=
  match keyPath storeName data with
  | None => throw
  | Some k =>
      modify (fun w =>
        World.emit (EvPut storeName data)
          (set_objectStore storeName (<[k := data]> (objectStore storeName w)) w))
  end.

Definition removeFromDB (storeName : StoreName) (key : string) : M unit :=
  modify (fun w =>
    World.emit (EvDelete storeName key)
      (set_objectStore storeName (delete key (objectStore storeName w)) w)).

(** IndexedDB orders string keys by their UTF-16 code units.  On the UTF-8
    bytes of a text this is the order of the bytes, except that a character
    beyond U+FFFF, whose first code unit is a surrogate (D800..DBFF) and
    whose first byte is F0..F4, comes before the characters U+E000..U+FFFF,
    whose first byte is EE or EF.  [unit_rank] ranks the bytes accordingly. *)
Definition unit_rank (c : ascii) : N :=
  let n := N_of_ascii c in
  if ((240 <=? n) && (n <=? 244))%N then (n - 2)%N
  else if ((238 <=? n) && (n <=? 239))%N then (n + 5)%N
  else n.

Fixpoint code_unit_leb (a b : string) : bool :=
  match a, b with
  | EmptyString, _ => true
  | String _ _, EmptyString => false
  | String x a', String y b' =>
      if (unit_rank x =? unit_rank y)%N then code_unit_leb a' b'
      else (unit_rank x <? unit_rank y)%N
  end.

Definition key_le (a b : string * CaseRecord.t) : Prop := code_unit_leb a.1 b.1 = true.

#[global] Instance key_le_dec a b : Decision (key_le a b).
Proof. unfold key_le. apply _. Defined.

(** [objectStore.getAll()]: the records in ascending order of their keys. *)
Definition getAll (m : gmap string CaseRecord.t) : list CaseRecord.t :=
  (merge_sort key_le (map_to_list m)).*2.

Definition getAllFromDB (storeName : StoreName) : M (list CaseRecord.t) :=
  w <- get ;; ret (getAll (objectStore storeName w)).

(* ===================================================================== *)
(** * App.tsx: the cropper *)
(* ===================================================================== *)

(** Integer part, towards zero. *)
Definition Qtrunc (q : Q) : Z := Z.quot (Qnum q) (Z.pos (Qden q)).

(** The conversion of a number to an [unsigned long]: the integer part,
    modulo 2^32, and 0 for what is not finite. *)
Definition toUnsignedLong (x : Number.t) : Z :=
  match x with
  | Number.Finite q => (Qtrunc q mod 2 ^ 32)%Z
  | _ => 0%Z
  end.

(** Assigning a number to the [width] or [height] attribute of a canvas:
    the attribute reflects a content attribute that holds at most
    2^31 - 1, and takes its default ([default]: 300 for the width, 150
    for the height) for a greater value. *)
Definition setDimension (default : Z) (x : Number.t) : Z :=
  let n := toUnsignedLong x in
  if (n <=? 2147483647)%Z then n else default.

(** The body of [img.onload] up to the draw: the canvas and the arguments
    of [drawImage], for an image of natural size [imgWidth] x [imgHeight].
    The members of the box are numbers of the parsed response: the
    binary64 values of their numerals. *)
Definition cropGeometry (imgWidth imgHeight : Z) (box : Box.t) : Canvas.t * DrawImage.t :=
  let ymin := Number.round (Box.ymin box) in
  let xmin := Number.round (Box.xmin box) in
  let ymax := Number.round (Box.ymax box) in
  let xmax := Number.round (Box.xmax box) in
  let img_width := Number.Finite (inject_Z imgWidth) in
  let img_height := Number.Finite (inject_Z imgHeight) in
  let x := Number.mul (Number.div1000 xmin) img_width in
  let y := Number.mul (Number.div1000 ymin) img_height in
  let width := Number.mul (Number.div1000 (Number.sub xmax xmin)) img_width in
  let height := Number.mul (Number.div1000 (Number.sub ymax ymin)) img_height in
  let zero := Number.Finite 0 in
  (Canvas.mk (setDimension 300 (Number.max (Number.Finite 1) width))
             (setDimension 150 (Number.max (Number.Finite 1) height)),
   DrawImage.mk x y width height zero zero width height).

(** The image is taken to decode ([onload] fires); when it does not the
    promise stays pending for ever. *)
Definition cropImageByCoordinates (E : Env.t) (base64 mimeType : string) (box : Box.t)
    : M string :=
  let '(imgWidth, imgHeight) := Env.imageSize E mimeType base64 in
  let '(canvas, draw) := cropGeometry imgWidth imgHeight box in
  ret (Env.toDataURL E mimeType base64 canvas draw).

(* ===================================================================== *)
(** * App.tsx: state setters, identifiers, clock *)
(* ===================================================================== *)

Definition setNotification (n : Notification.t) : M unit :=
  modify (fun w => World.emit (EvNotify n) (World.set_notification (Some n) w)).

Definition uuidv4 (E : Env.t) : M string :=
  fun w => (Ok (Env.uuid E (World.uuids w)), World.set_uuids (S (World.uuids w)) w).

(** [new Date().toISOString()] *)
Definition newDate (E : Env.t) : M Instant :=
  fun w => (Ok (Env.clock E (World.ticks w)), World.set_ticks (S (World.ticks w)) w).

(** [new Date(c.submittedAt || 0).getTime()] *)
Definition getTime (c : CaseRecord.t) : Z := default 0%Z (CaseRecord.submittedAt c).

(** The comparator of both sorts: [(a, b) => time(b) - time(a)]. *)
Definition byDateDesc (a b : CaseRecord.t) : Z := (getTime b - getTime a)%Z.

(** [Array.prototype.sort(cmp)]: a stable sort; [x] goes after [y] exactly
    when [cmp x y > 0]. *)
Fixpoint sort_insert {A} (cmp : A -> A -> Z) (x : A) (l : list A) : list A :=
  match l with
  | [] => [x]
  | y :: l' => if (0 <? cmp x y)%Z then y :: sort_insert cmp x l' else x :: l
  end.

Definition Array_sort {A} (cmp : A -> A -> Z) (l : list A) : list A :=
  foldr (sort_insert cmp) [] l.

Definition loadAllData : M unit :=
  cases <- getAllFromDB STORE_CASES ;;
  modify (World.set_globalHistory (Array_sort byDateDesc cases)) ;;;
  drafts <- getAllFromDB STORE_DRAFTS ;;
  modify (World.set_draftCases drafts).

(** The memoised [unifiedHistory] of the current state. *)
Definition unifiedHistory (w : World.t) : list CaseRecord.t :=
  let confirmed_ := map (CaseRecord.with_status (Some confirmed)) (World.globalHistory w) in
  let drafts_ := map (CaseRecord.with_status (Some draft)) (World.draftCases w) in
  Array_sort byDateDesc (confirmed_ ++ drafts_).

(* ===================================================================== *)
(** * App.tsx: the batch orchestrator *)
(* ===================================================================== *)

Definition CHUNK_SIZE : nat := 2.

(** [l.slice(start, end)] for indices that are natural numbers. *)
Definition slice {A} (l : list A) (start end_ : nat) : list A :=
  take (end_ - start) (drop start l).

(** [l[i]] for an integer [i]: [undefined] outside the array. *)
Definition array_get {A} (l : list A) (i : Z) : option A :=
  if (i <? 0)%Z then None else l !! Z.to_nat i.

(** [o || d] for an optional string: the empty string is falsy. *)
Definition or_else (o : option string) (d : string) : string :=
  match o with
  | Some s => if decide (s = "") then d else s
  | None => d
  end.

Definition Math_ceil (q : Q) : Z := Qceiling q.
Definition Math_floor (q : Q) : Z := Qfloor q.

(** [Math.ceil(n / d)] and [Math.floor(n / d)] on array lengths and indices. *)
Definition ceil_div (n d : nat) : nat :=
  Z.to_nat (Math_ceil (inject_Z (Z.of_nat n) / inject_Z (Z.of_nat d))).
Definition floor_div (n d : nat) : nat :=
  Z.to_nat (Math_floor (inject_Z (Z.of_nat n) / inject_Z (Z.of_nat d))).

(** [ai.models.generateContent] on the pages of [chunk], then [JSON.parse]
    and [result.cases]. *)
Definition generateContent (E : Env.t) (chunk : list QueuedImage.t)
    : M (list (option AiCase.t)) :=
  fun w =>
    let w' := World.emit (EvExtract chunk) w in
    match Env.extraction E chunk with
    | Some cases => (Ok cases, w')
    | None => (Throw, w')
    end.

(** The asynchronous callback mapped over [aiCase.detectedImages]. *)
Definition detectedImage (E : Env.t) (chunk : list QueuedImage.t) (imgInfo : AiImage.t)
    : M (option ImageRecord.t) :=
  let source := array_get chunk (default 0%Z (AiImage.originalImageIndex imgInfo)) in
  match source, AiImage.box_2d imgInfo with
  | Some source, Some box =>
      croppedBase64 <-
        cropImageByCoordinates E (QueuedImage.data source) (QueuedImage.type source) box ;;
      id <- uuidv4 E ;;
      ret (Some (ImageRecord.mk
        id
        ("data:" ++ QueuedImage.type source ++ ";base64," ++ croppedBase64)
        ("Auto_" ++ QueuedImage.name source)
        (if decide (AiImage.type imgInfo = Some ImageType.IHC)
         then ImageType.IHC else ImageType.HE)
        (or_else (AiImage.magnification imgInfo) Magnification.OTHER)
        (or_else (AiImage.description imgInfo) "")))
  | _, _ => ret None
  end.

(** [{ ...s, id: uuidv4() }] *)
Definition textSection (E : Env.t) (s : AiSection.t) : M TextRecord.t :=
  id <- uuidv4 E ;;
  ret (TextRecord.mk id (AiSection.label s) (AiSection.content s)).

(** The construction of [newDraft] for one entry of [result.cases]. *)
Definition newDraft (E : Env.t) (chunk : list QueuedImage.t) (aiCase : option AiCase.t)
    : M CaseRecord.t :=
  match aiCase with
  | None => throw
  | Some aiCase =>
      let caseId := "Case-" ++ or_else (AiCase.chapterNumber aiCase) "0"
                    ++ "-" ++ or_else (AiCase.caseNumber aiCase) "0" in
      results <- promise_all (detectedImage E chunk)
                   (default [] (AiCase.detectedImages aiCase)) ;;
      let images := omap (fun r => r) results in
      id <- uuidv4 E ;;
      w <- get ;;
      match World.user w with
      | None => throw
      | Some user =>
          textSections <- traverse (textSection E)
                            (default [] (AiCase.textSections aiCase)) ;;
          submittedAt <- newDate E ;;
          ret (CaseRecord.mk (Some id) (Some draft) caseId (User.id user)
                 (Some (User.username user))
                 (or_else (AiCase.organCategory aiCase) "")
                 textSections images (Some submittedAt) None)
      end
  end.

(** [for (const aiCase of result.cases) { ...; chunkDrafts.push(newDraft);
    await saveToDB(STORE_DRAFTS, newDraft); }], returning [chunkDrafts]. *)
Fixpoint processCases (E : Env.t) (chunk : list QueuedImage.t)
    (cases : list (option AiCase.t)) (chunkDrafts : list CaseRecord.t)
    : M (list CaseRecord.t) :=
  match cases with
  | [] => ret chunkDrafts
  | aiCase :: rest =>
      d <- newDraft E chunk aiCase ;;
      saveToDB STORE_DRAFTS d ;;;
      processCases E chunk rest (chunkDrafts ++ [d])
  end.

(** One iteration of the chunk loop, at index [i]. *)
Definition processChunk (E : Env.t) (i : nat) (chunk : list QueuedImage.t) : M unit :=
  modify (fun w => World.set_batchProgress
            (BatchProgress.mk (floor_div i CHUNK_SIZE + 1)
               (BatchProgress.total (World.batchProgress w))) w) ;;;
  cases <- generateContent E chunk ;;
  chunkDrafts <- processCases E chunk cases [] ;;
  modify (fun w => World.set_draftCases (World.draftCases w ++ chunkDrafts) w).

(** [for (let i = ...; i < imagesToProcess.length; i += CHUNK_SIZE)], run
    from the state [w].  The second obligation is the unfolding equation of
    the loop, proved here without function extensionality. *)
#[local] Unset Equations With Funext.
#[local] Set Warnings "-solve_obligation_error".
Equations chunkLoop (E : Env.t) (imagesToProcess : list QueuedImage.t) (i : nat)
    (w : World.t) : Result unit * World.t by wf (length imagesToProcess - i) lt :=
chunkLoop E imagesToProcess i w with decide (i < length imagesToProcess) := {
  | left _ =>
      bind (processChunk E i (slice imagesToProcess i (i + CHUNK_SIZE)))
           (fun _ w' => chunkLoop E imagesToProcess (i + CHUNK_SIZE) w') w;
  | right _ => ret tt w }.
Next Obligation. unfold CHUNK_SIZE. lia. Qed.
Next Obligation.
  intros E imgs i w. unfold chunkLoop. Subterm.unfold_FixWf.
  - destruct (decide (pr2 < length pr0)); simpl; [|reflexivity].
    unfold bind. destruct (processChunk _ _ _ _) as [[a|] w']; [apply H0 | reflexivity].
  - unfold chunkLoop_unfold. destruct (decide (i < length imgs)); reflexivity.
Defined.
#[local] Set Warnings "solve_obligation_error".

Definition selectedImages (w : World.t) : list QueuedImage.t :=
  filter (fun img => QueuedImage.selected img = true) (World.queuedImages w).

Definition batchFailure : Notification.t := Notification.mk error "处理异常。".
Definition batchSuccess : Notification.t :=
  Notification.mk success "处理完成！请在列表中校对生成的数据。".

Definition processBatchSequentially (E : Env.t) : M unit :=
  w <- get ;;
  let imagesToProcess := selectedImages w in
  if decide (length imagesToProcess = 0) then ret tt
  else
    modify (World.set_batchProgress
              (BatchProgress.mk 0 (ceil_div (length imagesToProcess) CHUNK_SIZE))) ;;;
    modify (World.set_isAIProcessing true) ;;;
    modify (World.set_isMinimized false) ;;;
    try_catch_finally
      (chunkLoop E imagesToProcess 0 ;;;
       modify (World.set_queuedImages []) ;;;
       setNotification batchSuccess)
      (setNotification batchFailure)
      (modify (World.set_isAIProcessing false)).

(* ===================================================================== *)
(** * App.tsx: confirming and deleting a draft *)
(* ===================================================================== *)

(** [draftCases[selectedDraftIndex] || null] *)
Definition currentCase (w : World.t) : option CaseRecord.t :=
  array_get (World.draftCases w) (World.selectedDraftIndex w).

Definition handleCaseSubmit (E : Env.t) : M unit :=
  w <- get ;;
  match currentCase w with
  | None => ret tt
  | Some cur =>
      try_catch
        (now <- newDate E ;;
         let confirmed_ :=
           CaseRecord.delete_status
             (CaseRecord.delete_id (CaseRecord.with_submittedAt (Some now) cur)) in
         saveToDB STORE_CASES confirmed_ ;;;
         match CaseRecord.id cur with
         | None => throw
         | Some key => removeFromDB STORE_DRAFTS key
         end ;;;
         loadAllData ;;;
         setNotification (Notification.mk success "已存档"))
        (setNotification (Notification.mk error "失败"))
  end.

Definition handleDraftDelete (id : string) : M unit :=
  removeFromDB STORE_DRAFTS id ;;;
  modify (fun w => World.set_draftCases
            (filter (fun d => CaseRecord.id d ≠ Some id) (World.draftCases w)) w).

(* ===================================================================== *)
(** * JSON.stringify and JSON.parse *)
(* ===================================================================== *)

Module JSON.

(** A parsed JSON text.  A number is kept as the lexeme that denotes it. *)
#[warnings="-register-all"]
Inductive value :=
  | Null
  | Bool (b : bool)
  | Number (lexeme : string)
  | Str (s : string)
  | Array (elements : list value)
  | Object (members : list (string * value)).

(** ** Serialisation *)

(** The quotation mark. *)
Definition dquote : ascii := "034"%char.

Definition hex_digit (n : N) : ascii :=
  match String.get (N.to_nat n) "0123456789abcdef" with
  | Some c => c
  | None => "0"%char
  end.

Definition is_control (c : ascii) : bool := (N_of_ascii c <? 32)%N.

(** One character of [QuoteJSONString]. *)
Definition quote_char (c : ascii) : string :=
  if Ascii.eqb c dquote then String "\" (String dquote "")
  else if Ascii.eqb c "\" then "\\"
  else if Ascii.eqb c "008" then "\b"
  else if Ascii.eqb c "012" then "\f"
  else if Ascii.eqb c "010" then "\n"
  else if Ascii.eqb c "013" then "\r"
  else if Ascii.eqb c "009" then "\t"
  else if is_control c then
    "\u00" ++ String (hex_digit (N_of_ascii c / 16)) (String (hex_digit (N_of_ascii c mod 16)) "")
  else String c "".

Fixpoint quote_body (s : string) : string :=
  match s with
  | EmptyString => ""
  | String c s' => quote_char c ++ quote_body s'
  end.

Definition quote (s : string) : string :=
  String dquote "" ++ quote_body s ++ String dquote "".

Fixpoint join (sep : string) (l : list string) : string :=
  match l with
  | [] => ""
  | [x] => x
  | x :: l' => x ++ sep ++ join sep l'
  end.

(** [JSON.stringify(v)], without indentation. *)
Fixpoint stringify (v : value) : string :=
  match v with
  | Null => "null"
  | Bool true => "true"
  | Bool false => "false"
  | Number lexeme => lexeme
  | Str s => quote s
  | Array elements => "[" ++ join "," (map stringify elements) ++ "]"
  | Object members =>
      "{" ++ join "," (map (fun m => quote (fst m) ++ ":" ++ stringify (snd m)) members) ++ "}"
  end.

(** ** Parsing *)

Definition is_ws (c : ascii) : bool :=
  Ascii.eqb c " " || Ascii.eqb c "009" || Ascii.eqb c "010" || Ascii.eqb c "013".

Fixpoint skip_ws (s : string) : string :=
  match s with
  | String c s' => if is_ws c then skip_ws s' else s
  | EmptyString => ""
  end.

Definition is_digit (c : ascii) : bool :=
  (48 <=? N_of_ascii c)%N && (N_of_ascii c <=? 57)%N.

Definition hex_value (c : ascii) : option N :=
  let n := N_of_ascii c in
  if is_digit c then Some (n - 48)%N
  else if (97 <=? n)%N && (n <=? 102)%N then Some (n - 87)%N
  else if (65 <=? n)%N && (n <=? 70)%N then Some (n - 55)%N
  else None.

(** The content of a string literal, as raw characters and the code
    units written [\uXXXX]. *)
Inductive token := Raw (c : ascii) | Unit (u : N).

Definition simple_escape (e : ascii) : option ascii :=
  if Ascii.eqb e dquote then Some dquote
  else if Ascii.eqb e "\" then Some "\"%char
  else if Ascii.eqb e "/" then Some "/"%char
  else if Ascii.eqb e "b" then Some "008"%char
  else if Ascii.eqb e "f" then Some "012"%char
  else if Ascii.eqb e "n" then Some "010"%char
  else if Ascii.eqb e "r" then Some "013"%char
  else if Ascii.eqb e "t" then Some "009"%char
  else None.

Definition cons_token (t : token) (r : option (list token * string))
    : option (list token * string) :=
  match r with
  | Some (ts, rest) => Some (t :: ts, rest)
  | None => None
  end.

(** Scans a string literal after its opening quote, up to and including
    the closing quote. *)
Fixpoint scan (s : string) : option (list token * string) :=
  match s with
  | EmptyString => None
  | String c s1 =>
      if Ascii.eqb c dquote then Some ([], s1)
      else if Ascii.eqb c "\" then
        match s1 with
        | EmptyString => None
        | String e s2 =>
            if Ascii.eqb e "u" then
              match s2 with
              | String h1 (String h2 (String h3 (String h4 s3))) =>
                  match hex_value h1, hex_value h2, hex_value h3, hex_value h4 with
                  | Some a, Some b, Some c, Some d =>
                      cons_token (Unit (((a * 16 + b) * 16 + c) * 16 + d)%N) (scan s3)
                  | _, _, _, _ => None
                  end
              | _ => None
              end
            else
              match simple_escape e with
              | Some r => cons_token (Raw r) (scan s2)
              | None => None
              end
        end
      else if is_control c then None
      else cons_token (Raw c) (scan s1)
  end.

Definition byte (n : N) : ascii := ascii_of_N n.

(** The UTF-8 bytes of a code point (generalised to lone surrogates). *)
Definition utf8 (cp : N) : string :=
  if (cp <? 128)%N then String (byte cp) ""
  else if (cp <? 2048)%N then
    String (byte (192 + cp / 64)) (String (byte (128 + cp mod 64)) "")
  else if (cp <? 65536)%N then
    String (byte (224 + cp / 4096))
      (String (byte (128 + (cp / 64) mod 64)) (String (byte (128 + cp mod 64)) ""))
  else
    String (byte (240 + cp / 262144))
      (String (byte (128 + (cp / 4096) mod 64))
         (String (byte (128 + (cp / 64) mod 64)) (String (byte (128 + cp mod 64)) ""))).

Definition is_high_surrogate (u : N) : bool := (55296 <=? u)%N && (u <=? 56319)%N.
Definition is_low_surrogate (u : N) : bool := (56320 <=? u)%N && (u <=? 57343)%N.

Fixpoint decode (ts : list token) : string :=
  match ts with
  | [] => ""
  | Raw c :: ts' => String c (decode ts')
  | Unit hi :: ts' =>
      match ts' with
      | Unit lo :: ts'' =>
          if is_high_surrogate hi && is_low_surrogate lo
          then utf8 (65536 + (hi - 55296) * 1024 + (lo - 56320))%N ++ decode ts''
          else utf8 hi ++ decode ts'
      | _ => utf8 hi ++ decode ts'
      end
  end.

Definition parse_string (s : string) : option (string * string) :=
  match scan s with
  | Some (ts, rest) => Some (decode ts, rest)
  | None => None
  end.

Fixpoint span_digits (s : string) : string * string :=
  match s with
  | String c s' =>
      if is_digit c then let '(ds, rest) := span_digits s' in (String c ds, rest)
      else ("", s)
  | EmptyString => ("", "")
  end.

(** [digit+] *)
Definition digits1 (s : string) : option (string * string) :=
  match span_digits s with
  | (EmptyString, _) => None
  | r => Some r
  end.

Definition parse_int (s : string) : option (string * string) :=
  match s with
  | String c s' =>
      if Ascii.eqb c "0" then Some ("0", s')
      else if is_digit c then digits1 s
      else None
  | EmptyString => None
  end.

Definition parse_frac (s : string) : option (string * string) :=
  match s with
  | String c s' =>
      if Ascii.eqb c "." then
        match digits1 s' with
        | Some (ds, rest) => Some (String c ds, rest)
        | None => None
        end
      else Some ("", s)
  | EmptyString => Some ("", s)
  end.

Definition parse_exp (s : string) : option (string * string) :=
  match s with
  | String c s' =>
      if Ascii.eqb c "e" || Ascii.eqb c "E" then
        match s' with
        | String sg s'' =>
            if Ascii.eqb sg "+" || Ascii.eqb sg "-" then
              match digits1 s'' with
              | Some (ds, rest) => Some (String c (String sg ds), rest)
              | None => None
              end
            else
              match digits1 s' with
              | Some (ds, rest) => Some (String c ds, rest)
              | None => None
              end
        | EmptyString => None
        end
      else Some ("", s)
  | EmptyString => Some ("", s)
  end.

Definition parse_number (s : string) : option (string * string) :=
  let '(sign, s0) :=
    match s with
    | String c s' => if Ascii.eqb c "-" then ("-", s') else ("", s)
    | EmptyString => ("", s)
    end in
  match parse_int s0 with
  | None => None
  | Some (i, s1) =>
      match parse_frac s1 with
      | None => None
      | Some (f, s2) =>
          match parse_exp s2 with
          | None => None
          | Some (e, s3) => Some (sign ++ i ++ f ++ e, s3)
          end
      end
  end.

Definition strip_prefix (p s : string) : option string :=
  if String.prefix p s then Some (String.substring (String.length p) (String.length s - String.length p) s)
  else None.

(** [parse_value] reads one value after optional white space;
    [parse_members] and [parse_elements] read the rest of an object or
    array whose opening bracket has been read and is not closed at once.
    Each call reads at least one character before it calls another, so
    [fuel] above the length of the text is never used up. *)
Fixpoint parse_value (fuel : nat) (s : string) : option (value * string) :=
  match fuel with
  | O => None
  | S fuel' =>
      match skip_ws s with
      | EmptyString => None
      | String c s1 =>
          if Ascii.eqb c "{" then
            match skip_ws s1 with
            | String c' s2 =>
                if Ascii.eqb c' "}" then Some (Object [], s2)
                else
                  match parse_members fuel' s1 with
                  | Some (ms, rest) => Some (Object ms, rest)
                  | None => None
                  end
            | EmptyString => None
            end
          else if Ascii.eqb c "[" then
            match skip_ws s1 with
            | String c' s2 =>
                if Ascii.eqb c' "]" then Some (Array [], s2)
                else
                  match parse_elements fuel' s1 with
                  | Some (vs, rest) => Some (Array vs, rest)
                  | None => None
                  end
            | EmptyString => None
            end
          else if Ascii.eqb c dquote then
            match parse_string s1 with
            | Some (str, rest) => Some (Str str, rest)
            | None => None
            end
          else if Ascii.eqb c "t" then
            match strip_prefix "rue" s1 with
            | Some rest => Some (Bool true, rest)
            | None => None
            end
          else if Ascii.eqb c "f" then
            match strip_prefix "alse" s1 with
            | Some rest => Some (Bool false, rest)
            | None => None
            end
          else if Ascii.eqb c "n" then
            match strip_prefix "ull" s1 with
            | Some rest => Some (Null, rest)
            | None => None
            end
          else
            match parse_number (String c s1) with
            | Some (lexeme, rest) => Some (Number lexeme, rest)
            | None => None
            end
      end
  end
with parse_members (fuel : nat) (s : string) : option (list (string * value) * string) :=
  match fuel with
  | O => None
  | S fuel' =>
      match skip_ws s with
      | String q s1 =>
          if Ascii.eqb q dquote then
            match parse_string s1 with
            | Some (key, s2) =>
                match skip_ws s2 with
                | String colon s3 =>
                    if Ascii.eqb colon ":" then
                      match parse_value fuel' s3 with
                      | Some (v, s4) =>
                          match skip_ws s4 with
                          | String d s5 =>
                              if Ascii.eqb d "," then
                                match parse_members fuel' s5 with
                                | Some (ms, rest) => Some ((key, v) :: ms, rest)
                                | None => None
                                end
                              else if Ascii.eqb d "}" then Some ([(key, v)], s5)
                              else None
                          | EmptyString => None
                          end
                      | None => None
                      end
                    else None
                | EmptyString => None
                end
            | None => None
            end
          else None
      | EmptyString => None
      end
  end
with parse_elements (fuel : nat) (s : string) : option (list value * string) :=
  match fuel with
  | O => None
  | S fuel' =>
      match parse_value fuel' s with
      | Some (v, s1) =>
          match skip_ws s1 with
          | String d s2 =>
              if Ascii.eqb d "," then
                match parse_elements fuel' s2 with
                | Some (vs, rest) => Some (v :: vs, rest)
                | None => None
                end
              else if Ascii.eqb d "]" then Some ([v], s2)
              else None
          | EmptyString => None
          end
      | None => None
      end
  end.

(** [JSON.parse(text)]; [None] when it raises [SyntaxError]. *)
Definition parse (text : string) : option value :=
  match parse_value (S (String.length text)) text with
  | Some (v, rest) =>
      match skip_ws rest with
      | EmptyString => Some v
      | _ => None
      end
  | None => None
  end.

(** [o.key] on a parsed object: of several members with the same name
    the last one is the one that [JSON.parse] keeps. *)
Fixpoint member (key : string) (members : list (string * value)) : option value :=
  match members with
  | [] => None
  | (k, v) :: rest =>
      match member key rest with
      | Some v' => Some v'
      | None => if decide (k = key) then Some v else None
      end
  end.

End JSON.

(* ===================================================================== *)
(** * components/TextEntry.tsx: the structured diagnostic basis *)
(* ===================================================================== *)

Module DiagnosticBasisStructured.
Record t := mk { gross : string; he : string; ihc : string; general : string }.

(** [keyof DiagnosticBasisStructured] *)
Inductive key := gross_key | he_key | ihc_key | general_key.

(** [{ ...b, [k]: value }] *)
Definition set (k : key) (value : string) (b : t) : t :=
  match k with
  | gross_key => mk value (he b) (ihc b) (general b)
  | he_key => mk (gross b) value (ihc b) (general b)
  | ihc_key => mk (gross b) (he b) value (general b)
  | general_key => mk (gross b) (he b) (ihc b) value
  end.

(** The object as [JSON.stringify] sees it: its members in creation order. *)
Definition to_json (b : t) : JSON.value :=
  JSON.Object [("gross", JSON.Str (gross b)); ("he", JSON.Str (he b));
               ("ihc", JSON.Str (ihc b)); ("general", JSON.Str (general b))].
End DiagnosticBasisStructured.

(** [parsed.key || ''] where the interface declares a string.  A member
    that is missing, [null], [false] or the empty string gives the empty
    string; so does, here, a member of another type, which the source would
    keep as it is against the declared type of the state. *)
Definition string_member (key : string) (members : list (string * JSON.value)) : string :=
  match JSON.member key members with
  | Some (JSON.Str s) => s
  | _ => ""
  end.

(** The initialiser of the [structuredBasis] state, for a section. *)
Definition initStructuredBasis (section : TextRecord.t) : DiagnosticBasisStructured.t :=
  let plain := DiagnosticBasisStructured.mk "" "" "" (TextRecord.content section) in
  if decide (TextRecord.label section = DIAGNOSTIC_BASIS) then
    match JSON.parse (TextRecord.content section) with
    | Some (JSON.Object members) =>
        DiagnosticBasisStructured.mk
          (string_member "gross" members) (string_member "he" members)
          (string_member "ihc" members) (string_member "general" members)
    | Some (JSON.Array _) => DiagnosticBasisStructured.mk "" "" "" ""
    | _ => plain
    end
  else plain.

(** [handleStructuredChange(key, value)] in state [structuredBasis]: the
    next state, and the content handed to [onUpdate]. *)
Definition handleStructuredChange (structuredBasis : DiagnosticBasisStructured.t)
    (key : DiagnosticBasisStructured.key) (value : string)
    : DiagnosticBasisStructured.t * string :=
  let next := DiagnosticBasisStructured.set key value structuredBasis in
  if negb (String.eqb (DiagnosticBasisStructured.gross next) "")
     || negb (String.eqb (DiagnosticBasisStructured.he next) "")
     || negb (String.eqb (DiagnosticBasisStructured.ihc next) "")
  then (next, JSON.stringify (DiagnosticBasisStructured.to_json next))
  else (next, DiagnosticBasisStructured.general next).

(** The parent's [onUpdate(id, { content })] on the section. *)
Definition with_content (content : string) (section : TextRecord.t) : TextRecord.t :=
  TextRecord.mk (TextRecord.id section) (TextRecord.label section) content.

(* ===================================================================== *)
(** * components/JSONPreview.tsx: the export transformation *)
(* ===================================================================== *)

(** A value of the exported [sections] object: the text of the section, or
    the parsed structure of a diagnostic basis. *)
Inductive SectionValue :=
  | Text (content : string)
  | Structured (parsed : JSON.value).

Definition processContent (label : TextLabel) (content : string) : SectionValue :=
  if decide (label = DIAGNOSTIC_BASIS) then
    match JSON.parse content with
    | Some (JSON.Object members) => Structured (JSON.Object members)
    | Some (JSON.Array elements) => Structured (JSON.Array elements)
    | _ => Text content
    end
  else Text content.

(** [acc[key] = v] on an object with string keys: a property that exists
    keeps its place and takes the new value; a new one is added last. *)
Fixpoint obj_set {V} (key : string) (v : V) (acc : list (string * V)) : list (string * V) :=
  match acc with
  | [] => [(key, v)]
  | (k, v') :: rest =>
      if decide (k = key) then (k, v) :: rest else (k, v') :: obj_set key v rest
  end.

(** [acc[key]] *)
Fixpoint obj_get {V} (key : string) (acc : list (string * V)) : option V :=
  match acc with
  | [] => None
  | (k, v) :: rest => if decide (k = key) then Some v else obj_get key rest
  end.

Module ExportImage.
Record t := mk { magnification : string; annotation : string; filename : string }.
End ExportImage.

Module TrainingData.
Record t := mk {
  metadata_id : string;
  metadata_category : string;
  images_he : list ExportImage.t;
  images_ihc : list ExportImage.t;
  sections : list (string * SectionValue) }.
End TrainingData.

Definition exportImage (img : ImageRecord.t) : ExportImage.t :=
  ExportImage.mk (ImageRecord.magnification img) (ImageRecord.description img)
    (ImageRecord.fileName img).

(** [data.textSections.reduce((acc, curr) => { acc[curr.label] = ...;
    return acc; }, {})] *)
Definition exportSections (textSections : list TextRecord.t) : list (string * SectionValue) :=
  foldl (fun acc curr =>
           obj_set (TextLabel_value (TextRecord.label curr))
             (processContent (TextRecord.label curr) (TextRecord.content curr)) acc)
        [] textSections.

(** The [training_data] member of [exportData]; its other members are those
    of [data]. *)
Definition training_data (data : CaseRecord.t) : TrainingData.t :=
  TrainingData.mk
    (CaseRecord.caseId data)
    (CaseRecord.organCategory data)
    (map exportImage
       (filter (fun img => ImageRecord.type img = ImageType.HE) (CaseRecord.images data)))
    (map exportImage
       (filter (fun img => ImageRecord.type img = ImageType.IHC) (CaseRecord.images data)))
    (exportSections (CaseRecord.textSections data)).

Definition exportData (data : CaseRecord.t) : CaseRecord.t * TrainingData.t :=
  (data, training_data data).


(* ===================================================================== *)
(** * App.tsx: the remaining handlers of the App component *)
(* ===================================================================== *)

(** Two more setters of the React state. *)
Definition set_user (x : option User.t) (w : World.t) : World.t :=
  World.mk x (World.notification w) (World.isAIProcessing w) (World.isMinimized w)
    (World.globalHistory w) (World.batchProgress w) (World.queuedImages w)
    (World.draftCases w) (World.selectedDraftIndex w) (World.cases w) (World.drafts w)
    (World.uuids w) (World.ticks w) (World.trace w).

Definition set_selectedDraftIndex (x : Z) (w : World.t) : World.t :=
  World.mk (World.user w) (World.notification w) (World.isAIProcessing w)
    (World.isMinimized w) (World.globalHistory w) (World.batchProgress w)
    (World.queuedImages w) (World.draftCases w) x (World.cases w) (World.drafts w)
    (World.uuids w) (World.ticks w) (World.trace w).

(** The start button: [setUser({ id: uuidv4(), username: 'Operator_01',
    role: UserRole.USER })], followed by the effect that depends on [user]:
    [if (user) loadAllData()]. *)
Definition login (E : Env.t) : M unit :=
  id <- uuidv4 E ;;
  modify (set_user (Some (User.mk id "Operator_01" None USER))) ;;;
  loadAllData.

(** ** The queue of pages *)

(** [{ ...img, selected: b }] *)
Definition with_selected (b : bool) (img : QueuedImage.t) : QueuedImage.t :=
  QueuedImage.mk (QueuedImage.id img) (QueuedImage.data img) (QueuedImage.type img)
    (QueuedImage.name img) b.

Definition togglePageSelection (id : string) : M unit :=
  modify (fun w =>
    World.set_queuedImages
      (map (fun img => if decide (QueuedImage.id img = id)
                       then with_selected (negb (QueuedImage.selected img)) img
                       else img)
           (World.queuedImages w)) w).

Definition setAllSelection (selected : bool) : M unit :=
  modify (fun w =>
    World.set_queuedImages (map (with_selected selected) (World.queuedImages w)) w).

(** [r.onload] of the reader of an uploaded image file [f], where [data]
    is the part of the data URL [r.result] after the comma, [type] is
    [f.type] and [name] is [f.name]. *)
Definition fileReader_onload (E : Env.t) (data type name : string) : M unit :=
  id <- uuidv4 E ;;
  modify (fun w =>
    World.set_queuedImages
      (World.queuedImages w ++ [QueuedImage.mk id data type name true])%list w).

(** ** Importing a PDF *)

(** What pdf.js gives for a document that opens: the number of its pages,
    and for the page of number [i] (from 1) the base64 payload of the JPEG
    data URL of the canvas on which the page has been rendered at scale 2;
    [None] when [getPage] or [render] rejects. *)
Module PdfDocument.
Record t := mk { numPages : nat; page : nat -> option string }.
End PdfDocument.

(** [for (let i = ...; i <= pdf.numPages; i++)] from page [i] on, with
    [remaining] pages to go, pushing on [imgs]. *)
Fixpoint pageLoop (E : Env.t) (pdf : PdfDocument.t) (i remaining : nat)
    (imgs : list QueuedImage.t) : M (list QueuedImage.t) :=
  match remaining with
  | O => ret imgs
  | S remaining' =>
      match PdfDocument.page pdf i with
      | None => throw
      | Some data =>
          id <- uuidv4 E ;;
          modify (World.set_batchProgress (BatchProgress.mk i (PdfDocument.numPages pdf))) ;;;
          pageLoop E pdf (S i) remaining'
            (imgs ++ [QueuedImage.mk id data "image/jpeg" ("p" ++ pretty i)%string true])%list
      end
  end.

Definition pdfFailure : Notification.t := Notification.mk error "PDF 解析失败".
Definition pdfSuccess (pages : nat) : Notification.t :=
  Notification.mk success
    ("PDF 解析完成，共 " ++ pretty pages ++ " 页。请选择需要提取的页面。").

(** [file] is [e.target.files?.[0]]; the document is [None] when
    [file.arrayBuffer()] or [getDocument] rejects. *)
Definition handlePDFUpload (E : Env.t) (file : option (option PdfDocument.t)) : M unit :=
  match file with
  | None => ret tt
  | Some document =>
      modify (World.set_isAIProcessing true) ;;;
      try_catch_finally
        (match document with
         | None => throw
         | Some pdf =>
             imgs <- pageLoop E pdf 1 (PdfDocument.numPages pdf) [] ;;
             modify (World.set_queuedImages imgs) ;;;
             setNotification (pdfSuccess (length imgs))
         end)
        (setNotification pdfFailure)
        (modify (World.set_isAIProcessing false) ;;;
         modify (World.set_batchProgress (BatchProgress.mk 0 0)))
  end.

(** ** Editing the draft under review *)

(** A call of an asynchronous function whose promise is dropped: what the
    call does is done, and a rejection goes nowhere. *)
Definition detached {A} (m : M A) : M unit := fun w => (Ok tt, snd (m w)).

(** [{ ...c, organCategory: v }], [{ ...c, textSections: l }] and
    [{ ...c, images: l }] *)
Definition with_organCategory (v : string) (c : CaseRecord.t) : CaseRecord.t :=
  CaseRecord.mk (CaseRecord.id c) (CaseRecord.status c) (CaseRecord.caseId c)
    (CaseRecord.userId c) (CaseRecord.username c) v (CaseRecord.textSections c)
    (CaseRecord.images c) (CaseRecord.submittedAt c) (CaseRecord.updatedAt c).

Definition with_textSections (l : list TextRecord.t) (c : CaseRecord.t) : CaseRecord.t :=
  CaseRecord.mk (CaseRecord.id c) (CaseRecord.status c) (CaseRecord.caseId c)
    (CaseRecord.userId c) (CaseRecord.username c) (CaseRecord.organCategory c) l
    (CaseRecord.images c) (CaseRecord.submittedAt c) (CaseRecord.updatedAt c).

Definition with_images (l : list ImageRecord.t) (c : CaseRecord.t) : CaseRecord.t :=
  CaseRecord.mk (CaseRecord.id c) (CaseRecord.status c) (CaseRecord.caseId c)
    (CaseRecord.userId c) (CaseRecord.username c) (CaseRecord.organCategory c)
    (CaseRecord.textSections c) l (CaseRecord.submittedAt c) (CaseRecord.updatedAt c).

(** [Partial<TextRecord>]: the members that an update gives. *)
Module PartialTextRecord.
Record t := mk { id : option string; label : option TextLabel; content : option string }.

(** [{ ...x, ...up }] *)
Definition spread (x : TextRecord.t) (up : t) : TextRecord.t :=
  TextRecord.mk (default (TextRecord.id x) (id up))
    (default (TextRecord.label x) (label up))
    (default (TextRecord.content x) (content up)).
End PartialTextRecord.

(** [Partial<ImageRecord>] *)
Module PartialImageRecord.
Record t := mk {
  id : option string;
  url : option string;
  fileName : option string;
  type : option string;
  magnification : option string;
  description : option string }.

(** [{ ...x, ...up }] *)
Definition spread (x : ImageRecord.t) (up : t) : ImageRecord.t :=
  ImageRecord.mk (default (ImageRecord.id x) (id up))
    (default (ImageRecord.url x) (url up))
    (default (ImageRecord.fileName x) (fileName up))
    (default (ImageRecord.type x) (type up))
    (default (ImageRecord.magnification x) (magnification up))
    (default (ImageRecord.description x) (description up)).
End PartialImageRecord.

(** The two statements that end every edit:
    [setDraftCases(prev => prev.map((d, i) => i === selectedDraftIndex ? updated : d));
     saveToDB(STORE_DRAFTS, updated);]
    The promise of [saveToDB] is dropped. *)
Definition commitDraft (updated : CaseRecord.t) : M unit :=
  modify (fun w =>
    World.set_draftCases
      (imap (fun i d => if decide (Z.of_nat i = World.selectedDraftIndex w)
                        then updated else d)
            (World.draftCases w)) w) ;;;
  detached (saveToDB STORE_DRAFTS updated).

(** The editor and its handlers exist while there is a current case. *)
Definition editCurrent (f : CaseRecord.t -> CaseRecord.t) : M unit :=
  w <- get ;;
  match currentCase w with
  | None => ret tt
  | Some cur => commitDraft (f cur)
  end.

(** [onChange] of the category selector. *)
Definition organCategory_onChange (value : string) : M unit :=
  editCurrent (with_organCategory value).

(** [onUpdate] and [onRemove] as passed to [TextEntry]. *)
Definition TextEntry_onUpdate (id : string) (up : PartialTextRecord.t) : M unit :=
  editCurrent (fun cur =>
    with_textSections
      (map (fun x => if decide (TextRecord.id x = id)
                     then PartialTextRecord.spread x up else x)
           (CaseRecord.textSections cur)) cur).

Definition TextEntry_onRemove (id : string) : M unit :=
  editCurrent (fun cur =>
    with_textSections
      (filter (fun x => TextRecord.id x ≠ id) (CaseRecord.textSections cur)) cur).

(** [onUpdate] and [onRemove] as passed to [ImageEntry]. *)
Definition ImageEntry_onUpdate (id : string) (up : PartialImageRecord.t) : M unit :=
  editCurrent (fun cur =>
    with_images
      (map (fun x => if decide (ImageRecord.id x = id)
                     then PartialImageRecord.spread x up else x)
           (CaseRecord.images cur)) cur).

Definition ImageEntry_onRemove (id : string) : M unit :=
  editCurrent (fun cur =>
    with_images (filter (fun x => ImageRecord.id x ≠ id) (CaseRecord.images cur)) cur).

(** ** The history view *)

Inductive ActiveTab := edit | history.

(** The part of the state of [App] that a click in the history view
    changes: the React state of [World] and the active tab. *)
Module Screen.
Record t := mk { world : World.t; activeTab : ActiveTab }.
End Screen.

(** [l.findIndex(p)]: the index of the first element that satisfies [p],
    or -1. *)
Fixpoint findIndex_from {A} (p : A -> bool) (i : Z) (l : list A) : Z :=
  match l with
  | [] => (-1)%Z
  | x :: l' => if p x then i else findIndex_from p (i + 1)%Z l'
  end.

Definition findIndex {A} (p : A -> bool) (l : list A) : Z := findIndex_from p 0%Z l.

(** [onClick] of the entry of position [i] in the draft queue. *)
Definition draftChip_onClick (i : nat) : M unit :=
  modify (set_selectedDraftIndex (Z.of_nat i)).

(** [onClick] of an item of the history view. *)
Definition historyItem_onClick (item : CaseRecord.t) (s : Screen.t) : Screen.t :=
  if decide (CaseRecord.status item = Some draft) then
    Screen.mk
      (set_selectedDraftIndex
         (findIndex (fun d => bool_decide (CaseRecord.id d = CaseRecord.id item))
            (World.draftCases (Screen.world s)))
         (Screen.world s))
      edit
  else s.

(* ===================================================================== *)
(** * components/TextEntry.tsx: required sections and their content *)
(* ===================================================================== *)

Definition REQUIRED_TEXT_LABELS : list TextLabel :=
  [PATIENT_DATA; GROSS_EXAM; DIAGNOSIS; DIAGNOSTIC_BASIS].

(** [REQUIRED_TEXT_LABELS.includes(section.label)] *)
Definition isRequired (section : TextRecord.t) : bool :=
  bool_decide (TextRecord.label section ∈ REQUIRED_TEXT_LABELS).

(** [!s.trim()]: whether [s] holds white space and line terminators only.
    The string is read as UTF-8; the characters that [trim] strips are
    U+0009 to U+000D, U+0020, U+00A0, U+1680, U+2000 to U+200A, U+2028,
    U+2029, U+202F, U+205F, U+3000 and U+FEFF. *)
Fixpoint blank (s : string) : bool :=
  match s with
  | EmptyString => true
  | String c1 s1 =>
      let n1 := N_of_ascii c1 in
      if ((9 <=? n1)%N && (n1 <=? 13)%N) || (n1 =? 32)%N then blank s1
      else
        match s1 with
        | String c2 s2 =>
            let n2 := N_of_ascii c2 in
            if (n1 =? 194)%N && (n2 =? 160)%N then blank s2
            else
              match s2 with
              | String c3 s3 =>
                  let n3 := N_of_ascii c3 in
                  if ((n1 =? 225)%N && (n2 =? 154)%N && (n3 =? 128)%N)
                     || ((n1 =? 226)%N && (n2 =? 128)%N
                         && (((128 <=? n3)%N && (n3 <=? 138)%N)
                             || (n3 =? 168)%N || (n3 =? 169)%N || (n3 =? 175)%N))
                     || ((n1 =? 226)%N && (n2 =? 129)%N && (n3 =? 159)%N)
                     || ((n1 =? 227)%N && (n2 =? 128)%N && (n3 =? 128)%N)
                     || ((n1 =? 239)%N && (n2 =? 187)%N && (n3 =? 191)%N)
                  then blank s3
                  else false
              | EmptyString => false
              end
        | EmptyString => false
        end
  end.

(** [hasAnyContent()], for the state [structuredBasis] of the component. *)
Definition hasAnyContent (section : TextRecord.t)
    (structuredBasis : DiagnosticBasisStructured.t) : bool :=
  if decide (TextRecord.label section = DIAGNOSTIC_BASIS) then
    negb (blank (DiagnosticBasisStructured.general structuredBasis)
          && blank (DiagnosticBasisStructured.gross structuredBasis)
          && blank (DiagnosticBasisStructured.he structuredBasis)
          && blank (DiagnosticBasisStructured.ihc structuredBasis))
  else negb (blank (TextRecord.content section)).

(** Whether the section is shown as a required section that lacks its
    content: [isRequired && !hasAnyContent()]. *)
Definition flaggedEmpty (section : TextRecord.t)
    (structuredBasis : DiagnosticBasisStructured.t) : bool :=
  isRequired section && negb (hasAnyContent section structuredBasis).

(* ===================================================================== *)
(** * Notions used to state the properties *)
(* ===================================================================== *)

Local Open Scope list_scope.

(** The chunks that the loop of [processBatchSequentially] cuts, one for
    each index [0, CHUNK_SIZE, 2 * CHUNK_SIZE, ...] below the length. *)
Fixpoint chunked {A} (l : list A) : list (list A) :=
  match l with
  | [] => []
  | [a] => [[a]]
  | a :: b :: rest => [a; b] :: chunked rest
  end.

(** The loop, over the chunks that remain. *)
Fixpoint runChunks (E : Env.t) (i : nat) (chunks : list (list QueuedImage.t)) : M unit :=
  match chunks with
  | [] => ret tt
  | chunk :: rest => processChunk E i chunk ;;; runChunks E (i + CHUNK_SIZE) rest
  end.

(** The events of [w'] that are not yet in [w]. *)
Definition trace_since (w w' : World.t) : list Event :=
  drop (length (World.trace w)) (World.trace w').

Definition extractions (tr : list Event) : list (list QueuedImage.t) :=
  omap (fun e => match e with EvExtract chunk => Some chunk | _ => None end) tr.

Definition notifications (tr : list Event) : list Notification.t :=
  omap (fun e => match e with EvNotify n => Some n | _ => None end) tr.

Definition puts (storeName : StoreName) (tr : list Event) : list CaseRecord.t :=
  omap (fun e => match e with
                 | EvPut s d => if decide (s = storeName) then Some d else None
                 | _ => None
                 end) tr.

(** Whether building the draft of a response entry raises, for the user of
    the session. *)
Definition caseRaises (u : option User.t) (aiCase : option AiCase.t) : bool :=
  match aiCase, u with
  | Some _, Some _ => false
  | _, _ => true
  end.

(** Whether the iteration on [chunk] raises. *)
Definition chunkRaises (E : Env.t) (u : option User.t) (chunk : list QueuedImage.t) : bool :=
  match Env.extraction E chunk with
  | None => true
  | Some cases => existsb (caseRaises u) cases
  end.

(** The chunks on which an iteration is started: all up to and including
    the first that raises. *)
Fixpoint attempted (E : Env.t) (u : option User.t) (chunks : list (list QueuedImage.t))
    : list (list QueuedImage.t) :=
  match chunks with
  | [] => []
  | chunk :: rest =>
      if chunkRaises E u chunk then [chunk] else chunk :: attempted E u rest
  end.

(** An object store obeys its key path when every record is stored under
    the key found in it. *)
Definition store_ok (storeName : StoreName) (m : gmap string CaseRecord.t) : Prop :=
  forall k c, m !! k = Some c -> keyPath storeName c = Some k.

(** The rank of a history item in the order of the history view. *)
Definition newer_or_equal (a b : CaseRecord.t) : Prop := (getTime b <= getTime a)%Z.

(** A computation that only draws identifiers and instants takes [w] to a
    world that differs from it in the two counters. *)
Definition Advance (w w' : World.t) : Prop :=
  ∃ u t, World.uuids w ≤ u ∧ World.ticks w ≤ t ∧
         w' = World.set_ticks t (World.set_uuids u w).

(** [put] on the store of drafts. *)
Definition put_draft (m : gmap string CaseRecord.t) (d : CaseRecord.t) : gmap string CaseRecord.t :=
  match CaseRecord.id d with
  | Some k => <[k := d]> m
  | None => m
  end.

(** What a stretch of a batch run inside the loop does: it leaves the
    state outside the drafts alone, appends the events [tr], and persists
    drafts under identifiers drawn during the stretch. *)
Record Step (E : Env.t) (w : World.t) (tr : list Event) (w' : World.t) : Prop := mkStep {
  step_user : World.user w' = World.user w;
  step_notification : World.notification w' = World.notification w;
  step_isAIProcessing : World.isAIProcessing w' = World.isAIProcessing w;
  step_isMinimized : World.isMinimized w' = World.isMinimized w;
  step_globalHistory : World.globalHistory w' = World.globalHistory w;
  step_queuedImages : World.queuedImages w' = World.queuedImages w;
  step_selectedDraftIndex : World.selectedDraftIndex w' = World.selectedDraftIndex w;
  step_cases : World.cases w' = World.cases w;
  step_total : BatchProgress.total (World.batchProgress w')
               = BatchProgress.total (World.batchProgress w);
  step_trace : World.trace w' = World.trace w ++ tr;
  step_uuids : World.uuids w ≤ World.uuids w';
  step_notifications : notifications tr = [];
  step_puts_cases : puts STORE_CASES tr = [];
  step_drafts : World.drafts w' = foldl put_draft (World.drafts w) (puts STORE_DRAFTS tr);
  step_put_ids : ∃ ns, CaseRecord.id <$> puts STORE_DRAFTS tr = (λ n, Some (Env.uuid E n)) <$> ns ∧
                       StronglySorted lt ns ∧
                       Forall (λ n, World.uuids w ≤ n < World.uuids w') ns;
  step_draftCases : ∃ ds, World.draftCases w' = World.draftCases w ++ ds ∧
                          ds `sublist_of` puts STORE_DRAFTS tr }.

(** The state at the entry of the [try] block, and the effect of the
    [catch] / [finally] tail with the notification [n]. *)
Definition prelude (w : World.t) : World.t :=
  World.set_isMinimized false
    (World.set_isAIProcessing true
       (World.set_batchProgress
          (BatchProgress.mk 0 (ceil_div (length (selectedImages w)) CHUNK_SIZE)) w)).

Definition finish (n : Notification.t) (w : World.t) : World.t :=
  World.set_isAIProcessing false (World.emit (EvNotify n) (World.set_notification (Some n) w)).

(** The page of the chunk that a region designates: the one at the declared
    index, when the index lies within the chunk; the first one, when the
    region declares no index. *)
Definition declaredSource (chunk : list QueuedImage.t) (imgInfo : AiImage.t)
    : option QueuedImage.t :=
  match AiImage.originalImageIndex imgInfo with
  | Some i =>
      if decide (0 <= i < Z.of_nat (length chunk))%Z then chunk !! Z.to_nat i else None
  | None => chunk !! 0
  end.

(** The regions that give an image: those with a designated page and a box. *)
Definition keptRegion (chunk : list QueuedImage.t) (imgInfo : AiImage.t)
    : option (QueuedImage.t * Box.t * AiImage.t) :=
  match declaredSource chunk imgInfo, AiImage.box_2d imgInfo with
  | Some source, Some box => Some (source, box, imgInfo)
  | _, _ => None
  end.

(** [{ ...imgInfo, originalImageIndex: i }] *)
Definition with_originalImageIndex (i : option Z) (imgInfo : AiImage.t) : AiImage.t :=
  AiImage.mk (AiImage.box_2d imgInfo) (AiImage.type imgInfo) (AiImage.magnification imgInfo)
    (AiImage.description imgInfo) i.

(** The record built for a region that is kept. *)
Definition imageOf (E : Env.t) (kept : QueuedImage.t * Box.t * AiImage.t) (img : ImageRecord.t) : Prop :=
  let '(source, box, imgInfo) := kept in
  ImageRecord.fileName img = ("Auto_" ++ QueuedImage.name source)%string ∧
  (∃ croppedBase64,
     (∀ w, cropImageByCoordinates E (QueuedImage.data source) (QueuedImage.type source) box w
           = (Ok croppedBase64, w)) ∧
     ImageRecord.url img
     = ("data:" ++ QueuedImage.type source ++ ";base64," ++ croppedBase64)%string) ∧
  ImageRecord.type img
  = (if decide (AiImage.type imgInfo = Some ImageType.IHC)
     then ImageType.IHC else ImageType.HE) ∧
  ImageRecord.magnification img = or_else (AiImage.magnification imgInfo) Magnification.OTHER ∧
  ImageRecord.description img = or_else (AiImage.description imgInfo) "".

(** The record that [handleCaseSubmit] writes for the draft [cur]: stamped
    with the instant of the confirmation, without [id] and [status]. *)
Definition confirmedOf (E : Env.t) (w : World.t) (cur : CaseRecord.t) : CaseRecord.t :=
  CaseRecord.delete_status
    (CaseRecord.delete_id
       (CaseRecord.with_submittedAt (Some (Env.clock E (World.ticks w))) cur)).

(** The token that the scanner reads back for a character written by [quote_char]. *)
Definition tokenOf (c : ascii) : JSON.token :=
  if JSON.is_control c
     && negb (Ascii.eqb c "008" || Ascii.eqb c "012" || Ascii.eqb c "010"
              || Ascii.eqb c "013" || Ascii.eqb c "009")
  then JSON.Unit (N_of_ascii c) else JSON.Raw c.

(** The key and the value that the export gives to a text section. *)
Definition sectionKey (s : TextRecord.t) : string := TextLabel_value (TextRecord.label s).
Definition sectionValue (s : TextRecord.t) : SectionValue :=
  processContent (TextRecord.label s) (TextRecord.content s).

(** Both stores obey their key paths. *)
Definition db_ok (w : World.t) : Prop :=
  store_ok STORE_CASES (World.cases w) ∧ store_ok STORE_DRAFTS (World.drafts w).

(** ** Notions for the review of drafts *)

(** The drafts in memory are in step with the store: no two of them share
    an identifier, and each is the record stored under its identifier. *)
Definition listed_as_stored (w : World.t) : Prop :=
  NoDup (CaseRecord.id <$> World.draftCases w) ∧
  ∀ d, d ∈ World.draftCases w →
       ∃ k, CaseRecord.id d = Some k ∧ World.drafts w !! k = Some d.

(** The edits that the editor of the current case offers. *)
Inductive Edit :=
  | SetCategory (value : string)
  | UpdateText (id : string) (up : PartialTextRecord.t)
  | RemoveText (id : string)
  | UpdateImage (id : string) (up : PartialImageRecord.t)
  | RemoveImage (id : string).

Definition applyEdit (e : Edit) : M unit :=
  match e with
  | SetCategory value => organCategory_onChange value
  | UpdateText id up => TextEntry_onUpdate id up
  | RemoveText id => TextEntry_onRemove id
  | UpdateImage id up => ImageEntry_onUpdate id up
  | RemoveImage id => ImageEntry_onRemove id
  end.

(** Two case objects that differ at most in the category, the text
    sections and the images. *)
Definition same_case (a b : CaseRecord.t) : Prop :=
  CaseRecord.id a = CaseRecord.id b ∧
  CaseRecord.status a = CaseRecord.status b ∧
  CaseRecord.caseId a = CaseRecord.caseId b ∧
  CaseRecord.userId a = CaseRecord.userId b ∧
  CaseRecord.username a = CaseRecord.username b ∧
  CaseRecord.submittedAt a = CaseRecord.submittedAt b ∧
  CaseRecord.updatedAt a = CaseRecord.updatedAt b.

(** ** Notions for the page queue and the stores *)

(** The page that the import queues for the page of number [S k], when
    [u0] identifiers had been drawn before the import. *)
Definition importedPage (E : Env.t) (u0 k : nat) (data : string) : QueuedImage.t :=
  QueuedImage.mk (Env.uuid E (u0 + k)) data "image/jpeg" ("p" ++ pretty (S k))%string true.

(** The state after an import that ends with the notification [n], the
    queue [q] and [u] identifiers drawn. *)
Definition afterImport (n : Notification.t) (q : list QueuedImage.t) (u : nat)
    (w : World.t) : World.t :=
  World.mk (World.user w) (Some n) false (World.isMinimized w) (World.globalHistory w)
    (BatchProgress.mk 0 0) q (World.draftCases w) (World.selectedDraftIndex w)
    (World.cases w) (World.drafts w) u (World.ticks w) (World.trace w ++ [EvNotify n]).

(** The UTF-16 code units of a text given by its UTF-8 bytes (a byte that
    starts no well-formed sequence is kept as it is). *)
Fixpoint utf16_units (s : string) : list N :=
  match s with
  | EmptyString => []
  | String b s1 =>
      let n := N_of_ascii b in
      let single := n :: utf16_units s1 in
      if (n <? 192)%N then single
      else
        match s1 with
        | String b1 s2 =>
            let n1 := (N_of_ascii b1 - 128)%N in
            if (n <? 224)%N then ((n - 192) * 64 + n1)%N :: utf16_units s2
            else
              match s2 with
              | String b2 s3 =>
                  let n2 := (N_of_ascii b2 - 128)%N in
                  if (n <? 240)%N
                  then ((n - 224) * 4096 + n1 * 64 + n2)%N :: utf16_units s3
                  else
                    match s3 with
                    | String b3 s4 =>
                        let n3 := (N_of_ascii b3 - 128)%N in
                        let c := ((n - 240) * 262144 + n1 * 4096 + n2 * 64 + n3 - 65536)%N in
                        (55296 + c / 1024)%N :: (56320 + c mod 1024)%N :: utf16_units s4
                    | EmptyString => single
                    end
              | EmptyString => single
              end
        | EmptyString => single
        end
  end.

(** The order of two sequences of code units. *)
Fixpoint units_leb (a b : list N) : bool :=
  match a, b with
  | [], _ => true
  | _ :: _, [] => false
  | x :: a', y :: b' => if (x =? y)%N then units_leb a' b' else (x <? y)%N
  end.

(** Texts that between them have a character of every length in UTF-8,
    on both sides of the surrogates: U+0031, U+007A, U+00E9, U+07FF,
    U+0800, U+597D, U+D7FF, U+E000, U+FF11, U+FFFF, U+10000, U+20BB7 and
    U+10FFFF, given by their bytes. *)
Definition of_bytes (l : list N) : string :=
  foldr (λ n s, String (ascii_of_N n) s) EmptyString l.

Definition sample_keys : list string :=
  let characters :=
    of_bytes <$> [ [49]; [122]; [195; 169]; [223; 191]; [224; 160; 128]; [229; 165; 189];
                   [237; 159; 191]; [238; 128; 128]; [239; 188; 145]; [239; 191; 191];
                   [240; 144; 128; 128]; [240; 160; 174; 183]; [244; 143; 191; 191] ]%N in
  "" :: characters
  ++ ((λ c, "Case-" +:+ c +:+ "-1") <$> characters)
  ++ ((λ c, c +:+ c) <$> characters)
  ++ ((λ c, of_bytes [229; 165; 189]%N +:+ c) <$> characters).



(** What an edit makes of the current case. *)
Definition edited (e : Edit) (cur : CaseRecord.t) : CaseRecord.t :=
  match e with
  | SetCategory value => with_organCategory value cur
  | UpdateText id up =>
      with_textSections
        (map (λ x, if decide (TextRecord.id x = id) then PartialTextRecord.spread x up else x)
           (CaseRecord.textSections cur)) cur
  | RemoveText id =>
      with_textSections (filter (λ x, TextRecord.id x ≠ id) (CaseRecord.textSections cur)) cur
  | UpdateImage id up =>
      with_images
        (map (λ x, if decide (ImageRecord.id x = id) then PartialImageRecord.spread x up else x)
           (CaseRecord.images cur)) cur
  | RemoveImage id =>
      with_images (filter (λ x, ImageRecord.id x ≠ id) (CaseRecord.images cur)) cur
  end.


(** ** Notions for the drafts of a batch run *)

(** The draft that the orchestrator builds for the entry [aiCase] of the
    response on [chunk], in a session of the user [u]. *)
Definition draftOf (E : Env.t) (u : User.t) (chunk : list QueuedImage.t) (aiCase : AiCase.t)
    (d : CaseRecord.t) : Prop :=
  CaseRecord.status d = Some draft ∧
  (∃ k, CaseRecord.id d = Some k) ∧
  CaseRecord.caseId d
  = ("Case-" ++ or_else (AiCase.chapterNumber aiCase) "0"
       ++ "-" ++ or_else (AiCase.caseNumber aiCase) "0")%string ∧
  CaseRecord.userId d = User.id u ∧
  CaseRecord.username d = Some (User.username u) ∧
  CaseRecord.organCategory d = or_else (AiCase.organCategory aiCase) "" ∧
  Forall2 (λ s t, TextRecord.label t = AiSection.label s ∧
                  TextRecord.content t = AiSection.content s)
    (default [] (AiCase.textSections aiCase)) (CaseRecord.textSections d) ∧
  Forall2 (imageOf E)
    (omap (keptRegion chunk) (default [] (AiCase.detectedImages aiCase)))
    (CaseRecord.images d) ∧
  (∃ t, CaseRecord.submittedAt d = Some (Env.clock E t)) ∧
  CaseRecord.updatedAt d = None.

(** The entries of the responses on the chunks, in order, each with the
    chunk that it answers. *)
Definition answers (E : Env.t) (chunks : list (list QueuedImage.t))
    : list (list QueuedImage.t * option AiCase.t) :=
  concat (map (λ chunk, map (λ c, (chunk, c)) (default [] (Env.extraction E chunk))) chunks).

Definition answered (E : Env.t) (u : User.t) (a : list QueuedImage.t * option AiCase.t)
    (d : CaseRecord.t) : Prop :=
  ∃ aiCase, a.2 = Some aiCase ∧ draftOf E u a.1 aiCase d.

(** The identifiers that a draft holds: its own, those of its text
    sections and those of its images. *)
Definition draft_ids (d : CaseRecord.t) : list string :=
  match CaseRecord.id d with Some k => [k] | None => [] end
  ++ (TextRecord.id <$> CaseRecord.textSections d)
  ++ (ImageRecord.id <$> CaseRecord.images d).

(** ** Notions for the consistency of a session *)

(** What a user does in a session. *)
Inductive Action :=
  | Login
  | UploadImage (data type name : string)
  | ImportPdf (file : option (option PdfDocument.t))
  | TogglePage (id : string)
  | SelectAll (selected : bool)
  | ClearQueue
  | RunBatch
  | SelectDraft (i : nat)
  | OpenItem (item : CaseRecord.t)
  | Review (e : Edit)
  | Confirm
  | Delete (id : string)
  | Dismiss.

Definition perform (E : Env.t) (a : Action) : M unit :=
  match a with
  | Login => login E
  | UploadImage data type name => fileReader_onload E data type name
  | ImportPdf file => handlePDFUpload E file
  | TogglePage id => togglePageSelection id
  | SelectAll selected => setAllSelection selected
  | ClearQueue => modify (World.set_queuedImages [])
  | RunBatch => processBatchSequentially E
  | SelectDraft i => draftChip_onClick i
  | OpenItem item =>
      modify (λ w, Screen.world (historyItem_onClick item (Screen.mk w history)))
  | Review e => applyEdit e
  | Confirm => handleCaseSubmit E
  | Delete id => handleDraftDelete id
  | Dismiss => modify (World.set_notification None)
  end.

(** The state after a sequence of actions. *)
Definition session (E : Env.t) (actions : list Action) (w : World.t) : World.t :=
  foldl (λ w a, exec (perform E a) w) w actions.

(** [Session E w actions w']: the handlers of [actions], run one after
    another from [w], each up to its return, end in [w']. *)
Inductive Session (E : Env.t) : World.t → list Action → World.t → Prop :=
  | Session_nil w : Session E w [] w
  | Session_cons w a r w1 actions w' :
      perform E a w = (r, w1) →
      Session E w1 actions w' →
      Session E w (a :: actions) w'.

(** The generator will not return an identifier under which a draft is
    stored. *)
Definition fresh_ids (E : Env.t) (w : World.t) : Prop :=
  ∀ k n, is_Some (World.drafts w !! k) → World.uuids w ≤ n → k ≠ Env.uuid E n.

(** The database is well formed: the stores obey their key paths, a
    confirmed case has neither of the two members of a draft, and a stored
    draft is marked as a draft. *)
Definition stores_kept (E : Env.t) (w : World.t) : Prop :=
  db_ok w ∧
  (∀ k c, World.cases w !! k = Some c →
          CaseRecord.id c = None ∧ CaseRecord.status c = None) ∧
  (∀ k d, World.drafts w !! k = Some d → CaseRecord.status d = Some draft) ∧
  fresh_ids E w.

(** The state is consistent: the database is well formed, the drafts in
    memory are in step with the store, and every case of the history in
    memory is a stored case. *)
Definition well_kept (E : Env.t) (w : World.t) : Prop :=
  stores_kept E w ∧
  listed_as_stored w ∧
  (∀ c, c ∈ World.globalHistory w → ∃ k, World.cases w !! k = Some c).

(** The entries of a response that come before its first [null] entry. *)
Fixpoint entries_before_null (cases : list (option AiCase.t)) : list AiCase.t :=
  match cases with
  | Some aiCase :: rest => aiCase :: entries_before_null rest
  | _ => []
  end.

(* ===================================================================== *)
(** * A concrete session, used to exercise the statements *)
(* ===================================================================== *)

Module Sample.

Definition page (name : string) (selected : bool) : QueuedImage.t :=
  QueuedImage.mk name "QUFBQQ==" "image/jpeg" name selected.

Definition region : AiImage.t :=
  AiImage.mk (Some (Box.mk 100 50 600 450)) (Some ImageType.IHC) (Some Magnification.X40)
    (Some "Ki-67") (Some 1%Z).

(** A region that declares no source page. *)
Definition region_without_index : AiImage.t :=
  AiImage.mk (Some (Box.mk 100 50 600 450)) (Some ImageType.HE) (Some Magnification.X10)
    (Some "HE") None.

(** A region whose stain and magnification are outside the enumerations. *)
Definition region_off_enumeration : AiImage.t :=
  AiImage.mk (Some (Box.mk 100 50 600 450)) (Some "PAS") (Some "x1000") (Some "PAS") (Some 0%Z).

Definition aiCase : AiCase.t :=
  AiCase.mk (Some "3") (Some "12") (Some "breast")
    (Some [AiSection.mk PATIENT_DATA "F, 52"; AiSection.mk DIAGNOSIS "IDC"])
    (Some [region]).

(** The service answers with one case for a chunk of two pages, and the
    call fails for any other chunk. *)
Definition extraction (chunk : list QueuedImage.t) : option (list (option AiCase.t)) :=
  if decide (length chunk = 2) then Some [Some aiCase] else None.

Definition env : Env.t :=
  Env.mk pretty (fun n => (1700000000000 + Z.of_nat n)%Z) extraction
    (fun _ _ => (1000, 2000)%Z) (fun _ _ _ _ => "Q1JPUA==").


Definition user : User.t := User.mk "u-1" "Operator_01" None USER.

(** Four pages queued, three of them selected. *)
Definition world : World.t :=
  World.mk (Some user) None false false [] (BatchProgress.mk 0 0)
    [page "p1" true; page "p2" false; page "p3" true; page "p4" true]
    [] 0 ∅ ∅ 0 0 [].

(** Three pages, the first and the third selected. *)
Definition three_pages : World.t :=
  World.mk (Some user) None false false [] (BatchProgress.mk 0 0)
    [page "p1" true; page "p2" false; page "p3" true]
    [] 0 ∅ ∅ 0 0 [].

(** A draft under review, persisted and selected, while a case with the
    same [caseId] has been confirmed before. *)
Definition draft1 : CaseRecord.t :=
  CaseRecord.mk (Some "d-1") (Some draft) "Case-3-12" "u-1" (Some "Operator_01") "breast"
    [TextRecord.mk "t-1" DIAGNOSIS "IDC, grade 2"] [] (Some 1700000000500%Z) None.

Definition confirmed1 : CaseRecord.t :=
  CaseRecord.mk None None "Case-3-12" "u-1" (Some "Operator_01") "breast"
    [TextRecord.mk "t-0" DIAGNOSIS "IDC"] [] (Some 1700000000100%Z) None.

Definition reviewing : World.t :=
  World.mk (Some user) None false false [confirmed1] (BatchProgress.mk 0 0) []
    [draft1] 0 {[ "Case-3-12" := confirmed1 ]} {[ "d-1" := draft1 ]} 4 1 [].

(** A record with two sections labelled as the diagnosis. *)
Definition duplicated : CaseRecord.t :=
  CaseRecord.mk None None "Case-3-12" "u-1" (Some "Operator_01") "breast"
    [TextRecord.mk "t-1" DIAGNOSIS "IDC"; TextRecord.mk "t-2" PATIENT_DATA "F, 52";
     TextRecord.mk "t-3" DIAGNOSIS "IDC, grade 2"]
    [] (Some 1700000000100%Z) None.

End Sample.

(** A second session: two drafts under review, the second one selected,
    and two documents to import. *)
Module Desk.

Definition image1 : ImageRecord.t :=
  ImageRecord.mk "i-1" "data:image/jpeg;base64,Q1JPUA==" "Auto_p1" ImageType.HE
    Magnification.X40 "nests of atypical cells".

Definition image2 : ImageRecord.t :=
  ImageRecord.mk "i-2" "data:image/jpeg;base64,Q1JPUA==" "Auto_p2" ImageType.IHC
    Magnification.X100 "p40 positive".

Definition draft2 : CaseRecord.t :=
  CaseRecord.mk (Some "d-2") (Some draft) "Case-4-1" "u-1" (Some "Operator_01") "lung"
    [TextRecord.mk "t-4" DIAGNOSIS "SCC"; TextRecord.mk "t-5" DIAGNOSTIC_BASIS "keratin pearls"]
    [image1; image2] (Some 1700000000700%Z) None.

Definition world : World.t :=
  World.mk (Some Sample.user) None false false [Sample.confirmed1] (BatchProgress.mk 0 0) []
    [Sample.draft1; draft2] 1
    {[ "Case-3-12" := Sample.confirmed1 ]}
    (<[ "d-1" := Sample.draft1 ]> {[ "d-2" := draft2 ]}) 9 3 [].

(** A document of three pages, and one whose second page does not
    render. *)
Definition pdf : PdfDocument.t :=
  PdfDocument.mk 3 (fun i => Some ("cGFnZQ" ++ pretty i)%string).

Definition damaged_pdf : PdfDocument.t :=
  PdfDocument.mk 3 (fun i => if decide (i = 2) then None else Some ("cGFnZQ" ++ pretty i)%string).

(** A service whose response holds one case followed by a [null] entry. *)
Definition truncated : Env.t :=
  Env.mk pretty (fun n => (1700000000000 + Z.of_nat n)%Z)
    (fun _ => Some [Some Sample.aiCase; None])
    (fun _ _ => (1000, 2000)%Z) (fun _ _ _ _ => "Q1JPUA==").



End Desk.

(* ===================================================================== *)
(** * Properties of the batch orchestrator *)
(* ===================================================================== *)

(** ** Computations that only draw identifiers and instants *)


Lemma Advance_refl w : Advance w w.
Proof. exists (World.uuids w), (World.ticks w). by destruct w. Qed.

Lemma Advance_trans w1 w2 w3 : Advance w1 w2 → Advance w2 w3 → Advance w1 w3.
Proof.
  intros (u & t & Hu & Ht & ->) (u' & t' & Hu' & Ht' & ->). simpl in *.
  exists u', t'. repeat split; lia.
Qed.

Lemma Advance_uuids w w' : Advance w w' → World.uuids w ≤ World.uuids w'.
Proof. by intros (u & t & Hu & Ht & ->). Qed.

Lemma Advance_user w w' : Advance w w' → World.user w' = World.user w.
Proof. by intros (u & t & Hu & Ht & ->). Qed.

Section Chunking.
Context {A : Type}.
Implicit Types l : list A.

Lemma chunked_unfold l :
  l ≠ [] → chunked l = take CHUNK_SIZE l :: chunked (drop CHUNK_SIZE l).
Proof. destruct l as [|a [|b r]]; [done | reflexivity | reflexivity]. Qed.

Lemma chunked_ind (P : list A → Prop) :
  P [] → (∀ a, P [a]) → (∀ a b r, P r → P (a :: b :: r)) → ∀ l, P l.
Proof.
  intros Hnil Hone Hstep.
  fix IH 1. intros [|a [|b r]]; [exact Hnil | apply Hone | apply Hstep, IH].
Qed.

Lemma concat_chunked l : concat (chunked l) = l.
Proof. induction l as [|a|a b r IHl] using chunked_ind; simpl; [done | done | by rewrite IHl]. Qed.

Lemma chunked_sizes l : Forall (λ c, 0 < length c ≤ CHUNK_SIZE) (chunked l).
Proof.
  induction l as [|a|a b r IHl] using chunked_ind; simpl; repeat constructor; simpl; unfold CHUNK_SIZE; try lia.
  done.
Qed.

Lemma length_chunked l : length (chunked l) = (length l + 1) / 2.
Proof.
  induction l as [|a|a b r IHl] using chunked_ind; [done | done |].
  cbn [chunked length]. rewrite IHl.
  replace (S (S (length r)) + 1) with (length r + 1 + 1 * 2) by lia.
  rewrite Nat.div_add by lia. lia.
Qed.

Lemma chunked_lookup l k :
  chunked l !! k =
    if decide (k * CHUNK_SIZE < length l)
    then Some (slice l (k * CHUNK_SIZE) (k * CHUNK_SIZE + CHUNK_SIZE)) else None.
Proof.
  revert k. induction l as [|a|a b r IHl] using chunked_ind; intros k.
  - destruct (decide _) as [H|H]; [simpl in H; lia | by destruct k].
  - destruct k as [|k]; [reflexivity|].
    destruct (decide _) as [H|H]; [unfold CHUNK_SIZE in H; simpl in H; lia | by destruct k].
  - destruct k as [|k]; [reflexivity|].
    change (chunked (a :: b :: r) !! S k) with (chunked r !! k). rewrite IHl.
    unfold slice, CHUNK_SIZE. cbn [length].
    destruct (decide (k * 2 < length r)) as [H|H];
      destruct (decide (S k * 2 < S (S (length r)))) as [H'|H']; try lia; try done.
Qed.

End Chunking.

Lemma ceil_div_2 n : ceil_div n CHUNK_SIZE = (n + 1) / 2.
Proof.
  unfold ceil_div, Math_ceil, Qceiling, CHUNK_SIZE.
  assert (Hq : (- (inject_Z (Z.of_nat n) / inject_Z (Z.of_nat 2)) == inject_Z (- Z.of_nat n) / inject_Z 2)%Q).
  { rewrite inject_Z_opp. simpl. field. }
  rewrite (Qfloor_comp _ _ Hq), <- Zdiv_Qdiv.
  apply Nat2Z.inj. rewrite Nat2Z.inj_div, Z2Nat.id.
  - rewrite Nat2Z.inj_add. simpl (Z.of_nat 1). simpl (Z.of_nat 2).
    generalize (Z.of_nat n). intros z.
    pose proof (Z.div_mod (- z) 2 ltac:(lia)).
    pose proof (Z.mod_pos_bound (-z) 2 ltac:(lia)).
    pose proof (Z.div_mod (z + 1) 2 ltac:(lia)).
    pose proof (Z.mod_pos_bound (z + 1) 2 ltac:(lia)).
    lia.
  - pose proof (Z.div_mod (- Z.of_nat n) 2 ltac:(lia)).
    pose proof (Z.mod_pos_bound (- Z.of_nat n) 2 ltac:(lia)).
    lia.
Qed.

Lemma chunkLoop_eq E imgs i w :
  chunkLoop E imgs i w =
    if decide (i < length imgs)
    then bind (processChunk E i (slice imgs i (i + CHUNK_SIZE)))
              (fun _ w' => chunkLoop E imgs (i + CHUNK_SIZE) w') w
    else ret tt w.
Proof. rewrite chunkLoop_equation_1. by destruct (decide _). Qed.

Lemma bind_ext {A B} (m : M A) (k1 k2 : A → M B) w :
  (∀ a w', k1 a w' = k2 a w') → bind m k1 w = bind m k2 w.
Proof. intros Hk. unfold bind. destruct (m w) as [[a|] w']; [apply Hk | done]. Qed.

(** The loop visits the chunks of [chunked], in order. *)
Lemma chunkLoop_runChunks E imgs :
  ∀ n i w, length imgs - i ≤ n →
           chunkLoop E imgs i w = runChunks E i (chunked (drop i imgs)) w.
Proof.
  induction n as [n IH] using lt_wf_ind. intros i w Hn.
  rewrite chunkLoop_eq. destruct (decide (i < length imgs)) as [Hi|Hi].
  - rewrite chunked_unfold.
    2:{ intros Hnil. apply (f_equal length) in Hnil. rewrite length_drop in Hnil.
        simpl in Hnil. lia. }
    cbn [runChunks]. unfold slice. replace (i + CHUNK_SIZE - i) with CHUNK_SIZE by lia.
    rewrite drop_drop. apply bind_ext. intros _ w'.
    apply (IH (length imgs - (i + CHUNK_SIZE))); unfold CHUNK_SIZE; lia.
  - rewrite drop_ge by lia. reflexivity.
Qed.

Section Batch.
Variable E : Env.t.

Lemma uuidv4_run w :
  uuidv4 E w = (Ok (Env.uuid E (World.uuids w)), World.set_uuids (S (World.uuids w)) w).
Proof. reflexivity. Qed.

Lemma uuidv4_Advance w : Advance w (uuidv4 E w).2.
Proof.
  exists (S (World.uuids w)), (World.ticks w). simpl.
  by destruct w; simpl; repeat split; try lia.
Qed.

Lemma newDate_Advance w : Advance w (newDate E w).2.
Proof.
  exists (World.uuids w), (S (World.ticks w)). simpl.
  by destruct w; simpl; repeat split; try lia.
Qed.

Lemma cropImageByCoordinates_run base64 mimeType box w :
  ∃ cropped, cropImageByCoordinates E base64 mimeType box w = (Ok cropped, w).
Proof.
  unfold cropImageByCoordinates.
  destruct (Env.imageSize E mimeType base64) as [iw ih].
  destruct (cropGeometry iw ih box) as [c d]. by eexists.
Qed.

(** The outcome of [detectedImage], in closed form. *)
Lemma detectedImage_run chunk imgInfo w :
  detectedImage E chunk imgInfo w =
    match array_get chunk (default 0%Z (AiImage.originalImageIndex imgInfo)),
          AiImage.box_2d imgInfo with
    | Some source, Some box =>
        match outcome (cropImageByCoordinates E (QueuedImage.data source)
                         (QueuedImage.type source) box) w with
        | Ok croppedBase64 =>
            (Ok (Some (ImageRecord.mk
               (Env.uuid E (World.uuids w))
               ("data:" ++ QueuedImage.type source ++ ";base64," ++ croppedBase64)
               ("Auto_" ++ QueuedImage.name source)
               (if decide (AiImage.type imgInfo = Some ImageType.IHC)
                then ImageType.IHC else ImageType.HE)
               (or_else (AiImage.magnification imgInfo) Magnification.OTHER)
               (or_else (AiImage.description imgInfo) ""))),
             World.set_uuids (S (World.uuids w)) w)
        | Throw => (Throw, w)
        end
    | _, _ => (Ok None, w)
    end.
Proof.
  unfold detectedImage, outcome.
  destruct (array_get _ _) as [source|]; [|done].
  destruct (AiImage.box_2d imgInfo) as [box|]; [|done].
  destruct (cropImageByCoordinates_run (QueuedImage.data source) (QueuedImage.type source) box w)
    as [cropped Hc].
  unfold bind. rewrite Hc. reflexivity.
Qed.

Lemma detectedImage_total chunk imgInfo w :
  ∃ r w', detectedImage E chunk imgInfo w = (Ok r, w') ∧ Advance w w'.
Proof.
  rewrite detectedImage_run.
  destruct (array_get _ _) as [source|]; [|eauto using Advance_refl].
  destruct (AiImage.box_2d imgInfo) as [box|]; [|eauto using Advance_refl].
  destruct (cropImageByCoordinates_run (QueuedImage.data source) (QueuedImage.type source) box w)
    as [cropped Hc].
  unfold outcome. rewrite Hc. simpl. do 2 eexists. split; [done|]. apply uuidv4_Advance.
Qed.

Lemma textSection_total s w :
  ∃ r w', textSection E s w = (Ok r, w') ∧ Advance w w'.
Proof. do 2 eexists. split; [reflexivity|]. apply uuidv4_Advance. Qed.

Lemma promise_all_total {A B} (f : A → M B) xs :
  (∀ x w, ∃ r w', f x w = (Ok r, w') ∧ Advance w w') →
  ∀ w, ∃ ys w', promise_all f xs w = (Ok ys, w') ∧ Advance w w' ∧
                Forall2 (λ x y, ∃ w1 w2, f x w1 = (Ok y, w2)) xs ys.
Proof.
  intros Hf. induction xs as [|x xs IH]; intros w.
  - exists [], w. repeat split; [apply Advance_refl | constructor].
  - destruct (Hf x w) as (y & w1 & Hy & H1).
    destruct (IH w1) as (ys & w2 & Hys & H2 & Hall).
    exists (y :: ys), w2. simpl. unfold bind. rewrite Hy, Hys.
    repeat split; [by eapply Advance_trans | constructor; eauto].
Qed.


Lemma newDraft_None chunk w : newDraft E chunk None w = (Throw, w).
Proof. reflexivity. Qed.

(** [newDraft] on an entry, in closed form up to the worlds in between. *)
Lemma newDraft_Some chunk aiCase w :
  ∃ results w1,
    promise_all (detectedImage E chunk) (default [] (AiCase.detectedImages aiCase)) w
      = (Ok results, w1) ∧
    Advance w w1 ∧
    Forall2 (λ x y, ∃ wa wb, detectedImage E chunk x wa = (Ok y, wb))
      (default [] (AiCase.detectedImages aiCase)) results ∧
    match World.user w with
    | None =>
        newDraft E chunk (Some aiCase) w = (Throw, World.set_uuids (S (World.uuids w1)) w1)
    | Some user =>
        ∃ sections w2,
          Advance w1 w2 ∧
          newDraft E chunk (Some aiCase) w =
            (Ok (CaseRecord.mk (Some (Env.uuid E (World.uuids w1))) (Some draft)
                   ("Case-" ++ or_else (AiCase.chapterNumber aiCase) "0"
                      ++ "-" ++ or_else (AiCase.caseNumber aiCase) "0")
                   (User.id user) (Some (User.username user))
                   (or_else (AiCase.organCategory aiCase) "")
                   sections (omap (fun r => r) results)
                   (Some (Env.clock E (World.ticks w2))) None),
             World.set_ticks (S (World.ticks w2)) w2) ∧
          World.uuids w1 < World.uuids w2
    end.
Proof.
  destruct (promise_all_total (detectedImage E chunk)
              (default [] (AiCase.detectedImages aiCase))
              (detectedImage_total chunk) w) as (results & w1 & Hrun & Hadv & Hall).
  exists results, w1. split; [done|]. split; [done|]. split; [done|].
  assert (Hu : World.user w1 = World.user w) by by apply Advance_user.
  unfold newDraft, bind. rewrite Hrun. simpl.
  destruct (World.user w) as [user|] eqn:Huser; rewrite Hu; [|done].
  destruct (promise_all_total (textSection E) (default [] (AiCase.textSections aiCase))
              textSection_total (World.set_uuids (S (World.uuids w1)) w1))
    as (sections & w2 & Hsec & Hadv2 & _).
  exists sections, w2. unfold traverse. rewrite Hsec. simpl.
  split; [|split; [done|]].
  - eapply Advance_trans; [apply uuidv4_Advance | exact Hadv2].
  - apply Advance_uuids in Hadv2. simpl in Hadv2. lia.
Qed.

Lemma newDraft_spec chunk c w :
  Advance w (newDraft E chunk c w).2 ∧
  match (newDraft E chunk c w).1 with
  | Throw => caseRaises (World.user w) c = true
  | Ok d =>
      caseRaises (World.user w) c = false ∧
      CaseRecord.status d = Some draft ∧
      ∃ n, World.uuids w ≤ n < World.uuids (newDraft E chunk c w).2 ∧
           CaseRecord.id d = Some (Env.uuid E n)
  end.
Proof.
  destruct c as [aiCase|]; [|split; [apply Advance_refl | done]].
  destruct (newDraft_Some chunk aiCase w) as (results & w1 & _ & Hadv & _ & H).
  destruct (World.user w) as [user|] eqn:Huser.
  - destruct H as (sections & w2 & Hadv2 & -> & Hlt). simpl.
    split.
    + eapply Advance_trans; [exact Hadv|]. eapply Advance_trans; [exact Hadv2|].
      apply newDate_Advance.
    + split; [done|]. split; [done|]. exists (World.uuids w1).
      apply Advance_uuids in Hadv. split; [lia | done].
  - rewrite H. simpl. split; [|done].
    eapply Advance_trans; [exact Hadv | apply uuidv4_Advance].
Qed.




Lemma extractions_app tr1 tr2 : extractions (tr1 ++ tr2) = extractions tr1 ++ extractions tr2.
Proof. apply omap_app. Qed.
Lemma notifications_app tr1 tr2 :
  notifications (tr1 ++ tr2) = notifications tr1 ++ notifications tr2.
Proof. apply omap_app. Qed.
Lemma puts_app s tr1 tr2 : puts s (tr1 ++ tr2) = puts s tr1 ++ puts s tr2.
Proof. apply omap_app. Qed.

Lemma Step_refl w : Step E w [] w.
Proof.
  constructor; try done.
  - by rewrite app_nil_r.
  - exists []. repeat split; constructor.
  - exists []. by rewrite app_nil_r.
Qed.

Lemma Step_trans w1 tr1 w2 tr2 w3 :
  Step E w1 tr1 w2 → Step E w2 tr2 w3 → Step E w1 (tr1 ++ tr2) w3.
Proof.
  intros H1 H2. constructor.
  1-9: destruct H1, H2; congruence.
  - rewrite app_assoc, <- (step_trace _ _ _ _ H1). apply H2.
  - pose proof (step_uuids _ _ _ _ H1). pose proof (step_uuids _ _ _ _ H2). lia.
  - by rewrite notifications_app, (step_notifications _ _ _ _ H1), (step_notifications _ _ _ _ H2).
  - by rewrite puts_app, (step_puts_cases _ _ _ _ H1), (step_puts_cases _ _ _ _ H2).
  - by rewrite puts_app, foldl_app, <- (step_drafts _ _ _ _ H1), <- (step_drafts _ _ _ _ H2).
  - pose proof (step_uuids _ _ _ _ H1) as Hu1. pose proof (step_uuids _ _ _ _ H2) as Hu2.
    destruct (step_put_ids _ _ _ _ H1) as (ns1 & Hid1 & Hs1 & Hb1).
    destruct (step_put_ids _ _ _ _ H2) as (ns2 & Hid2 & Hs2 & Hb2).
    exists (ns1 ++ ns2). rewrite puts_app, !fmap_app, Hid1, Hid2. split; [done|]. split.
    + clear Hid1. induction Hs1 as [|n ns1 Hs1 IH Hn]; [done|]. simpl.
      apply Forall_cons in Hb1 as [Hb Hb1]. constructor.
      * by apply IH.
      * apply Forall_app. split; [done|].
        eapply Forall_impl; [exact Hb2|]. simpl. lia.
    + apply Forall_app. split; (eapply Forall_impl; [eassumption|]); simpl; lia.
  - destruct (step_draftCases _ _ _ _ H1) as (ds1 & Hd1 & Hsub1).
    destruct (step_draftCases _ _ _ _ H2) as (ds2 & Hd2 & Hsub2).
    exists (ds1 ++ ds2). rewrite Hd2, Hd1, app_assoc, puts_app. split; [done|].
    by apply sublist_app.
Qed.

(** A step that only draws identifiers and instants. *)
Lemma Advance_Step w w' : Advance w w' → Step E w [] w'.
Proof.
  intros (u & t & Hu & Ht & ->). constructor; simpl; try done; try by rewrite app_nil_r.
  - exists []. repeat split; constructor.
  - exists []. by rewrite app_nil_r.
Qed.

(** Building one draft and persisting it. *)
Lemma draft_Step chunk c w :
  match newDraft E chunk c w with
  | (Ok d, w1) =>
      caseRaises (World.user w) c = false ∧
      Step E w [EvPut STORE_DRAFTS d] (saveToDB STORE_DRAFTS d w1).2 ∧
      (saveToDB STORE_DRAFTS d w1).1 = Ok tt ∧
      World.draftCases (saveToDB STORE_DRAFTS d w1).2 = World.draftCases w
  | (Throw, w1) =>
      caseRaises (World.user w) c = true ∧ Step E w [] w1 ∧
      World.draftCases w1 = World.draftCases w
  end.
Proof.
  pose proof (newDraft_spec chunk c w) as [Hadv H].
  destruct (newDraft E chunk c w) as [[d|] w1]; simpl in *.
  - destruct H as (Hc & Hst & n & Hn & Hid). split; [done|].
    unfold saveToDB. simpl. rewrite Hid. simpl.
    destruct Hadv as (u & t & Hu & Ht & ->). simpl in *.
    split; [|done].
    constructor; simpl; try done.
    + unfold put_draft. by rewrite Hid.
    + exists [n]. rewrite Hid. repeat split; repeat constructor; lia.
    + exists []. rewrite app_nil_r. split; [done|]. apply sublist_nil_l.
  - split; [done|]. split; [by apply Advance_Step|].
    by destruct Hadv as (u & t & Hu & Ht & ->).
Qed.

Lemma processCases_spec chunk cases : ∀ chunkDrafts w,
  ∃ tr, Step E w tr (processCases E chunk cases chunkDrafts w).2 ∧
        extractions tr = [] ∧
        World.draftCases (processCases E chunk cases chunkDrafts w).2 = World.draftCases w ∧
        match (processCases E chunk cases chunkDrafts w).1 with
        | Ok ds => existsb (caseRaises (World.user w)) cases = false ∧
                   ds = chunkDrafts ++ puts STORE_DRAFTS tr
        | Throw => existsb (caseRaises (World.user w)) cases = true
        end.
Proof.
  induction cases as [|c cases IH]; intros chunkDrafts w.
  - exists []. simpl. split; [apply Step_refl|]. by rewrite app_nil_r.
  - pose proof (draft_Step chunk c w) as Hd. simpl. unfold bind.
    destruct (newDraft E chunk c w) as [[d|] w1].
    + destruct Hd as (Hc & Hstep & Hok & Hdc1).
      destruct (saveToDB STORE_DRAFTS d w1) as [r w2] eqn:Hsave. simpl in Hok, Hstep, Hdc1.
      subst r.
      destruct (IH (chunkDrafts ++ [d]) w2) as (tr & Hstep2 & Hex & Hdc & Hres).
      exists ([EvPut STORE_DRAFTS d] ++ tr).
      split; [by eapply Step_trans|]. split; [done|]. split; [congruence|].
      rewrite (step_user _ _ _ _ Hstep) in Hres. rewrite Hc. simpl.
      destruct (processCases E chunk cases (chunkDrafts ++ [d]) w2).1; [|done].
      destruct Hres as [-> ->]. split; [done|]. by rewrite <- app_assoc.
    + destruct Hd as (Hc & Hstep & Hdc1). exists []. simpl. rewrite Hc. done.
Qed.

Lemma processChunk_spec i chunk w :
  ∃ tr, Step E w tr (processChunk E i chunk w).2 ∧
        extractions tr = [chunk] ∧
        match (processChunk E i chunk w).1 with
        | Ok _ => chunkRaises E (World.user w) chunk = false
        | Throw => chunkRaises E (World.user w) chunk = true
        end.
Proof.
  unfold processChunk, bind, modify, generateContent, chunkRaises.
  set (w0 := World.set_batchProgress _ w).
  assert (H0 : Step E w [] w0).
  { constructor; try done.
    - simpl. by rewrite app_nil_r.
    - exists []. repeat split; constructor.
    - exists []. by rewrite app_nil_r. }
  set (w1 := World.emit (EvExtract chunk) w0).
  assert (H1 : Step E w0 [EvExtract chunk] w1).
  { constructor; try done.
    - exists []. repeat split; constructor.
    - exists []. by rewrite app_nil_r. }
  pose proof (Step_trans _ _ _ _ _ H0 H1) as H01. simpl in H01.
  destruct (Env.extraction E chunk) as [cases|]; [|by exists [EvExtract chunk]].
  destruct (processCases_spec chunk cases [] w1) as (tr & Hstep & Hex & Hdc & Hres).
  change (World.user w1) with (World.user w) in Hres.
  destruct (processCases E chunk cases [] w1) as [[ds|] w2]; simpl in *.
  - destruct Hres as [Hr ->].
    exists ([EvExtract chunk] ++ tr). split; [|by rewrite extractions_app, Hex].
    eapply Step_trans; [exact H01|].
    destruct Hstep. constructor; simpl; try done.
    exists (puts STORE_DRAFTS tr). by rewrite Hdc.
  - exists ([EvExtract chunk] ++ tr). split; [|by rewrite extractions_app, Hex].
    by eapply Step_trans.
Qed.

Lemma runChunks_spec chunks : ∀ i w,
  ∃ tr, Step E w tr (runChunks E i chunks w).2 ∧
        extractions tr = attempted E (World.user w) chunks ∧
        match (runChunks E i chunks w).1 with
        | Ok _ => existsb (chunkRaises E (World.user w)) chunks = false
        | Throw => existsb (chunkRaises E (World.user w)) chunks = true
        end.
Proof.
  induction chunks as [|chunk chunks IH]; intros i w.
  - exists []. split; [apply Step_refl | done].
  - destruct (processChunk_spec i chunk w) as (tr1 & Hs1 & He1 & Hr1).
    simpl. unfold bind.
    destruct (processChunk E i chunk w) as [[[]|] w1]; simpl in *.
    + destruct (IH (i + CHUNK_SIZE) w1) as (tr2 & Hs2 & He2 & Hr2).
      rewrite (step_user _ _ _ _ Hs1) in He2, Hr2.
      exists (tr1 ++ tr2). split; [by eapply Step_trans|].
      rewrite extractions_app, He1, He2, Hr1. done.
    + exists tr1. by rewrite Hr1.
Qed.




(** A run of the orchestrator on a non-empty selection. *)
Lemma processBatchSequentially_run w :
  selectedImages w ≠ [] →
  ∃ tr w2,
    Step E (prelude w) tr w2 ∧
    extractions tr = attempted E (World.user w) (chunked (selectedImages w)) ∧
    exec (processBatchSequentially E) w =
      if existsb (chunkRaises E (World.user w)) (chunked (selectedImages w))
      then finish batchFailure w2
      else finish batchSuccess (World.set_queuedImages [] w2).
Proof.
  intros Hsel. unfold exec, processBatchSequentially, bind, get.
  destruct (decide (length (selectedImages w) = 0)) as [H0|_].
  { by apply length_zero_iff_nil in H0. }
  unfold modify. fold (prelude w).
  unfold try_catch_finally, bind.
  rewrite (chunkLoop_runChunks E (selectedImages w) (length (selectedImages w)) 0) by lia.
  rewrite drop_0.
  destruct (runChunks_spec (chunked (selectedImages w)) 0 (prelude w)) as (tr & Hs & He & Hr).
  change (World.user (prelude w)) with (World.user w) in He, Hr.
  destruct (runChunks E 0 (chunked (selectedImages w)) (prelude w)) as [[[]|] w2]; simpl in *.
  - exists tr, w2. by rewrite Hr.
  - exists tr, w2. by rewrite Hr.
Qed.

Lemma trace_since_app w w' tr : World.trace w' = World.trace w ++ tr → trace_since w w' = tr.
Proof. intros H. unfold trace_since. by rewrite H, drop_app_length. Qed.

Lemma attempted_prefix u chunks : attempted E u chunks `prefix_of` chunks.
Proof.
  induction chunks as [|c chunks IH]; [done|]. simpl.
  destruct (chunkRaises E u c).
  - by exists chunks.
  - by apply (prefix_app [c]).
Qed.

Lemma attempted_all u chunks :
  existsb (chunkRaises E u) chunks = false → attempted E u chunks = chunks.
Proof.
  induction chunks as [|c chunks IH]; [done|]. simpl.
  destruct (chunkRaises E u c); [done|]. simpl. intros H. by rewrite IH.
Qed.

Lemma attempted_first u chunks k chunk :
  chunks !! k = Some chunk →
  chunkRaises E u chunk = true →
  (∀ j c, j < k → chunks !! j = Some c → chunkRaises E u c = false) →
  attempted E u chunks = take (S k) chunks ∧ existsb (chunkRaises E u) chunks = true.
Proof.
  revert k. induction chunks as [|c chunks IH]; intros k Hk Hr Hbefore; [done|].
  destruct k as [|k]; simpl in *.
  - inversion Hk; subst. rewrite Hr. by rewrite take_0.
  - rewrite (Hbefore 0 c) by (done || lia). simpl.
    destruct (IH k Hk Hr) as [-> ->]; [|done].
    intros j c' Hj Hc'. apply (Hbefore (S j) c'); [lia | done].
Qed.

Lemma foldl_put_draft_other key ds : ∀ m,
  Some key ∉ CaseRecord.id <$> ds → foldl put_draft m ds !! key = m !! key.
Proof.
  induction ds as [|d ds IH]; intros m Hnot; [done|]. simpl in *.
  apply not_elem_of_cons in Hnot as [Hne Hnot].
  rewrite IH by done. unfold put_draft.
  destruct (CaseRecord.id d) as [k|] eqn:Hk; [|done].
  apply lookup_insert_ne. congruence.
Qed.

Lemma foldl_put_draft_lookup ds : ∀ m d key,
  NoDup (CaseRecord.id <$> ds) → d ∈ ds → CaseRecord.id d = Some key →
  foldl put_draft m ds !! key = Some d.
Proof.
  induction ds as [|d0 ds IH]; intros m d key Hnd Hin Hid; [by apply elem_of_nil in Hin|].
  simpl in *. apply NoDup_cons in Hnd as [Hnot Hnd].
  apply elem_of_cons in Hin as [->|Hin]; [|by apply IH].
  rewrite foldl_put_draft_other by (by rewrite <- Hid).
  unfold put_draft. rewrite Hid. apply lookup_insert_eq.
Qed.

Lemma Step_puts_kept w tr w' :
  Inj (=) (=) (Env.uuid E) →
  Step E w tr w' →
  ∀ d, d ∈ puts STORE_DRAFTS tr →
       ∃ key, CaseRecord.id d = Some key ∧ World.drafts w' !! key = Some d.
Proof.
  intros Hinj Hs d Hd.
  destruct (step_put_ids _ _ _ _ Hs) as (ns & Hids & Hsorted & _).
  assert (Hnd : NoDup (CaseRecord.id <$> puts STORE_DRAFTS tr)).
  { rewrite Hids. apply (NoDup_fmap_2 _).
    clear -Hsorted. induction Hsorted as [|n ns _ IH Hn]; constructor; [|done].
    intros Hin. rewrite Forall_forall in Hn. specialize (Hn _ Hin). lia. }
  assert (Hsome : ∃ key, CaseRecord.id d = Some key).
  { assert (Hin : CaseRecord.id d ∈ CaseRecord.id <$> puts STORE_DRAFTS tr)
      by by apply list_elem_of_fmap_2.
    rewrite Hids in Hin. apply list_elem_of_fmap in Hin as (n & -> & _). eauto. }
  destruct Hsome as [key Hkey]. exists key. split; [done|].
  rewrite (step_drafts _ _ _ _ Hs). by apply foldl_put_draft_lookup.
Qed.

End Batch.

(** C1.  A selection of N > 0 pages is cut into ceil(N/2) chunks of at most
    two pages, the slices at the successive loop indices; in order they
    make up the selection again.  The orchestrator announces that many
    chunks, sends the chunks to the extraction service in this order, and
    sends all of them when no iteration raises. *)
Theorem C1_chunking (E : Env.t) (w : World.t) :
  let sel := selectedImages w in
  let w' := exec (processBatchSequentially E) w in
  0 < length sel →
  ∃ chunks : list (list QueuedImage.t),
    (∀ k, chunks !! k =
            if decide (k * CHUNK_SIZE < length sel)
            then Some (slice sel (k * CHUNK_SIZE) (k * CHUNK_SIZE + CHUNK_SIZE))
            else None) ∧
    length chunks = ceil_div (length sel) CHUNK_SIZE ∧
    BatchProgress.total (World.batchProgress w') = length chunks ∧
    Forall (λ c, 0 < length c ≤ CHUNK_SIZE) chunks ∧
    concat chunks = sel ∧
    extractions (trace_since w w') `prefix_of` chunks ∧
    (existsb (chunkRaises E (World.user w)) chunks = false →
     extractions (trace_since w w') = chunks).
Proof.
  intros sel w' HN. exists (chunked sel).
  assert (Hsel : sel ≠ []) by (intros H; rewrite H in HN; simpl in HN; lia).
  destruct (processBatchSequentially_run E w Hsel) as (tr & w2 & Hs & He & Hrun).
  fold sel in He, Hrun. fold w' in Hrun.
  assert (Htr : ∃ n, World.trace w' = World.trace w ++ tr ++ [EvNotify n]).
  { destruct (existsb _ _); rewrite Hrun; simpl;
      rewrite (step_trace _ _ _ _ Hs); simpl; rewrite <- app_assoc; eauto. }
  destruct Htr as [n Htr].
  assert (Hex : extractions (trace_since w w') = attempted E (World.user w) (chunked sel)).
  { rewrite (trace_since_app w w' _ Htr), extractions_app, He. simpl. apply app_nil_r. }
  split; [apply chunked_lookup|].
  split; [by rewrite length_chunked, ceil_div_2|].
  split.
  { rewrite length_chunked, <- ceil_div_2.
    destruct (existsb _ _); rewrite Hrun; simpl; by rewrite (step_total _ _ _ _ Hs). }
  split; [apply chunked_sizes|]. split; [apply concat_chunked|].
  rewrite Hex. split; [apply attempted_prefix | apply attempted_all].
Qed.

(** C4.  When the iteration on chunk [k] is the first that raises, the
    extraction service has been called on the chunks up to [k] and on no
    later one; the run surfaces the failure notification and no other; the
    page queue is as before; the store of drafts is the one before the run
    with the drafts persisted during the run put into it, and, identifiers
    being distinct, each of them is still there as it was persisted. *)
Theorem C4_abort_keeps_drafts (E : Env.t) (w : World.t) (k : nat)
    (chunk : list QueuedImage.t) :
  let sel := selectedImages w in
  let w' := exec (processBatchSequentially E) w in
  let tr := trace_since w w' in
  Inj (=) (=) (Env.uuid E) →
  chunked sel !! k = Some chunk →
  chunkRaises E (World.user w) chunk = true →
  (∀ j c, j < k → chunked sel !! j = Some c → chunkRaises E (World.user w) c = false) →
  extractions tr = take (S k) (chunked sel) ∧
  notifications tr = [batchFailure] ∧
  World.notification w' = Some batchFailure ∧
  World.queuedImages w' = World.queuedImages w ∧
  World.drafts w' = foldl put_draft (World.drafts w) (puts STORE_DRAFTS tr) ∧
  (∀ d, d ∈ puts STORE_DRAFTS tr →
        ∃ key, CaseRecord.id d = Some key ∧ World.drafts w' !! key = Some d) ∧
  (∃ ds, World.draftCases w' = World.draftCases w ++ ds ∧
         ds `sublist_of` puts STORE_DRAFTS tr).
Proof.
  intros sel w' tr Hinj Hk Hraise Hbefore.
  assert (Hsel : sel ≠ []) by (intros H; by rewrite H in Hk).
  destruct (processBatchSequentially_run E w Hsel) as (tr2 & w2 & Hs & He & Hrun).
  fold sel in He, Hrun. fold w' in Hrun.
  destruct (attempted_first E (World.user w) (chunked sel) k chunk Hk Hraise Hbefore)
    as [Hatt Hex].
  rewrite Hex in Hrun.
  assert (Htr : tr = tr2 ++ [EvNotify batchFailure]).
  { apply trace_since_app. rewrite Hrun. simpl.
    rewrite (step_trace _ _ _ _ Hs). simpl. by rewrite <- app_assoc. }
  assert (Hputs : puts STORE_DRAFTS tr = puts STORE_DRAFTS tr2).
  { rewrite Htr, puts_app. simpl. apply app_nil_r. }
  rewrite Hputs.
  split. { rewrite Htr, extractions_app, He, Hatt. simpl. apply app_nil_r. }
  split. { by rewrite Htr, notifications_app, (step_notifications _ _ _ _ Hs). }
  split. { by rewrite Hrun. }
  split. { rewrite Hrun. simpl. by rewrite (step_queuedImages _ _ _ _ Hs). }
  split. { rewrite Hrun. simpl. by rewrite (step_drafts _ _ _ _ Hs). }
  split.
  { intros d Hd. destruct (Step_puts_kept E _ _ _ Hinj Hs d Hd) as (key & Hid & Hl).
    exists key. split; [done|]. by rewrite Hrun. }
  destruct (step_draftCases _ _ _ _ Hs) as (ds & Hds & Hsub).
  exists ds. split; [|done]. by rewrite Hrun.
Qed.

Lemma C1_chunking_witness :
  0 < length (selectedImages Sample.world) ∧
  ∃ chunks : list (list QueuedImage.t),
    length chunks = 2 ∧
    concat chunks = selectedImages Sample.world ∧
    extractions (trace_since Sample.world
                   (exec (processBatchSequentially Sample.env) Sample.world))
      `prefix_of` chunks.
Proof.
  split; [vm_compute; lia|].
  destruct (C1_chunking Sample.env Sample.world ltac:(vm_compute; lia))
    as (chunks & _ & Hlen & _ & _ & Hcat & Hpre & _).
  exists chunks. split; [exact Hlen | split; [exact Hcat | exact Hpre]].
Defined.

Lemma C4_abort_keeps_drafts_witness :
  let w := Sample.world in
  let w' := exec (processBatchSequentially Sample.env) w in
  chunked (selectedImages w) !! 1 = Some [Sample.page "p4" true] ∧
  chunkRaises Sample.env (World.user w) [Sample.page "p4" true] = true ∧
  extractions (trace_since w w') = take 2 (chunked (selectedImages w)) ∧
  notifications (trace_since w w') = [batchFailure] ∧
  World.queuedImages w' = World.queuedImages w ∧
  (∀ d, d ∈ puts STORE_DRAFTS (trace_since w w') →
        ∃ key, CaseRecord.id d = Some key ∧ World.drafts w' !! key = Some d).
Proof.
  intros w w'.
  assert (Hk : chunked (selectedImages w) !! 1 = Some [Sample.page "p4" true])
    by reflexivity.
  assert (Hr : chunkRaises Sample.env (World.user w) [Sample.page "p4" true] = true)
    by reflexivity.
  assert (Hb : ∀ j c, j < 1 → chunked (selectedImages w) !! j = Some c →
                      chunkRaises Sample.env (World.user w) c = false).
  { intros j c Hj. destruct j as [|j]; [|lia]. intros [= <-]. reflexivity. }
  destruct (C4_abort_keeps_drafts Sample.env w 1 [Sample.page "p4" true]
              pretty_nat_inj Hk Hr Hb) as (He & Hn & _ & Hq & _ & Hd & _).
  split; [exact Hk|]. split; [exact Hr|]. split; [exact He|]. split; [exact Hn|].
  split; [exact Hq | exact Hd].
Defined.

(** The scenario of three pages with the first and the third selected: one
    chunk of the two pages, one draft with two text sections and one image,
    persisted and listed; the queue is cleared and the run succeeds. *)
Lemma scenario_two_of_three_pages :
  let w' := exec (processBatchSequentially Sample.env) Sample.three_pages in
  extractions (World.trace w') = [[Sample.page "p1" true; Sample.page "p3" true]] ∧
  (length <$> (CaseRecord.textSections <$> World.draftCases w')) = [2] ∧
  (length <$> (CaseRecord.images <$> World.draftCases w')) = [1] ∧
  (ImageRecord.fileName <$> concat (CaseRecord.images <$> World.draftCases w'))
  = ["Auto_p3"%string] ∧
  puts STORE_DRAFTS (World.trace w') = World.draftCases w' ∧
  World.queuedImages w' = [] ∧
  World.notification w' = Some batchSuccess ∧
  World.batchProgress w' = BatchProgress.mk 1 1.
Proof. vm_compute. repeat split; reflexivity. Qed.
(* ===================================================================== *)
(** * Properties of the cropper *)
(* ===================================================================== *)

(** ** The rounding of the numbers *)

Section NumberFacts.
Local Open Scope Q_scope.

Lemma two_power_pos (e : Z) : 0 < 2 ^ e.
Proof. apply Qpower_0_lt. lra. Qed.

Lemma two_power_succ (e : Z) : 2 ^ (e + 1) == 2 * 2 ^ e.
Proof. rewrite Qpower_plus by lra. change (2 ^ 1) with (2 * 1). ring. Qed.

Lemma two_power_Z (n : Z) : (0 <= n)%Z → inject_Z (2 ^ n) == 2 ^ n.
Proof. intros Hn. by rewrite Zpower_Qpower. Qed.

Lemma Qabs_nonneg (q : Q) : 0 <= q → Qabs q = q.
Proof.
  destruct q as [n d]. unfold Qle, Qabs. simpl. intros Hn.
  f_equal. apply Z.abs_eq. lia.
Qed.

(** [Number.log2 q] is the integer part of the binary logarithm. *)
Lemma log2_spec (q : Q) :
  0 < q → 2 ^ Number.log2 q <= q ∧ q < 2 ^ (Number.log2 q + 1).
Proof.
  intros Hq. unfold Number.log2.
  destruct q as [n d]. assert (Hn : (0 < n)%Z) by (unfold Qlt in Hq; simpl in Hq; lia).
  cbn [Qnum Qden].
  set (a := Z.log2 n). set (b := Z.log2 (Z.pos d)).
  assert (Ha0 : (0 <= a)%Z) by apply Z.log2_nonneg.
  assert (Hb0 : (0 <= b)%Z) by apply Z.log2_nonneg.
  destruct (Z.log2_spec n Hn) as [Ha1 Ha2]. fold a in Ha1, Ha2.
  destruct (Z.log2_spec (Z.pos d) ltac:(lia)) as [Hb1 Hb2]. fold b in Hb1, Hb2.
  assert (HA1 : 2 ^ a <= inject_Z n).
  { rewrite <- two_power_Z by done. by rewrite <- Zle_Qle. }
  assert (HA2 : inject_Z n < 2 * 2 ^ a).
  { rewrite <- two_power_succ, <- two_power_Z by lia. rewrite <- Zlt_Qlt.
    by rewrite <- Z.add_1_r in Ha2. }
  assert (HB1 : 2 ^ b <= inject_Z (Z.pos d)).
  { rewrite <- two_power_Z by done. by rewrite <- Zle_Qle. }
  assert (HB2 : inject_Z (Z.pos d) < 2 * 2 ^ b).
  { rewrite <- two_power_succ, <- two_power_Z by lia. rewrite <- Zlt_Qlt.
    by rewrite <- Z.add_1_r in Hb2. }
  pose proof (two_power_pos a) as HA. pose proof (two_power_pos b) as HB.
  assert (Hq' : n # d == inject_Z n / inject_Z (Z.pos d)) by apply Qmake_Qdiv.
  assert (Hk : 2 ^ (a - b) == 2 ^ a / 2 ^ b) by (apply Qpower_minus; lra).
  assert (HD : 0 < inject_Z (Z.pos d)) by lra.
  destruct (Qle_bool (2 ^ (a - b)) (n # d)) eqn:Htest.
  - apply Qle_bool_iff in Htest. split; [done|].
    rewrite two_power_succ, Hk, Hq'.
    apply Qlt_shift_div_r; [done|].
    assert (H : 2 * (2 ^ a / 2 ^ b) * inject_Z (Z.pos d)
                == (2 * 2 ^ a) * (inject_Z (Z.pos d) / 2 ^ b)) by (field; lra).
    rewrite H.
    assert (H1 : 1 <= inject_Z (Z.pos d) / 2 ^ b) by (apply Qle_shift_div_l; lra).
    nra.
  - assert (Hlt : n # d < 2 ^ (a - b)).
    { apply Qnot_le_lt. intros H. apply Qle_bool_iff in H. congruence. }
    replace (a - b - 1 + 1)%Z with (a - b)%Z by lia. split; [|done].
    assert (Hk' : 2 ^ (a - b - 1) == 2 ^ a / (2 * 2 ^ b)).
    { replace (a - b - 1)%Z with (a - (b + 1))%Z by lia.
      rewrite Qpower_minus by lra. by rewrite two_power_succ. }
    rewrite Hk', Hq'.
    apply Qle_shift_div_l; [done|].
    assert (H : 2 ^ a / (2 * 2 ^ b) * inject_Z (Z.pos d)
                == 2 ^ a * (inject_Z (Z.pos d) / (2 * 2 ^ b))) by (field; lra).
    rewrite H.
    assert (H1 : inject_Z (Z.pos d) / (2 * 2 ^ b) <= 1) by (apply Qle_shift_div_r; lra).
    nra.
Qed.

(** The nearest integer is at most one half away, and it does not pass
    an integer. *)
Lemma round_half_even_near (x : Q) :
  - (1 # 2) <= inject_Z (Number.round_half_even x) - x <= 1 # 2.
Proof.
  unfold Number.round_half_even.
  pose proof (Qfloor_le x) as Hl. pose proof (Qlt_floor x) as Hu.
  rewrite inject_Z_plus in Hu. change (inject_Z 1) with 1 in Hu.
  destruct (x - inject_Z (Qfloor x) ?= 1 # 2) eqn:Hc.
  - apply Qeq_alt in Hc. destruct (Z.even (Qfloor x));
      rewrite ?inject_Z_plus; change (inject_Z 1) with 1; lra.
  - apply Qlt_alt in Hc. lra.
  - apply Qgt_alt in Hc. rewrite inject_Z_plus. change (inject_Z 1) with 1. lra.
Qed.

Lemma round_half_even_le (x : Q) (n : Z) :
  x <= inject_Z n → (Number.round_half_even x <= n)%Z.
Proof.
  intros Hx. pose proof (round_half_even_near x) as [_ H].
  apply Z.lt_succ_r. rewrite Zlt_Qlt. unfold Z.succ.
  rewrite inject_Z_plus. change (inject_Z 1) with 1. lra.
Qed.

Lemma round_half_even_ge (x : Q) (n : Z) :
  inject_Z n <= x → (n <= Number.round_half_even x)%Z.
Proof.
  intros Hx. pose proof (round_half_even_near x) as [H _].
  apply Z.lt_pred_le. rewrite Zlt_Qlt. unfold Z.pred.
  rewrite inject_Z_plus. change (inject_Z (-1)) with (-1). lra.
Qed.

Lemma round_half_even_mono (x y : Q) :
  x <= y → (Number.round_half_even x <= Number.round_half_even y)%Z.
Proof.
  intros Hxy. pose proof (Qfloor_resp_le x y Hxy) as Hf.
  unfold Number.round_half_even.
  pose proof (Qfloor_le x) as Hlx. pose proof (Qfloor_le y) as Hly.
  destruct (Z.eq_dec (Qfloor x) (Qfloor y)) as [Heq|Hne].
  - rewrite <- Heq in *. set (f := Qfloor x) in *.
    destruct (x - inject_Z f ?= 1 # 2) eqn:Hcx;
      [apply Qeq_alt in Hcx | apply Qlt_alt in Hcx | apply Qgt_alt in Hcx];
      (destruct (y - inject_Z f ?= 1 # 2) eqn:Hcy;
       [apply Qeq_alt in Hcy | apply Qlt_alt in Hcy | apply Qgt_alt in Hcy]);
      try (exfalso; lra); destruct (Z.even f); lia.
  - assert (H1 : ∀ z, (Qfloor z <= Number.round_half_even z <= Qfloor z + 1)%Z).
    { intros z. unfold Number.round_half_even.
      destruct (z - inject_Z (Qfloor z) ?= 1 # 2); [destruct (Z.even _)| |]; lia. }
    pose proof (H1 x) as Hx. pose proof (H1 y) as Hy.
    unfold Number.round_half_even in Hx, Hy. lia.
Qed.

(** [Number.round] against the specification of IEEE 754 in the Standard
    Library: the width that the cropper computes is the one that the
    operations [SFsub], [SFdiv] and [SFmul] of binary64 give, for every
    extent from [lo] to [hi] with [hi] any whole number up to 1000, for
    these origins and these sides. *)
Lemma round_checked (lo hi side : Z) :
  lo ∈ [0; 83; 500]%Z →
  hi ∈ Z.of_nat <$> seq 0 1001 →
  side ∈ [1; 3; 100; 1240; 2147483647]%Z →
  Number.of_spec_float
    (SFmul 53 1024
       (SFdiv 53 1024
          (SFsub 53 1024 (Number.binary64_of_Z hi) (Number.binary64_of_Z lo))
          (Number.binary64_of_Z 1000))
       (Number.binary64_of_Z side))
  = Number.mul
      (Number.div1000 (Number.sub (Number.round (inject_Z hi)) (Number.round (inject_Z lo))))
      (Number.Finite (inject_Z side)).
Proof.
  intros Hlo Hhi Hside.
  assert (Hall : forallb (λ l, forallb (λ h, forallb (λ s,
            bool_decide
              (Number.of_spec_float
                 (SFmul 53 1024
                    (SFdiv 53 1024
                       (SFsub 53 1024 (Number.binary64_of_Z h) (Number.binary64_of_Z l))
                       (Number.binary64_of_Z 1000))
                    (Number.binary64_of_Z s))
               = Number.mul
                   (Number.div1000
                      (Number.sub (Number.round (inject_Z h)) (Number.round (inject_Z l))))
                   (Number.Finite (inject_Z s))))
            [1; 3; 100; 1240; 2147483647]%Z)
            (Z.of_nat <$> seq 0 1001))
            [0; 83; 500]%Z = true)
    by (vm_compute; reflexivity).
  rewrite forallb_forall in Hall. apply list_elem_of_In in Hlo. specialize (Hall _ Hlo).
  rewrite forallb_forall in Hall. apply list_elem_of_In in Hhi. specialize (Hall _ Hhi).
  rewrite forallb_forall in Hall. apply list_elem_of_In in Hside. specialize (Hall _ Hside).
  by apply bool_decide_eq_true in Hall.
Qed.

(** The nearest number to a positive rational below 2^53: its
    significand and its exponent. *)
Lemma nearest_pos (q : Q) (N : Z) :
  0 < q → q <= inject_Z N → (N < 2 ^ 53)%Z →
  let k := Number.log2 q in
  let e := Z.max (k - 52) (-1074) in
  let m := Number.round_half_even (q / 2 ^ e) in
  Number.nearest q = Number.Finite (Qred (inject_Z m * 2 ^ e)) ∧
  2 ^ k <= q ∧ q < 2 ^ (k + 1) ∧ (k <= 52)%Z ∧
  0 <= inject_Z m ∧ inject_Z m * 2 ^ e <= inject_Z N.
Proof.
  intros Hq HqN HN k e m.
  destruct (log2_spec q Hq) as [Hk1 Hk2]. fold k in Hk1, Hk2.
  assert (HN53 : inject_Z N < 2 ^ 53).
  { rewrite <- two_power_Z by lia. by rewrite <- Zlt_Qlt. }
  assert (Hk : (k <= 52)%Z).
  { assert (H : (k < 53)%Z); [|lia].
    apply (Qpower_lt_compat_l_inv 2); lra. }
  assert (He : (e <= 0)%Z) by (unfold e; lia).
  pose proof (two_power_pos e) as HE.
  assert (Hx0 : 0 <= q / 2 ^ e) by (apply Qle_shift_div_l; lra).
  assert (Hm0 : 0 <= inject_Z m).
  { rewrite <- (Zle_Qle 0). apply round_half_even_ge. exact Hx0. }
  assert (HmN : inject_Z m * 2 ^ e <= inject_Z N).
  { assert (HP : inject_Z (2 ^ (- e)) == / 2 ^ e).
    { rewrite two_power_Z by lia. apply Qpower_opp. }
    assert (Hm : (m <= N * 2 ^ (- e))%Z).
    { apply round_half_even_le. rewrite inject_Z_mult, HP.
      unfold Qdiv. apply Qmult_le_compat_r; [done|].
      apply Qinv_le_0_compat. lra. }
    rewrite Zle_Qle, inject_Z_mult, HP in Hm.
    apply (Qmult_le_compat_r _ _ (2 ^ e)) in Hm; [|lra].
    assert (H : inject_Z N * / 2 ^ e * 2 ^ e == inject_Z N) by (field; lra).
    by rewrite H in Hm. }
  split; [|done].
  unfold Number.nearest.
  assert (Hz : Qeq_bool q 0 = false).
  { destruct (Qeq_bool q 0) eqn:Hz; [|done]. apply Qeq_bool_iff in Hz. lra. }
  rewrite Hz. unfold Number.exponent. rewrite (Qabs_nonneg q) by lra.
  fold k. fold e. fold m.
  set (r := Qred (inject_Z m * 2 ^ e)).
  assert (Hr : r == inject_Z m * 2 ^ e) by apply Qred_correct.
  assert (Hbig : 2 ^ 53 <= 2 ^ 1024) by (apply Qpower_le_compat_l; [lia | lra]).
  pose proof (two_power_pos 1024) as Hpos.
  destruct (Qle_bool (2 ^ 1024) r) eqn:Hover.
  { apply Qle_bool_iff in Hover. lra. }
  destruct (Qle_bool r (- 2 ^ 1024)) eqn:Hunder.
  { apply Qle_bool_iff in Hunder. nra. }
  done.
Qed.

(** The nearest number to a rational between 0 and an integer below 2^53:
    it is finite, it stays between 0 and the integer, and it is away from
    the rational by at most the relative error 2^-53, or by half of the
    least subnormal number (bounded here by 2^-80). *)
Lemma nearest_bounded (q : Q) (N : Z) :
  0 <= q → q <= inject_Z N → (N < 2 ^ 53)%Z →
  ∃ r, Number.nearest q = Number.Finite r ∧ 0 <= r ∧ r <= inject_Z N ∧
       - (q * (1 # 9007199254740992) + (1 # 1208925819614629174706176)) <= r - q ∧
       r - q <= q * (1 # 9007199254740992) + (1 # 1208925819614629174706176) ∧
       (q == 0 → r = 0).
Proof.
  intros Hq0 HqN HN.
  destruct (Qeq_bool q 0) eqn:Hz.
  { unfold Number.nearest. rewrite Hz.
    apply Qeq_bool_iff in Hz. exists 0. split; [done|].
    split; [lra|]. split; [lra|]. split; [lra|]. split; [lra|done]. }
  apply Qeq_bool_neq in Hz.
  assert (Hq : 0 < q) by (apply Qle_lteq in Hq0 as [H|H]; [done|]; by destruct Hz).
  destruct (nearest_pos q N Hq HqN HN) as (Hn & Hk1 & _ & Hk & Hm0 & HmN).
  set (k := Number.log2 q) in *. set (e := Z.max (k - 52) (-1074)) in *.
  pose proof (two_power_pos e) as HE. set (E := 2 ^ e) in *.
  set (x := q / E) in *. set (m := Number.round_half_even x) in *.
  assert (HxE : x * E == q) by (unfold x; field; lra).
  pose proof (round_half_even_near x) as [Hn1 Hn2]. fold m in Hn1, Hn2.
  assert (Herr : E * (1 # 2) <= q * (1 # 9007199254740992)
                                + (1 # 1208925819614629174706176)).
  { destruct (Z.max_spec (k - 52) (-1074)) as [[_ Hmax]|[_ Hmax]]; fold e in Hmax.
    - assert (H : E <= 2 ^ (-79)).
      { unfold E. rewrite Hmax. apply Qpower_le_compat_l; [lia | lra]. }
      assert (H79 : 2 ^ (-79) == 2 # 1208925819614629174706176) by reflexivity.
      rewrite H79 in H. nra.
    - assert (H : E == 2 ^ k * (1 # 4503599627370496)).
      { unfold E. rewrite Hmax. unfold Z.sub. rewrite Qpower_plus by lra.
        apply Qmult_comp; [reflexivity|]. reflexivity. }
      rewrite H. nra. }
  set (r := Qred (inject_Z m * E)) in *.
  assert (Hr : r == inject_Z m * E) by apply Qred_correct.
  exists r. split; [done|].
  split; [nra|]. split; [lra|].
  split; [nra|]. split; [nra|].
  intros H0. lra.
Qed.

(** The nearest number does not decrease when the rational grows. *)
Lemma nearest_mono (p q : Q) (N : Z) :
  0 <= p → p <= q → q <= inject_Z N → (N < 2 ^ 53)%Z →
  ∃ a b, Number.nearest p = Number.Finite a ∧ Number.nearest q = Number.Finite b ∧ a <= b.
Proof.
  intros Hp0 Hpq HqN HN.
  destruct (nearest_bounded q N ltac:(lra) HqN HN) as (b & Hb & Hb0 & _).
  destruct (Qeq_bool p 0) eqn:Hz.
  { exists 0, b. unfold Number.nearest at 1. rewrite Hz. done. }
  apply Qeq_bool_neq in Hz.
  assert (Hp : 0 < p) by (apply Qle_lteq in Hp0 as [H|H]; [done|]; by destruct Hz).
  assert (Hq : 0 < q) by lra.
  destruct (nearest_pos p N Hp ltac:(lra) HN) as (Hnp & Hp1 & Hp2 & _ & _ & _).
  destruct (nearest_pos q N Hq HqN HN) as (Hnq & Hq1 & Hq2 & Hkq & _ & _).
  set (kp := Number.log2 p) in *. set (kq := Number.log2 q) in *.
  set (ep := Z.max (kp - 52) (-1074)) in *. set (eq := Z.max (kq - 52) (-1074)) in *.
  set (mp := Number.round_half_even (p / 2 ^ ep)) in *.
  set (mq := Number.round_half_even (q / 2 ^ eq)) in *.
  exists (Qred (inject_Z mp * 2 ^ ep)), (Qred (inject_Z mq * 2 ^ eq)).
  split; [done|]. split; [done|]. rewrite !Qred_correct.
  assert (Hk : (kp <= kq)%Z).
  { assert (H : (kp < kq + 1)%Z); [|lia].
    apply (Qpower_lt_compat_l_inv 2); lra. }
  pose proof (two_power_pos ep) as HEp. pose proof (two_power_pos eq) as HEq.
  destruct (Z.eq_dec ep eq) as [Heq|Hne].
  - assert (Hm : (mp <= mq)%Z).
    { apply round_half_even_mono. rewrite Heq. unfold Qdiv.
      apply Qmult_le_compat_r; [done|]. apply Qinv_le_0_compat. lra. }
    rewrite Zle_Qle in Hm. rewrite Heq. nra.
  - assert (Hlt : (ep < eq)%Z) by (unfold ep, eq in *; lia).
    assert (Heq' : eq = (kq - 52)%Z) by (unfold ep, eq in *; lia).
    assert (Hkk : (kp + 1 <= kq)%Z) by (unfold ep, eq in *; lia).
    assert (Hpk : p <= 2 ^ kq).
    { assert (H : 2 ^ (kp + 1) <= 2 ^ kq) by (apply Qpower_le_compat_l; [lia | lra]).
      lra. }
    assert (H1 : inject_Z mp * 2 ^ ep <= 2 ^ kq).
    { assert (HJ : inject_Z (2 ^ (kq - ep)) == 2 ^ kq / 2 ^ ep).
      { rewrite two_power_Z by lia. apply Qpower_minus. lra. }
      assert (Hm : (mp <= 2 ^ (kq - ep))%Z).
      { apply round_half_even_le. rewrite HJ. unfold Qdiv.
        apply Qmult_le_compat_r; [done|]. apply Qinv_le_0_compat. lra. }
      rewrite Zle_Qle, HJ in Hm.
      apply (Qmult_le_compat_r _ _ (2 ^ ep)) in Hm; [|lra].
      assert (H : 2 ^ kq / 2 ^ ep * 2 ^ ep == 2 ^ kq) by (field; lra).
      by rewrite H in Hm. }
    assert (H2 : 2 ^ kq <= inject_Z mq * 2 ^ eq).
    { assert (HJ : inject_Z (2 ^ 52) == 2 ^ kq / 2 ^ eq).
      { rewrite two_power_Z by lia. rewrite Heq'.
        rewrite <- Qpower_minus by lra. apply Qpower_comp; [reflexivity | lia]. }
      assert (Hm : (2 ^ 52 <= mq)%Z).
      { apply round_half_even_ge. rewrite HJ. unfold Qdiv.
        apply Qmult_le_compat_r; [done|]. apply Qinv_le_0_compat. lra. }
      rewrite Zle_Qle, HJ in Hm.
      apply (Qmult_le_compat_r _ _ (2 ^ eq)) in Hm; [|lra].
      assert (H : 2 ^ kq / 2 ^ eq * 2 ^ eq == 2 ^ kq) by (field; lra).
      by rewrite H in Hm. }
    lra.
Qed.

(** The same for [Number.round], which depends on the value of the
    rational only. *)
Lemma round_comp (p q : Q) : p == q → Number.round p = Number.round q.
Proof. intros H. unfold Number.round. by rewrite (Qred_complete p q H). Qed.

Lemma round_bounded (q : Q) (N : Z) :
  0 <= q → q <= inject_Z N → (N < 2 ^ 53)%Z →
  ∃ r, Number.round q = Number.Finite r ∧ 0 <= r ∧ r <= inject_Z N ∧
       - (q * (1 # 9007199254740992) + (1 # 1208925819614629174706176)) <= r - q ∧
       r - q <= q * (1 # 9007199254740992) + (1 # 1208925819614629174706176) ∧
       (q == 0 → r = 0).
Proof.
  intros Hq0 HqN HN. pose proof (Qred_correct q) as Hred.
  destruct (nearest_bounded (Qred q) N ltac:(lra) ltac:(lra) HN)
    as (r & Hr & H0 & H1 & H2 & H3 & H4).
  exists r. split; [done|]. split; [done|]. split; [done|].
  split; [lra|]. split; [lra|]. intros Hz. apply H4. lra.
Qed.

Lemma round_mono (p q : Q) (N : Z) :
  0 <= p → p <= q → q <= inject_Z N → (N < 2 ^ 53)%Z →
  ∃ a b, Number.round p = Number.Finite a ∧ Number.round q = Number.Finite b ∧ a <= b.
Proof.
  intros Hp0 Hpq HqN HN.
  pose proof (Qred_correct p) as Hp. pose proof (Qred_correct q) as Hq.
  apply (nearest_mono (Qred p) (Qred q) N); [lra | lra | lra | done].
Qed.

(** [(t / 1000) * side] as the cropper computes it, for [t] within
    0..1000: two roundings. *)
Lemma scaled_computed (t : Q) (side : Z) :
  0 <= t → t <= 1000 → (0 < side < 2 ^ 31)%Z →
  ∃ v, Number.mul (Number.div1000 (Number.Finite t)) (Number.Finite (inject_Z side))
       = Number.Finite v ∧
       0 <= v ∧ v <= inject_Z side ∧
       - (inject_Z side * (2 # 9007199254740992)
          + (inject_Z side + 1) * (1 # 1208925819614629174706176))
       <= v - t / 1000 * inject_Z side ∧
       v - t / 1000 * inject_Z side
       <= inject_Z side * (2 # 9007199254740992)
          + (inject_Z side + 1) * (1 # 1208925819614629174706176) ∧
       (t == 0 → v = 0).
Proof.
  intros Ht0 Ht1 Hside.
  assert (HS : 0 < inject_Z side) by (rewrite <- (Zlt_Qlt 0); lia).
  assert (Hf0 : 0 <= t / 1000) by (apply Qle_shift_div_l; lra).
  assert (Hf1 : t / 1000 <= inject_Z 1).
  { change (inject_Z 1) with 1. apply Qle_shift_div_r; lra. }
  destruct (round_bounded (t / 1000) 1 Hf0 Hf1 ltac:(lia))
    as (e & He & He0 & He1 & Hea & Heb & Hez).
  change (inject_Z 1) with 1 in He1.
  assert (Hp0 : 0 <= e * inject_Z side) by nra.
  assert (Hp1 : e * inject_Z side <= inject_Z side) by nra.
  destruct (round_bounded (e * inject_Z side) side Hp0 Hp1 ltac:(lia))
    as (v & Hv & Hv0 & Hv1 & Hva & Hvb & Hvz).
  exists v. split.
  { unfold Number.div1000. rewrite He. unfold Number.mul. exact Hv. }
  split; [done|]. split; [done|].
  assert (Hd : - (1 # 9007199254740992) - (1 # 1208925819614629174706176)
               <= e - t / 1000
               <= (1 # 9007199254740992) + (1 # 1208925819614629174706176)).
  { change (inject_Z 1) with 1 in Hf1. set (f := t / 1000) in *. clearbody f. lra. }
  set (f := t / 1000) in *. set (S := inject_Z side) in *.
  assert (Hu : e * S * (1 # 9007199254740992) <= S * (1 # 9007199254740992)) by nra.
  split; [nra|]. split; [nra|].
  intros Hz. apply Hvz.
  assert (H0 : e = 0) by (apply Hez; unfold f; rewrite Hz; reflexivity).
  rewrite H0. ring.
Qed.

(** [((hi - lo) / 1000) * side] as the cropper computes it, for an extent
    from [lo] to [hi] within 0..1000: three roundings, and a total error
    below 2^-20. *)
Lemma side_computed (lo hi : Q) (side : Z) :
  0 <= lo → lo <= hi → hi <= 1000 → (0 < side < 2 ^ 31)%Z →
  ∃ v, Number.mul (Number.div1000 (Number.sub (Number.Finite hi) (Number.Finite lo)))
         (Number.Finite (inject_Z side))
       = Number.Finite v ∧
       0 <= v ∧ v <= inject_Z side ∧
       - (1 # 1048576) <= v - (hi - lo) / 1000 * inject_Z side ∧
       v - (hi - lo) / 1000 * inject_Z side <= 1 # 1048576 ∧
       (lo == hi → v = 0).
Proof.
  intros Hlo Hlh Hhi Hside.
  assert (HS0 : 0 < inject_Z side) by (rewrite <- (Zlt_Qlt 0); lia).
  assert (HS1 : inject_Z side <= 2147483647).
  { change 2147483647 with (inject_Z 2147483647). rewrite <- Zle_Qle. lia. }
  assert (HD0 : 0 <= hi - lo) by lra.
  assert (HD1 : hi - lo <= inject_Z 1000) by (change (inject_Z 1000) with 1000; lra).
  destruct (round_bounded (hi - lo) 1000 HD0 HD1 ltac:(lia))
    as (d & Hd & Hd0 & Hd1 & Hda & Hdb & Hdz).
  change (inject_Z 1000) with 1000 in Hd1.
  destruct (scaled_computed d side Hd0 Hd1 Hside) as (v & Hv & Hv0 & Hv1 & Hva & Hvb & Hvz).
  exists v. split.
  { unfold Number.sub. rewrite Hd. exact Hv. }
  split; [done|]. split; [done|].
  assert (Hq : (hi - lo) / 1000 * inject_Z side
               == d / 1000 * inject_Z side - (d - (hi - lo)) * (inject_Z side / 1000))
    by field.
  assert (Hs : 0 <= inject_Z side / 1000) by (apply Qle_shift_div_l; lra).
  assert (Hs1 : inject_Z side / 1000 * 1000 == inject_Z side) by field.
  assert (Hdd : - (1000 * (1 # 9007199254740992) + (1 # 1208925819614629174706176))
                <= d - (hi - lo)
                <= 1000 * (1 # 9007199254740992) + (1 # 1208925819614629174706176)).
  { assert (H : (hi - lo) * (1 # 9007199254740992) <= 1000 * (1 # 9007199254740992))
      by nra.
    lra. }
  set (D := hi - lo) in *. set (S := inject_Z side) in *. set (T := S / 1000) in *.
  set (g := d / 1000 * S) in *. set (c := d - D) in *.
  assert (Hc1 : c * T <= (1000 * (1 # 9007199254740992) + (1 # 1208925819614629174706176)) * T)
    by nra.
  assert (Hc2 : - ((1000 * (1 # 9007199254740992) + (1 # 1208925819614629174706176)) * T)
                <= c * T) by nra.
  split; [rewrite Hq; lra|]. split; [rewrite Hq; lra|].
  intros Heq. apply Hvz.
  assert (H0 : d = 0) by (apply Hdz; unfold D; lra).
  by rewrite H0.
Qed.

Lemma Qtrunc_floor (q : Q) : 0 <= q → Qtrunc q = Qfloor q.
Proof.
  destruct q as [n d]. unfold Qle, Qtrunc, Qfloor. simpl. intros Hn.
  apply Z.quot_div_nonneg; lia.
Qed.

(** The side of the canvas for a computed extent [v]: 1 when [v] is below
    1, the integer part of [v] otherwise. *)
Lemma setDimension_max (default : Z) (v : Q) (side : Z) :
  0 <= v → v <= inject_Z side → (0 < side < 2 ^ 31)%Z →
  let out := setDimension default (Number.max (Number.Finite 1) (Number.Finite v)) in
  (v < 1 → out = 1%Z) ∧
  (1 <= v → inject_Z out <= v ∧ v < inject_Z out + 1) ∧
  (1 <= out <= side)%Z.
Proof.
  intros Hv0 Hv1 Hside out.
  assert (Hfloor : ∀ q, 1 <= q → q <= inject_Z side →
            setDimension default (Number.Finite q) = Qfloor q ∧ (1 <= Qfloor q <= side)%Z).
  { intros q Hq1 Hq2.
    assert (Hr : (1 <= Qfloor q <= side)%Z).
    { split.
      - rewrite <- (Qfloor_Z 1). by apply Qfloor_resp_le.
      - rewrite <- (Qfloor_Z side). by apply Qfloor_resp_le. }
    split; [|done].
    unfold setDimension, toUnsignedLong. rewrite Qtrunc_floor by lra.
    rewrite Z.mod_small by lia.
    destruct (Z.leb_spec (Qfloor q) 2147483647); [done | lia]. }
  unfold out, Number.max. destruct (Qlt_le_dec 1 v) as [H|H].
  - destruct (Hfloor v ltac:(lra) Hv1) as [-> Hr].
    split; [lra|]. split; [|done]. intros _.
    pose proof (Qfloor_le v) as Hl. pose proof (Qlt_floor v) as Hu.
    rewrite inject_Z_plus in Hu. done.
  - assert (H1 : (1 : Q) <= inject_Z side) by (rewrite <- (Zle_Qle 1); lia).
    destruct (Hfloor 1 ltac:(lra) H1) as [-> _].
    change (Qfloor 1) with 1%Z.
    split; [done|]. split; [|lia]. intros H'. change (inject_Z 1) with 1. lra.
Qed.

End NumberFacts.

(** The numbers of two numerals within 0..1000. *)
Lemma numerals (lo hi : Q) :
  (0 <= lo)%Q → (lo <= hi)%Q → (hi <= 1000)%Q →
  ∃ a b : Q,
    Number.round lo = Number.Finite a ∧ Number.round hi = Number.Finite b ∧
    (0 <= a ∧ a <= b ∧ b <= 1000)%Q ∧
    (- (1000 * (1 # 9007199254740992) + (1 # 1208925819614629174706176)) <= a - lo ∧
     a - lo <= 1000 * (1 # 9007199254740992) + (1 # 1208925819614629174706176) ∧
     - (1000 * (1 # 9007199254740992) + (1 # 1208925819614629174706176)) <= b - hi ∧
     b - hi <= 1000 * (1 # 9007199254740992) + (1 # 1208925819614629174706176))%Q ∧
    (lo == hi → a = b)%Q.
Proof.
  intros Hlo Hlh Hhi.
  assert (Hhi' : (hi <= inject_Z 1000)%Q) by (change (inject_Z 1000) with 1000%Q; lra).
  destruct (round_bounded lo 1000 Hlo ltac:(lra) ltac:(lia))
    as (a & Ha & Ha0 & Ha1 & Haa & Hab & _).
  destruct (round_bounded hi 1000 ltac:(lra) Hhi' ltac:(lia))
    as (b & Hb & Hb0 & Hb1 & Hba & Hbb & _).
  destruct (round_mono lo hi 1000 Hlo Hlh Hhi' ltac:(lia)) as (a' & b' & Ha' & Hb' & Hle).
  rewrite Ha in Ha'. rewrite Hb in Hb'. injection Ha' as <-. injection Hb' as <-.
  change (inject_Z 1000) with 1000%Q in *.
  exists a, b. split; [done|]. split; [done|]. split; [done|].
  split.
  { assert (H1 : (lo * (1 # 9007199254740992) <= 1000 * (1 # 9007199254740992))%Q) by lra.
    assert (H2 : (hi * (1 # 9007199254740992) <= 1000 * (1 # 9007199254740992))%Q) by lra.
    repeat split; lra. }
  intros Heq. rewrite (round_comp lo hi Heq) in Ha. rewrite Ha in Hb. by injection Hb.
Qed.

(** One side of the crop, for a source side [side] and a normalised
    extent from [lo] to [hi]: the origin and the extent that the cropper
    computes, and the side of the canvas. *)
Lemma canvas_side (default side : Z) (lo hi : Q) :
  (0 < side < 2 ^ 31)%Z → (0 <= lo)%Q → (lo <= hi)%Q → (hi <= 1000)%Q →
  let exact := (((hi - lo) / 1000) * inject_Z side)%Q in
  let origin := Number.mul (Number.div1000 (Number.round lo)) (Number.Finite (inject_Z side)) in
  let computed := Number.mul (Number.div1000 (Number.sub (Number.round hi) (Number.round lo)))
                    (Number.Finite (inject_Z side)) in
  let out := setDimension default (Number.max (Number.Finite 1) computed) in
  ∃ o v : Q,
    origin = Number.Finite o ∧
    computed = Number.Finite v ∧
    (0 <= o ∧ o <= inject_Z side ∧ 0 <= v ∧ v <= inject_Z side ∧
     o + v <= inject_Z side + (1 # 524288))%Q ∧
    (- (1 # 524288) <= v - exact ∧ v - exact <= 1 # 524288)%Q ∧
    (v < 1 → out = 1%Z)%Q ∧
    (1 <= v → inject_Z out <= v ∧ v < inject_Z out + 1)%Q ∧
    (1 <= out <= side)%Z ∧
    (lo < hi → exact - 1 - (1 # 524288) < inject_Z out ∧ inject_Z out < exact + 1)%Q ∧
    (1 <= exact →
     inject_Z out <= exact + (1 # 524288) ∧ exact - (1 # 524288) < inject_Z out + 1)%Q ∧
    (exact < 1 → out = 1%Z)%Q ∧
    (lo == hi → out = 1%Z)%Q.
Proof.
  intros Hside Hlo Hlh Hhi exact origin computed out.
  destruct (numerals lo hi Hlo Hlh Hhi)
    as (a & b & Ha & Hb & (Ha0 & Hab & Hb1) & (Ha1 & Ha2 & Hb2 & Hb3) & Hsame).
  destruct (scaled_computed a side Ha0 ltac:(lra) Hside)
    as (o & Ho & Ho0 & Ho1 & _ & Hob & _).
  destruct (side_computed a b side Ha0 Hab Hb1 Hside)
    as (v & Hv & Hv0 & Hv1 & Hva & Hvb & Hvz).
  unfold out, origin, computed. rewrite Ha, Hb, Ho, Hv.
  destruct (setDimension_max default v side Hv0 Hv1 Hside) as (Hsmall & Hbig & Hrange).
  set (o' := setDimension default (Number.max (Number.Finite 1) (Number.Finite v))) in *.
  assert (HS0 : (0 < inject_Z side)%Q) by (rewrite <- (Zlt_Qlt 0); lia).
  assert (HS1 : (inject_Z side <= 2147483647)%Q).
  { change 2147483647%Q with (inject_Z 2147483647). rewrite <- Zle_Qle. lia. }
  assert (Hsum : (o + v <= inject_Z side + (1 # 524288))%Q).
  { assert (Hq : ((b - a) / 1000 * inject_Z side
                  == b / 1000 * inject_Z side - a / 1000 * inject_Z side)%Q) by field.
    assert (Hh : (b / 1000 <= 1)%Q) by (apply Qle_shift_div_r; lra).
    set (S := inject_Z side) in *. set (h := (b / 1000)%Q) in *.
    set (l := (a / 1000 * S)%Q) in *.
    assert (HhS : (h * S <= S)%Q) by nra.
    rewrite Hq in Hvb. lra. }
  assert (Herr : (- (1 # 524288) <= v - exact ∧ v - exact <= 1 # 524288)%Q).
  { assert (Hq : (exact == (b - a) / 1000 * inject_Z side
                           - ((b - hi) - (a - lo)) * (inject_Z side / 1000))%Q)
      by (unfold exact; field).
    assert (Hs : (0 <= inject_Z side / 1000)%Q) by (apply Qle_shift_div_l; lra).
    assert (Hs1 : (inject_Z side / 1000 * 1000 == inject_Z side)%Q) by field.
    set (S := inject_Z side) in *. set (T := (S / 1000)%Q) in *.
    set (g := ((b - a) / 1000 * S)%Q) in *.
    set (c := ((b - hi) - (a - lo))%Q) in *.
    assert (Hc : (- (2 * (1000 * (1 # 9007199254740992) + (1 # 1208925819614629174706176)))
                  <= c
                  <= 2 * (1000 * (1 # 9007199254740992) + (1 # 1208925819614629174706176)))%Q)
      by (unfold c; lra).
    assert (Hc1 : (c * T <= 2 * (1000 * (1 # 9007199254740992)
                                 + (1 # 1208925819614629174706176)) * T)%Q) by nra.
    assert (Hc2 : (- (2 * (1000 * (1 # 9007199254740992)
                           + (1 # 1208925819614629174706176)) * T) <= c * T)%Q) by nra.
    rewrite Hq. split; lra. }
  destruct Herr as [Hea Heb].
  assert (Hexact : (lo < hi → 0 < exact)%Q).
  { intros H. unfold exact. apply Qmult_lt_0_compat.
    - apply Qlt_shift_div_l; lra.
    - rewrite <- (Zlt_Qlt 0). lia. }
  assert (Hone : (v < 2 → o' = 1%Z)%Q).
  { intros H. destruct (Qlt_le_dec v 1) as [H1|H1]; [by apply Hsmall|].
    destruct (Hbig H1) as [Hx Hy].
    assert (H2 : (inject_Z o' < inject_Z 2)%Q) by (change (inject_Z 2) with 2%Q; lra).
    rewrite <- Zlt_Qlt in H2. lia. }
  exists o, v. split; [done|]. split; [done|].
  split; [tauto|]. split; [done|].
  split; [done|]. split; [done|]. split; [done|].
  clearbody exact o'.
  split; [|split; [|split]].
  - intros H. specialize (Hexact H).
    destruct (Qlt_le_dec v 1) as [H1|H1].
    + rewrite (Hsmall H1). change (inject_Z 1) with 1%Q. lra.
    + destruct (Hbig H1). lra.
  - intros H. destruct (Qlt_le_dec v 1) as [H1|H1].
    + rewrite (Hsmall H1). change (inject_Z 1) with 1%Q. lra.
    + destruct (Hbig H1). lra.
  - intros H. apply Hone. lra.
  - intros H. rewrite (Hsame H) in Hvz. rewrite (Hvz ltac:(reflexivity)) in Hsmall.
    apply Hsmall. lra.
Qed.



(* ===================================================================== *)
(** * Properties of the images built from a response *)
(* ===================================================================== *)

Section Regions.
Variable E : Env.t.

Lemma array_get_declaredSource chunk imgInfo :
  array_get chunk (default 0%Z (AiImage.originalImageIndex imgInfo))
  = declaredSource chunk imgInfo.
Proof.
  unfold array_get, declaredSource.
  destruct (AiImage.originalImageIndex imgInfo) as [i|]; simpl; [|done].
  destruct (Z.ltb_spec i 0) as [Hneg|Hpos].
  - destruct (decide _) as [H|H]; [lia | done].
  - destruct (decide _) as [H|H]; [done|].
    apply lookup_ge_None. lia.
Qed.

Lemma newDraft_images chunk aiCase w d w' :
  newDraft E chunk (Some aiCase) w = (Ok d, w') →
  ∃ results,
    Forall2 (λ x y, ∃ wa wb, detectedImage E chunk x wa = (Ok y, wb))
      (default [] (AiCase.detectedImages aiCase)) results ∧
    CaseRecord.images d = omap (fun r => r) results.
Proof.
  intros Hrun.
  destruct (newDraft_Some E chunk aiCase w) as (results & w1 & _ & _ & Hall & H).
  exists results. split; [done|].
  destruct (World.user w) as [user|].
  - destruct H as (sections & w2 & _ & Heq & _). rewrite Heq in Hrun.
    by inversion Hrun.
  - rewrite H in Hrun. discriminate.
Qed.

Lemma cropImageByCoordinates_pure base64 mimeType box :
  ∃ cropped, ∀ w, cropImageByCoordinates E base64 mimeType box w = (Ok cropped, w).
Proof.
  unfold cropImageByCoordinates.
  destruct (Env.imageSize E mimeType base64) as [iw ih].
  destruct (cropGeometry iw ih box) as [c d]. by eexists.
Qed.

Lemma detectedImage_kept chunk imgInfo w y w' :
  detectedImage E chunk imgInfo w = (Ok y, w') →
  match keptRegion chunk imgInfo, y with
  | Some kept, Some img => imageOf E kept img
  | None, None => True
  | _, _ => False
  end.
Proof.
  rewrite detectedImage_run, array_get_declaredSource. unfold keptRegion.
  destruct (declaredSource chunk imgInfo) as [source|]; [|by intros [= <- _]].
  destruct (AiImage.box_2d imgInfo) as [box|]; [|by intros [= <- _]].
  destruct (cropImageByCoordinates_pure (QueuedImage.data source) (QueuedImage.type source) box)
    as [cropped Hc].
  unfold outcome. rewrite Hc. simpl. intros [= <- _]. simpl.
  split; [done|]. split; [|done]. by exists cropped.
Qed.

Lemma draft_images_kept chunk aiCase w d w' :
  newDraft E chunk (Some aiCase) w = (Ok d, w') →
  Forall2 (imageOf E)
    (omap (keptRegion chunk) (default [] (AiCase.detectedImages aiCase)))
    (CaseRecord.images d).
Proof.
  intros Hrun. destruct (newDraft_images chunk aiCase w d w' Hrun) as (results & Hall & ->).
  induction Hall as [|x y xs ys (wa & wb & Hxy) _ IH]; [constructor|].
  apply detectedImage_kept in Hxy. simpl.
  destruct (keptRegion chunk x) as [kept|], y as [img|]; try done.
  by constructor.
Qed.


Lemma keptRegion_info chunk imgInfo source box info :
  keptRegion chunk imgInfo = Some (source, box, info) →
  info = imgInfo ∧ declaredSource chunk imgInfo = Some source ∧
  AiImage.box_2d imgInfo = Some box.
Proof.
  unfold keptRegion. destruct (declaredSource chunk imgInfo); [|done].
  destruct (AiImage.box_2d imgInfo); [|done]. by intros [= -> -> ->].
Qed.

Lemma or_else_values (o : option string) (d : string) (values : list string) :
  d ∈ values →
  o = None ∨ o = Some ""%string ∨ (∃ m, o = Some m ∧ m ∈ values) →
  or_else o d ∈ values.
Proof.
  intros Hd [-> | [-> | (m & -> & Hm)]]; [done | done |].
  unfold or_else. by destruct (decide _).
Qed.

End Regions.

(** C5, as the code has it.  The images of a draft are those of the
    regions that are kept, in order: a region is kept when it has a box and
    designates a page of the current chunk, and its image is cut from that
    page.  A region whose declared index lies outside the chunk is dropped;
    a region that declares no index is read as declaring index 0. *)
Theorem C5_region_source (E : Env.t) (chunk : list QueuedImage.t) (aiCase : AiCase.t)
    (w : World.t) (d : CaseRecord.t) (w' : World.t) :
  newDraft E chunk (Some aiCase) w = (Ok d, w') →
  Forall2 (imageOf E)
    (omap (keptRegion chunk) (default [] (AiCase.detectedImages aiCase)))
    (CaseRecord.images d) ∧
  (∀ imgInfo i w0,
     AiImage.originalImageIndex imgInfo = Some i →
     ¬ (0 <= i < Z.of_nat (length chunk))%Z →
     keptRegion chunk imgInfo = None ∧
     detectedImage E chunk imgInfo w0 = (Ok None, w0)) ∧
  (∀ imgInfo w0,
     AiImage.originalImageIndex imgInfo = None →
     keptRegion chunk imgInfo
     = (λ k, (k.1.1, k.1.2, imgInfo))
         <$> keptRegion chunk (with_originalImageIndex (Some 0%Z) imgInfo) ∧
     detectedImage E chunk imgInfo w0
     = detectedImage E chunk (with_originalImageIndex (Some 0%Z) imgInfo) w0).
Proof.
  intros Hrun. split; [by eapply draft_images_kept|]. split.
  - intros imgInfo i w0 Hi Hout.
    assert (Hsrc : declaredSource chunk imgInfo = None).
    { unfold declaredSource. rewrite Hi. by destruct (decide _). }
    split; [unfold keptRegion; by rewrite Hsrc|].
    by rewrite detectedImage_run, array_get_declaredSource, Hsrc.
  - intros imgInfo w0 Hi. split.
    + unfold keptRegion, declaredSource. rewrite Hi. simpl.
      destruct chunk as [|p chunk]; simpl; [done|].
      by destruct (AiImage.box_2d imgInfo).
    + rewrite !detectedImage_run. by rewrite Hi.
Qed.

Lemma C5_region_source_witness :
  ∃ d w',
    newDraft Sample.env [Sample.page "p1" true; Sample.page "p3" true]
      (Some Sample.aiCase) Sample.world = (Ok d, w') ∧
    Forall2 (imageOf Sample.env)
      (omap (keptRegion [Sample.page "p1" true; Sample.page "p3" true])
         (default [] (AiCase.detectedImages Sample.aiCase)))
      (CaseRecord.images d).
Proof.
  destruct (newDraft Sample.env [Sample.page "p1" true; Sample.page "p3" true]
              (Some Sample.aiCase) Sample.world) as [[d|] w'] eqn:Hrun.
  - exists d, w'. split; [reflexivity|].
    exact (proj1 (C5_region_source _ _ _ _ _ _ Hrun)).
  - vm_compute in Hrun. discriminate Hrun.
Defined.

(** C5 as stated fails: a region that declares no source page is not
    dropped; its image is cut from the first page of the chunk. *)
Lemma C5_missing_index_counterexample :
  AiImage.originalImageIndex Sample.region_without_index = None ∧
  ∃ img,
    outcome (detectedImage Sample.env [Sample.page "p1" true; Sample.page "p3" true]
               Sample.region_without_index) Sample.world = Ok (Some img) ∧
    ImageRecord.fileName img = "Auto_p1"%string.
Proof. split; [reflexivity|]. eexists. split; vm_compute; reflexivity. Qed.

(** C6, as the code has it.  Every image of a draft has a stain type of the
    two-value enumeration: the IHC value when the region says so, the HE
    value for anything else.  Its magnification is the one of the region,
    or the value "other" when the region has none; so it lies in the
    seven-value enumeration when the region's magnification is missing,
    empty or in the enumeration. *)
Theorem C6_image_enumerations (E : Env.t) (chunk : list QueuedImage.t) (aiCase : AiCase.t)
    (w : World.t) (d : CaseRecord.t) (w' : World.t) :
  newDraft E chunk (Some aiCase) w = (Ok d, w') →
  ∀ img, img ∈ CaseRecord.images d →
    ImageRecord.type img ∈ ImageType.values ∧
    ∃ imgInfo,
      imgInfo ∈ default [] (AiCase.detectedImages aiCase) ∧
      ImageRecord.type img
      = (if decide (AiImage.type imgInfo = Some ImageType.IHC)
         then ImageType.IHC else ImageType.HE) ∧
      ImageRecord.magnification img
      = or_else (AiImage.magnification imgInfo) Magnification.OTHER ∧
      (AiImage.magnification imgInfo = None ∨
       AiImage.magnification imgInfo = Some ""%string ∨
       (∃ m, AiImage.magnification imgInfo = Some m ∧ m ∈ Magnification.values) →
       ImageRecord.magnification img ∈ Magnification.values).
Proof.
  intros Hrun img Himg.
  pose proof (draft_images_kept E chunk aiCase w d w' Hrun) as Hall.
  apply list_elem_of_lookup in Himg as [n Hn].
  destruct (Forall2_lookup_r _ _ _ _ _ Hall Hn) as ([[source box] info] & Hk & Hof).
  apply list_elem_of_lookup_2, list_elem_of_omap in Hk as (imgInfo & Hin & Hkept).
  apply keptRegion_info in Hkept as (-> & _ & _).
  destruct Hof as (_ & _ & Hty & Hmag & _).
  split.
  { rewrite Hty. unfold ImageType.values. destruct (decide _); repeat constructor. }
  exists imgInfo. split; [done|]. split; [done|]. split; [done|].
  intros Hm. rewrite Hmag. apply or_else_values; [|done].
  unfold Magnification.values. repeat constructor.
Qed.

Lemma C6_image_enumerations_witness :
  ∃ d w',
    newDraft Sample.env [Sample.page "p1" true; Sample.page "p3" true]
      (Some Sample.aiCase) Sample.world = (Ok d, w') ∧
    (∀ img, img ∈ CaseRecord.images d → ImageRecord.type img ∈ ImageType.values).
Proof.
  destruct (newDraft Sample.env [Sample.page "p1" true; Sample.page "p3" true]
              (Some Sample.aiCase) Sample.world) as [[d|] w'] eqn:Hrun.
  - exists d, w'. split; [reflexivity|]. intros img Himg.
    exact (proj1 (C6_image_enumerations _ _ _ _ _ _ Hrun img Himg)).
  - vm_compute in Hrun. discriminate Hrun.
Defined.

(** C6 as stated fails: a magnification outside the enumeration is kept as
    it is (and a stain outside the enumeration becomes the HE value). *)
Lemma C6_magnification_counterexample :
  ∃ img,
    outcome (detectedImage Sample.env [Sample.page "p1" true; Sample.page "p3" true]
               Sample.region_off_enumeration) Sample.world = Ok (Some img) ∧
    ImageRecord.magnification img = "x1000"%string ∧
    (ImageRecord.magnification img ∉ Magnification.values) ∧
    ImageRecord.type img = ImageType.HE.
Proof.
  eexists. split; [vm_compute; reflexivity|]. split; [reflexivity|]. split; [|reflexivity].
  simpl. unfold Magnification.values. intros H.
  repeat (apply elem_of_cons in H as [H|H]; [discriminate H|]).
  by apply elem_of_nil in H.
Qed.

(* ===================================================================== *)
(** * Properties of the stores, the history and the draft handlers *)
(* ===================================================================== *)

(** ** Sorting *)

Section Sort.
Context {A : Type}.

Lemma sort_insert_Permutation (cmp : A → A → Z) x l : sort_insert cmp x l ≡ₚ x :: l.
Proof.
  induction l as [|y l IH]; [done|]. simpl.
  destruct (0 <? cmp x y)%Z; [|done].
  rewrite IH. apply Permutation_swap.
Qed.

Lemma Array_sort_Permutation (cmp : A → A → Z) l : Array_sort cmp l ≡ₚ l.
Proof.
  induction l as [|x l IH]; [done|]. unfold Array_sort in *. simpl.
  by rewrite sort_insert_Permutation, IH.
Qed.

(** For a comparator that subtracts times, the result is ordered by time,
    latest first. *)
Lemma sort_insert_sorted (time : A → Z) x l :
  StronglySorted (λ a b, (time b <= time a)%Z) l →
  StronglySorted (λ a b, (time b <= time a)%Z)
    (sort_insert (λ a b, (time b - time a)%Z) x l).
Proof.
  induction 1 as [|y l Hs IH Hy]; simpl; [repeat constructor|].
  destruct (Z.ltb_spec 0 (time y - time x)) as [Hlt|Hle].
  - constructor; [done|].
    rewrite sort_insert_Permutation. constructor; [lia | done].
  - constructor; [by constructor|].
    constructor; [lia|].
    eapply Forall_impl; [exact Hy|]. simpl. intros z Hz. lia.
Qed.

Lemma Array_sort_sorted (time : A → Z) l :
  StronglySorted (λ a b, (time b <= time a)%Z)
    (Array_sort (λ a b, (time b - time a)%Z) l).
Proof.
  induction l as [|x l IH]; [constructor|]. by apply sort_insert_sorted.
Qed.

End Sort.

Lemma StronglySorted_lookup {A} (R : relation A) l i j a b :
  StronglySorted R l → i < j → l !! i = Some a → l !! j = Some b → R a b.
Proof.
  intros Hs. revert i j. induction Hs as [|x l Hs IH Hx]; intros i j Hij Hi Hj; [done|].
  destruct j as [|j]; [lia|]. destruct i as [|i]; simpl in *.
  - inversion Hi; subst. rewrite Forall_forall in Hx. apply Hx.
    by eapply list_elem_of_lookup_2.
  - apply (IH i j); [lia | done | done].
Qed.

(** ** The object stores *)

Lemma getAll_Permutation m : getAll m ≡ₚ (map_to_list m).*2.
Proof. unfold getAll. by rewrite merge_sort_Permutation. Qed.

Lemma elem_of_getAll m c : c ∈ getAll m ↔ ∃ k, m !! k = Some c.
Proof.
  rewrite getAll_Permutation, list_elem_of_fmap. split.
  - intros ([k c'] & -> & Hin). exists k. by apply elem_of_map_to_list in Hin.
  - intros [k Hk]. exists (k, c). split; [done|]. by apply elem_of_map_to_list.
Qed.

Lemma store_ok_insert storeName m k c :
  store_ok storeName m → keyPath storeName c = Some k → store_ok storeName (<[k := c]> m).
Proof.
  intros Hok Hk k' c'. rewrite lookup_insert. case_decide as Heq.
  - intros [= <-]. by subst.
  - apply Hok.
Qed.

Lemma store_ok_delete storeName m k :
  store_ok storeName m → store_ok storeName (delete k m).
Proof.
  intros Hok k' c'. rewrite lookup_delete. case_decide; [done | apply Hok].
Qed.

Lemma filter_none {A} (P : A → Prop) `{!∀ x, Decision (P x)} (l : list A) :
  Forall (λ x, ¬ P x) l → filter P l = [].
Proof.
  induction 1 as [|x l Hx _ IH]; [done|]. by rewrite filter_cons_False.
Qed.

(** In a store that obeys its key path, the records with a given key are
    the one record stored under it. *)
Lemma getAll_filter_key storeName m k c :
  store_ok storeName m → m !! k = Some c →
  filter (λ c', keyPath storeName c' = Some k) (getAll m) = [c].
Proof.
  intros Hok Hk. apply Permutation_singleton_r.
  rewrite getAll_Permutation.
  rewrite <- (insert_delete_id m k c Hk) at 1.
  rewrite map_to_list_insert by apply lookup_delete_eq.
  rewrite fmap_cons. simpl. rewrite filter_cons_True by by apply Hok.
  apply Permutation_cons; [done|].
  rewrite filter_none; [done|].
  apply Forall_forall. intros c' Hin Hc'.
  apply list_elem_of_fmap in Hin as ([k' c''] & -> & Hin). simpl in *.
  apply elem_of_map_to_list in Hin.
  rewrite lookup_delete in Hin. case_decide as Hne; [done|].
  apply Hok in Hin. congruence.
Qed.

Lemma loadAllData_run w :
  loadAllData w =
    (Ok tt, World.set_draftCases (getAll (World.drafts w))
              (World.set_globalHistory (Array_sort byDateDesc (getAll (World.cases w))) w)).
Proof. reflexivity. Qed.

Lemma getTime_with_status s c : getTime (CaseRecord.with_status s c) = getTime c.
Proof. reflexivity. Qed.

Lemma unifiedHistory_Permutation w :
  unifiedHistory w ≡ₚ
    (CaseRecord.with_status (Some confirmed) <$> World.globalHistory w)
    ++ (CaseRecord.with_status (Some draft) <$> World.draftCases w).
Proof. apply Array_sort_Permutation. Qed.

Lemma unifiedHistory_draft_item w item :
  item ∈ unifiedHistory w → CaseRecord.status item = Some draft →
  ∃ d, d ∈ World.draftCases w ∧ item = CaseRecord.with_status (Some draft) d.
Proof.
  rewrite unifiedHistory_Permutation, elem_of_app, !list_elem_of_fmap.
  intros [(c & -> & _) | (d & -> & Hd)] Hst; [discriminate Hst | eauto].
Qed.

(** C8.  The unified history holds the items of both collections and no
    other (it is a permutation of the confirmed cases tagged 'confirmed'
    followed by the drafts tagged 'draft'), each with its provenance; it is
    ordered by time, newest first, where an item without a timestamp counts
    as the epoch, so that no item stamped after the epoch comes after it.
    Read from the stores, it is the tagged content of the two stores. *)
Theorem C8_unified_history (w : World.t) :
  let h := unifiedHistory w in
  h ≡ₚ (CaseRecord.with_status (Some confirmed) <$> World.globalHistory w)
       ++ (CaseRecord.with_status (Some draft) <$> World.draftCases w) ∧
  (∀ item, item ∈ h →
     (∃ c, c ∈ World.globalHistory w ∧ item = CaseRecord.with_status (Some confirmed) c ∧
           CaseRecord.status item = Some confirmed) ∨
     (∃ d, d ∈ World.draftCases w ∧ item = CaseRecord.with_status (Some draft) d ∧
           CaseRecord.status item = Some draft)) ∧
  StronglySorted newer_or_equal h ∧
  (∀ item, CaseRecord.submittedAt item = None → getTime item = 0%Z) ∧
  (∀ i j a b, i < j → h !! i = Some a → h !! j = Some b →
     CaseRecord.submittedAt a = None → (getTime b <= 0)%Z) ∧
  unifiedHistory (exec loadAllData w) ≡ₚ
    (CaseRecord.with_status (Some confirmed) <$> (map_to_list (World.cases w)).*2)
    ++ (CaseRecord.with_status (Some draft) <$> (map_to_list (World.drafts w)).*2).
Proof.
  intros h.
  assert (Hsorted : StronglySorted newer_or_equal h) by apply (Array_sort_sorted getTime).
  split; [apply unifiedHistory_Permutation|]. split.
  { intros item. unfold h. rewrite unifiedHistory_Permutation, elem_of_app, !list_elem_of_fmap.
    intros [(c & -> & Hc) | (d & -> & Hd)]; [left | right]; eauto. }
  split; [done|]. split.
  { intros item Hnone. unfold getTime. by rewrite Hnone. }
  split.
  { intros i j a b Hij Ha Hb Hnone.
    pose proof (StronglySorted_lookup _ _ _ _ _ _ Hsorted Hij Ha Hb) as Hab.
    unfold newer_or_equal in Hab. unfold getTime at 2 in Hab. by rewrite Hnone in Hab. }
  rewrite unifiedHistory_Permutation. unfold exec. rewrite loadAllData_run. simpl.
  rewrite Array_sort_Permutation, !getAll_Permutation. done.
Qed.

Lemma C8_unified_history_witness :
  let w := Sample.reviewing in
  CaseRecord.id <$> unifiedHistory w = [Some "d-1"%string; None] ∧
  CaseRecord.status <$> unifiedHistory w = [Some draft; Some confirmed] ∧
  StronglySorted newer_or_equal (unifiedHistory w).
Proof.
  intros w. split; [reflexivity|]. split; [reflexivity|].
  exact (proj1 (proj2 (proj2 (C8_unified_history w)))).
Defined.

Lemma handleDraftDelete_run id w :
  handleDraftDelete id w =
    (Ok tt,
     World.set_draftCases
       (filter (λ d, CaseRecord.id d ≠ Some id) (World.draftCases w))
       (World.emit (EvDelete STORE_DRAFTS id)
          (World.set_drafts (delete id (World.drafts w)) w))).
Proof. reflexivity. Qed.

(** C9.  Deleting the draft with identifier [id] removes the record stored
    under [id] from the store of drafts and every draft with this identifier
    from the list in memory; no draft with this identifier is an item of
    the unified history afterwards, neither as computed from the state nor
    after the collections are read again. *)
Theorem C9_delete_draft (w : World.t) (id : string) :
  store_ok STORE_DRAFTS (World.drafts w) →
  let w' := exec (handleDraftDelete id) w in
  World.drafts w' = delete id (World.drafts w) ∧
  World.drafts w' !! id = None ∧
  World.draftCases w' = filter (λ d, CaseRecord.id d ≠ Some id) (World.draftCases w) ∧
  (∀ d, d ∈ World.draftCases w' → CaseRecord.id d ≠ Some id) ∧
  (∀ item, item ∈ unifiedHistory w' →
     CaseRecord.status item = Some draft → CaseRecord.id item ≠ Some id) ∧
  (∀ item, item ∈ unifiedHistory (exec loadAllData w') →
     CaseRecord.status item = Some draft → CaseRecord.id item ≠ Some id).
Proof.
  intros Hok w'. unfold w', exec. rewrite handleDraftDelete_run. simpl.
  split; [done|]. split; [apply lookup_delete_eq|]. split; [done|].
  assert (Hmem : ∀ d, d ∈ filter (λ d, CaseRecord.id d ≠ Some id) (World.draftCases w) →
                      CaseRecord.id d ≠ Some id).
  { intros d Hd. by apply list_elem_of_filter in Hd as [Hne _]. }
  split; [done|]. split.
  - intros item Hin Hst.
    apply unifiedHistory_draft_item in Hin as (d & Hd & ->); [|done].
    simpl in *. by apply Hmem.
  - intros item Hin Hst.
    apply unifiedHistory_draft_item in Hin as (d & Hd & ->); [|done]. simpl in *.
    apply elem_of_getAll in Hd as [k Hk].
    rewrite lookup_delete in Hk. case_decide as Hne; [done|].
    apply Hok in Hk. simpl in Hk. congruence.
Qed.

Lemma Sample_reviewing_drafts_ok : store_ok STORE_DRAFTS (World.drafts Sample.reviewing).
Proof.
  intros k c Hk.
  change (World.drafts Sample.reviewing)
    with ({[ "d-1"%string := Sample.draft1 ]} : gmap string CaseRecord.t) in Hk.
  apply lookup_singleton_Some in Hk as [<- <-]. reflexivity.
Qed.

Lemma Sample_reviewing_cases_ok : store_ok STORE_CASES (World.cases Sample.reviewing).
Proof.
  intros k c Hk.
  change (World.cases Sample.reviewing)
    with ({[ "Case-3-12"%string := Sample.confirmed1 ]} : gmap string CaseRecord.t) in Hk.
  apply lookup_singleton_Some in Hk as [<- <-]. reflexivity.
Qed.

Lemma C9_delete_draft_witness :
  let w' := exec (handleDraftDelete "d-1") Sample.reviewing in
  Sample.draft1 ∈ World.draftCases Sample.reviewing ∧
  World.drafts w' !! "d-1"%string = None ∧
  (∀ item, item ∈ unifiedHistory w' →
     CaseRecord.status item = Some draft → CaseRecord.id item ≠ Some "d-1"%string).
Proof.
  intros w'.
  destruct (C9_delete_draft Sample.reviewing "d-1" Sample_reviewing_drafts_ok)
    as (_ & Hstore & _ & _ & Hhist & _).
  split; [repeat constructor|]. split; [exact Hstore | exact Hhist].
Defined.

Lemma handleCaseSubmit_run E w cur key :
  currentCase w = Some cur → CaseRecord.id cur = Some key →
  let cases' := <[CaseRecord.caseId cur := confirmedOf E w cur]> (World.cases w) in
  let drafts' := delete key (World.drafts w) in
  let w' := exec (handleCaseSubmit E) w in
  World.cases w' = cases' ∧
  World.drafts w' = drafts' ∧
  World.globalHistory w' = Array_sort byDateDesc (getAll cases') ∧
  World.draftCases w' = getAll drafts' ∧
  World.notification w' = Some (Notification.mk success "已存档") ∧
  trace_since w w' = [EvPut STORE_CASES (confirmedOf E w cur); EvDelete STORE_DRAFTS key;
                      EvNotify (Notification.mk success "已存档")].
Proof.
  intros Hcur Hid. unfold exec, handleCaseSubmit, bind, get. rewrite Hcur.
  unfold try_catch, try_catch_finally, bind. simpl. rewrite Hid. simpl.
  repeat split. unfold trace_since. simpl.
  rewrite <- !app_assoc. by rewrite drop_app_length.
Qed.

(** C3.  Confirming the current draft deletes it from the store of drafts,
    and the list of drafts read back holds no draft with its identifier.
    The store of confirmed cases then holds, under the [caseId] of the
    draft, the draft stamped with the instant of confirmation and without
    the members [id] and [status]; it is the one record of that [caseId]
    in the store and in the history.  When a case with this [caseId] was
    confirmed before, its record is replaced: the store has the same keys
    and as many records as before; otherwise it has one record more. *)
Theorem C3_confirm_draft (E : Env.t) (w : World.t) (cur : CaseRecord.t) (key : string) :
  currentCase w = Some cur →
  CaseRecord.id cur = Some key →
  store_ok STORE_CASES (World.cases w) →
  store_ok STORE_DRAFTS (World.drafts w) →
  let w' := exec (handleCaseSubmit E) w in
  let entry := confirmedOf E w cur in
  (World.drafts w' = delete key (World.drafts w) ∧
   World.drafts w' !! key = None ∧
   (∀ d, d ∈ World.draftCases w' → CaseRecord.id d ≠ Some key)) ∧
  (World.cases w' = <[CaseRecord.caseId cur := entry]> (World.cases w) ∧
   World.cases w' !! CaseRecord.caseId cur = Some entry ∧
   filter (λ c, CaseRecord.caseId c = CaseRecord.caseId cur) (getAll (World.cases w'))
   = [entry] ∧
   filter (λ c, CaseRecord.caseId c = CaseRecord.caseId cur) (World.globalHistory w')
   = [entry]) ∧
  (CaseRecord.caseId entry = CaseRecord.caseId cur ∧
   CaseRecord.id entry = None ∧
   CaseRecord.status entry = None ∧
   entry = CaseRecord.delete_status
             (CaseRecord.delete_id
                (CaseRecord.with_submittedAt (CaseRecord.submittedAt entry) cur))) ∧
  (∀ old, World.cases w !! CaseRecord.caseId cur = Some old →
     dom (World.cases w') = dom (World.cases w) ∧
     size (World.cases w') = size (World.cases w)) ∧
  (World.cases w !! CaseRecord.caseId cur = None →
     size (World.cases w') = S (size (World.cases w))).
Proof.
  intros Hcur Hid Hokc Hokd w' entry.
  destruct (handleCaseSubmit_run E w cur key Hcur Hid) as (Hc & Hd & Hg & Hdc & _ & _).
  fold w' in Hc, Hd, Hg, Hdc. fold entry in Hc, Hg.
  assert (Hokc' : store_ok STORE_CASES (World.cases w')).
  { rewrite Hc. by apply store_ok_insert. }
  assert (Hl : World.cases w' !! CaseRecord.caseId cur = Some entry).
  { rewrite Hc. apply lookup_insert_eq. }
  assert (Hf : filter (λ c, CaseRecord.caseId c = CaseRecord.caseId cur)
                 (getAll (World.cases w')) = [entry]).
  { rewrite <- (getAll_filter_key STORE_CASES _ _ _ Hokc' Hl).
    apply list_filter_iff. intros c. simpl. split; congruence. }
  split; [|split; [|split; [|split]]].
  - split; [done|]. split; [rewrite Hd; apply lookup_delete_eq|].
    intros d Hin. rewrite Hdc in Hin. apply elem_of_getAll in Hin as [k Hk].
    rewrite lookup_delete in Hk. case_decide as Hne; [done|].
    apply Hokd in Hk. simpl in Hk. congruence.
  - split; [done|]. split; [done|]. split; [done|].
    apply Permutation_singleton_r.
    rewrite Hg, <- Hc. rewrite Array_sort_Permutation. by rewrite Hf.
  - done.
  - intros old Hold. rewrite Hc. split.
    + rewrite dom_insert_L. apply elem_of_dom_2 in Hold.
      apply subseteq_union_1_L. by apply singleton_subseteq_l.
    + by rewrite map_size_insert, Hold.
  - intros Hnone. rewrite Hc. by apply map_size_insert_None.
Qed.

Lemma C3_confirm_draft_witness :
  let w := Sample.reviewing in
  let w' := exec (handleCaseSubmit Sample.env) w in
  currentCase w = Some Sample.draft1 ∧
  World.drafts w' !! "d-1"%string = None ∧
  World.cases w' !! "Case-3-12"%string = Some (confirmedOf Sample.env w Sample.draft1) ∧
  size (World.cases w') = size (World.cases w).
Proof.
  intros w w'.
  assert (Hcur : currentCase w = Some Sample.draft1) by reflexivity.
  assert (Hid : CaseRecord.id Sample.draft1 = Some "d-1"%string) by reflexivity.
  destruct (C3_confirm_draft Sample.env w Sample.draft1 "d-1" Hcur Hid
              Sample_reviewing_cases_ok Sample_reviewing_drafts_ok)
    as ((_ & Hgone & _) & (_ & Hentry & _) & _ & Hover & _).
  split; [exact Hcur|]. split; [exact Hgone|]. split; [exact Hentry|].
  refine (proj2 (Hover Sample.confirmed1 _)).
  change (World.cases w)
    with ({[ "Case-3-12"%string := Sample.confirmed1 ]} : gmap string CaseRecord.t).
  apply lookup_singleton_eq.
Defined.

(** ** The key paths are obeyed throughout *)

Lemma db_ok_empty w : World.cases w = ∅ → World.drafts w = ∅ → db_ok w.
Proof.
  intros Hc Hd. split; intros k c; rewrite ?Hc, ?Hd, lookup_empty; discriminate.
Qed.

Lemma put_draft_store_ok m d :
  store_ok STORE_DRAFTS m → store_ok STORE_DRAFTS (put_draft m d).
Proof.
  intros Hok. unfold put_draft. destruct (CaseRecord.id d) as [k|] eqn:Hk; [|done].
  by apply store_ok_insert.
Qed.

Lemma foldl_put_draft_store_ok ds : ∀ m,
  store_ok STORE_DRAFTS m → store_ok STORE_DRAFTS (foldl put_draft m ds).
Proof.
  induction ds as [|d ds IH]; intros m Hok; [done|].
  simpl. by apply IH, put_draft_store_ok.
Qed.

Lemma processBatchSequentially_db_ok E w :
  db_ok w → db_ok (exec (processBatchSequentially E) w).
Proof.
  intros [Hc Hd].
  destruct (decide (selectedImages w = [])) as [Hnil|Hsel].
  - unfold exec, processBatchSequentially, bind, get. rewrite Hnil. by split.
  - destruct (processBatchSequentially_run E w Hsel) as (tr & w2 & Hs & _ & ->).
    assert (Hc2 : World.cases w2 = World.cases w) by apply (step_cases _ _ _ _ Hs).
    assert (Hd2 : World.drafts w2 = foldl put_draft (World.drafts w) (puts STORE_DRAFTS tr))
      by apply (step_drafts _ _ _ _ Hs).
    destruct (existsb _ _); split; simpl; rewrite ?Hc2, ?Hd2; try done;
      by apply foldl_put_draft_store_ok.
Qed.

Lemma handleDraftDelete_db_ok id w : db_ok w → db_ok (exec (handleDraftDelete id) w).
Proof.
  intros [Hc Hd]. unfold exec. rewrite handleDraftDelete_run. split; simpl; [done|].
  by apply store_ok_delete.
Qed.

Lemma handleCaseSubmit_db_ok E w : db_ok w → db_ok (exec (handleCaseSubmit E) w).
Proof.
  intros [Hc Hd]. unfold exec, handleCaseSubmit, bind, get.
  destruct (currentCase w) as [cur|]; [|by split].
  unfold try_catch, try_catch_finally, bind. simpl.
  destruct (CaseRecord.id cur) as [key|]; simpl; split; simpl;
    try done; try (by apply store_ok_insert); by apply store_ok_delete.
Qed.

(* ===================================================================== *)
(** * Properties of the structured diagnostic basis *)
(* ===================================================================== *)

Lemma scan_quote_char c rest :
  JSON.scan (JSON.quote_char c ++ rest)%string = JSON.cons_token (tokenOf c) (JSON.scan rest).
Proof.
  destruct c as [[] [] [] [] [] [] [] []]; reflexivity.
Qed.

Lemma decode_tokenOf c ts : JSON.decode (tokenOf c :: ts) = String c (JSON.decode ts).
Proof.
  destruct c as [[] [] [] [] [] [] [] []]; try reflexivity;
    destruct ts as [|[] ts]; reflexivity.
Qed.

Lemma string_app_assoc (a b c : string) : ((a ++ b) ++ c = a ++ (b ++ c))%string.
Proof.
  induction a as [|x a IH]; [reflexivity|].
  change (String x ((a ++ b) ++ c) = String x (a ++ (b ++ c)))%string. by rewrite IH.
Qed.

Lemma scan_quote_body s rest :
  JSON.scan (JSON.quote_body s ++ String JSON.dquote rest)%string
  = Some (tokenOf <$> list_ascii_of_string s, rest).
Proof.
  induction s as [|c s IH]; [reflexivity|].
  cbn [JSON.quote_body]. rewrite string_app_assoc, scan_quote_char, IH. reflexivity.
Qed.

Lemma decode_tokens s : JSON.decode (tokenOf <$> list_ascii_of_string s) = s.
Proof.
  induction s as [|c s IH]; [reflexivity|].
  cbn [list_ascii_of_string fmap list_fmap]. by rewrite decode_tokenOf, IH.
Qed.

Lemma parse_string_quote s rest :
  JSON.parse_string (JSON.quote_body s ++ String JSON.dquote rest)%string = Some (s, rest).
Proof. unfold JSON.parse_string. by rewrite scan_quote_body, decode_tokens. Qed.


Lemma skip_ws_nonws c s : JSON.is_ws c = false → JSON.skip_ws (String c s) = String c s.
Proof. intros H. simpl. by rewrite H. Qed.

Lemma parse_value_string fuel s :
  JSON.parse_value (S fuel) (String JSON.dquote s)
  = match JSON.parse_string s with
    | Some (str, rest) => Some (JSON.Str str, rest)
    | None => None
    end.
Proof. reflexivity. Qed.

Lemma parse_value_object fuel s :
  JSON.parse_value (S fuel) (String "{" (String JSON.dquote s))
  = match JSON.parse_members fuel (String JSON.dquote s) with
    | Some (ms, rest) => Some (JSON.Object ms, rest)
    | None => None
    end.
Proof. reflexivity. Qed.

Lemma parse_members_eq fuel s :
  JSON.parse_members (S fuel) (String JSON.dquote s)
  = match JSON.parse_string s with
    | Some (key, s2) =>
        match JSON.skip_ws s2 with
        | String colon s3 =>
            if Ascii.eqb colon ":" then
              match JSON.parse_value fuel s3 with
              | Some (v, s4) =>
                  match JSON.skip_ws s4 with
                  | String d s5 =>
                      if Ascii.eqb d "," then
                        match JSON.parse_members fuel s5 with
                        | Some (ms, rest) => Some ((key, v) :: ms, rest)
                        | None => None
                        end
                      else if Ascii.eqb d "}" then Some ([(key, v)], s5)
                      else None
                  | EmptyString => None
                  end
              | None => None
              end
            else None
        | EmptyString => None
        end
    | None => None
    end.
Proof. reflexivity. Qed.

(** One member with a string value, followed by another member. *)
Lemma parse_member_more fuel key v rest :
  JSON.parse_members (S (S fuel))
    (String JSON.dquote (JSON.quote_body key ++ String JSON.dquote (String ":"
       (String JSON.dquote (JSON.quote_body v ++ String JSON.dquote (String "," rest))))))%string
  = match JSON.parse_members (S fuel) rest with
    | Some (ms, r) => Some ((key, JSON.Str v) :: ms, r)
    | None => None
    end.
Proof.
  rewrite parse_members_eq, parse_string_quote.
  rewrite skip_ws_nonws by reflexivity. cbv beta iota. rewrite Ascii.eqb_refl.
  rewrite parse_value_string, parse_string_quote.
  rewrite skip_ws_nonws by reflexivity. cbv beta iota. rewrite Ascii.eqb_refl.
  reflexivity.
Qed.

(** The last member, with a string value. *)
Lemma parse_member_last fuel key v rest :
  JSON.parse_members (S (S fuel))
    (String JSON.dquote (JSON.quote_body key ++ String JSON.dquote (String ":"
       (String JSON.dquote (JSON.quote_body v ++ String JSON.dquote (String "}" rest))))))%string
  = Some ([(key, JSON.Str v)], rest).
Proof.
  rewrite parse_members_eq, parse_string_quote.
  rewrite skip_ws_nonws by reflexivity. cbv beta iota. rewrite Ascii.eqb_refl.
  rewrite parse_value_string, parse_string_quote.
  rewrite skip_ws_nonws by reflexivity. cbv beta iota.
  reflexivity.
Qed.

Lemma stringify_basis (b : DiagnosticBasisStructured.t) :
  JSON.stringify (DiagnosticBasisStructured.to_json b)
  = (String "{"
      (String JSON.dquote (JSON.quote_body "gross" ++ String JSON.dquote (String ":"
        (String JSON.dquote (JSON.quote_body (DiagnosticBasisStructured.gross b) ++ String JSON.dquote (String ","
      (String JSON.dquote (JSON.quote_body "he" ++ String JSON.dquote (String ":"
        (String JSON.dquote (JSON.quote_body (DiagnosticBasisStructured.he b) ++ String JSON.dquote (String ","
      (String JSON.dquote (JSON.quote_body "ihc" ++ String JSON.dquote (String ":"
        (String JSON.dquote (JSON.quote_body (DiagnosticBasisStructured.ihc b) ++ String JSON.dquote (String ","
      (String JSON.dquote (JSON.quote_body "general" ++ String JSON.dquote (String ":"
        (String JSON.dquote (JSON.quote_body (DiagnosticBasisStructured.general b) ++ String JSON.dquote (String "}"
      "")))))))))))))))))))))))))%string.
Proof.
  destruct b as [g h i n]. unfold DiagnosticBasisStructured.to_json.
  cbn [JSON.stringify map JSON.join fst snd DiagnosticBasisStructured.gross
       DiagnosticBasisStructured.he DiagnosticBasisStructured.ihc
       DiagnosticBasisStructured.general].
  unfold JSON.quote. rewrite !string_app_assoc. reflexivity.
Qed.

Lemma string_length_app (a b : string) :
  String.length (a ++ b)%string = String.length a + String.length b.
Proof.
  induction a as [|x a IH]; [reflexivity|].
  change (S (String.length (a ++ b)%string) = S (String.length a + String.length b)).
  by rewrite IH.
Qed.

Lemma parse_stringify_basis (b : DiagnosticBasisStructured.t) :
  JSON.parse (JSON.stringify (DiagnosticBasisStructured.to_json b))
  = Some (DiagnosticBasisStructured.to_json b).
Proof.
  unfold JSON.parse. rewrite stringify_basis.
  match goal with
  | |- context [JSON.parse_value (S (String.length ?text)) _] =>
      assert (Hfuel : ∃ fuel, String.length text = S (S (S (S (S fuel)))))
  end.
  { cbn [String.length]. rewrite string_length_app. cbn [JSON.quote_body String.length].
    change (String.length (JSON.quote_char "g" ++ JSON.quote_char "r" ++ JSON.quote_char "o"
                             ++ JSON.quote_char "s" ++ JSON.quote_char "s" ++ "")%string)
      with 5.
    eexists. reflexivity. }
  destruct Hfuel as [fuel ->].
  rewrite parse_value_object.
  rewrite !parse_member_more, parse_member_last. reflexivity.
Qed.

(** A nested value is read back from its text. *)
Lemma parse_stringify_example :
  let v := JSON.Object
             [("cases"%string,
               JSON.Array [JSON.Object [("n"%string, JSON.Number "-2.5e3");
                                        ("ok"%string, JSON.Bool true);
                                        ("none"%string, JSON.Null);
                                        ("text"%string,
                                         JSON.Str (String "009" (String JSON.dquote "a\b")))];
                           JSON.Array []])] in
  JSON.parse (JSON.stringify v) = Some v ∧
  JSON.parse "[1, 2"%string = None ∧
  JSON.parse "plain text"%string = None.
Proof. vm_compute. repeat split; reflexivity. Qed.

Lemma string_member_basis (b : DiagnosticBasisStructured.t) :
  match DiagnosticBasisStructured.to_json b with
  | JSON.Object members =>
      DiagnosticBasisStructured.mk
        (string_member "gross" members) (string_member "he" members)
        (string_member "ihc" members) (string_member "general" members) = b
  | _ => False
  end.
Proof. by destruct b. Qed.

Lemma initStructuredBasis_stringify (section : TextRecord.t) (b : DiagnosticBasisStructured.t) :
  TextRecord.label section = DIAGNOSTIC_BASIS →
  initStructuredBasis
    (with_content (JSON.stringify (DiagnosticBasisStructured.to_json b)) section) = b.
Proof.
  intros Hlabel. unfold initStructuredBasis, with_content.
  cbn [TextRecord.label TextRecord.content]. rewrite Hlabel.
  rewrite decide_True by done. rewrite parse_stringify_basis.
  apply (string_member_basis b).
Qed.

(** C7.  In a diagnostic-basis section, after a change of one sub-field:
    when one of gross, HE, IHC is not empty, the content handed to the
    parent is the JSON text of the four sub-fields, it parses to them, and
    the state initialised from a section with this content is the state
    after the change; when the three are empty, the content is the general
    field as plain text. *)
Theorem C7_diagnostic_basis_round_trip (section : TextRecord.t)
    (structuredBasis : DiagnosticBasisStructured.t)
    (key : DiagnosticBasisStructured.key) (value : string) :
  TextRecord.label section = DIAGNOSTIC_BASIS →
  let next := (handleStructuredChange structuredBasis key value).1 in
  let content := (handleStructuredChange structuredBasis key value).2 in
  next = DiagnosticBasisStructured.set key value structuredBasis ∧
  (DiagnosticBasisStructured.gross next ≠ ""%string ∨
   DiagnosticBasisStructured.he next ≠ ""%string ∨
   DiagnosticBasisStructured.ihc next ≠ ""%string →
   content = JSON.stringify (DiagnosticBasisStructured.to_json next) ∧
   JSON.parse content = Some (DiagnosticBasisStructured.to_json next) ∧
   initStructuredBasis (with_content content section) = next) ∧
  (DiagnosticBasisStructured.gross next = ""%string →
   DiagnosticBasisStructured.he next = ""%string →
   DiagnosticBasisStructured.ihc next = ""%string →
   content = DiagnosticBasisStructured.general next).
Proof.
  intros Hlabel next content. unfold next, content, handleStructuredChange.
  set (b := DiagnosticBasisStructured.set key value structuredBasis).
  destruct (String.eqb_spec (DiagnosticBasisStructured.gross b) "") as [Hg|Hg];
    destruct (String.eqb_spec (DiagnosticBasisStructured.he b) "") as [Hh|Hh];
    destruct (String.eqb_spec (DiagnosticBasisStructured.ihc b) "") as [Hi|Hi];
    cbn [negb orb fst snd].
  all: split; [reflexivity|].
  all: split;
    [ intros Hsome;
      first [ by destruct Hsome as [H|[H|H]]
            | split; [reflexivity|];
              split; [apply parse_stringify_basis
                     | by apply initStructuredBasis_stringify] ]
    | intros Hg' Hh' Hi'; first [reflexivity | done] ].
Qed.

Lemma C7_diagnostic_basis_round_trip_witness :
  let section := TextRecord.mk "t-9" DIAGNOSTIC_BASIS "nests of atypical cells" in
  let state := initStructuredBasis section in
  let edited := handleStructuredChange state DiagnosticBasisStructured.he_key
                  (String "010" (String JSON.dquote "solid\ nests")) in
  TextRecord.label section = DIAGNOSTIC_BASIS ∧
  initStructuredBasis (with_content edited.2 section) = edited.1 ∧
  (handleStructuredChange edited.1 DiagnosticBasisStructured.he_key "").2
  = "nests of atypical cells"%string.
Proof.
  intros section state edited.
  assert (Hlabel : TextRecord.label section = DIAGNOSTIC_BASIS) by reflexivity.
  split; [exact Hlabel|]. split.
  - destruct (C7_diagnostic_basis_round_trip section state DiagnosticBasisStructured.he_key
                (String "010" (String JSON.dquote "solid\ nests")) Hlabel) as (_ & Hround & _).
    apply Hround. right. left. discriminate.
  - destruct (C7_diagnostic_basis_round_trip section edited.1 DiagnosticBasisStructured.he_key
                "" Hlabel) as (_ & _ & Hplain).
    apply Hplain; reflexivity.
Defined.

(* ===================================================================== *)
(** * Properties of the export transformation *)
(* ===================================================================== *)

Lemma TextLabel_value_inj : Inj (=) (=) TextLabel_value.
Proof. intros a b H. destruct a, b; try reflexivity; discriminate H. Qed.

Section Objects.
Context {V : Type}.
Implicit Types (acc : list (string * V)) (v : V) (key : string).

Lemma obj_get_set_eq key v acc : obj_get key (obj_set key v acc) = Some v.
Proof.
  induction acc as [|[k v'] acc IH]; simpl.
  - by destruct (decide _).
  - destruct (decide (k = key)) as [->|Hne]; simpl; destruct (decide _); done.
Qed.

Lemma obj_get_set_ne key key' v acc :
  key ≠ key' → obj_get key' (obj_set key v acc) = obj_get key' acc.
Proof.
  intros Hne. induction acc as [|[k v'] acc IH]; simpl.
  - by destruct (decide _).
  - destruct (decide (k = key)) as [->|Hk]; simpl.
    + destruct (decide _); done.
    + destruct (decide _); done.
Qed.

Lemma obj_set_keys key v acc :
  (obj_set key v acc).*1 = if decide (key ∈ acc.*1) then acc.*1 else acc.*1 ++ [key].
Proof.
  induction acc as [|[k v'] acc IH].
  - rewrite decide_False by apply not_elem_of_nil. done.
  - cbn [obj_set]. destruct (decide (k = key)) as [->|Hk].
    + rewrite decide_True by (rewrite fmap_cons; constructor). done.
    + rewrite !fmap_cons, IH. cbn [fst]. destruct (decide (key ∈ acc.*1)) as [Hin|Hin].
      * rewrite decide_True by (by constructor). done.
      * rewrite decide_False; [done|].
        intros H. apply elem_of_cons in H as [->|H]; done.
Qed.

Lemma obj_set_NoDup key v acc : NoDup acc.*1 → NoDup (obj_set key v acc).*1.
Proof.
  intros Hnd. rewrite obj_set_keys. destruct (decide _) as [|Hin]; [done|].
  apply NoDup_app. split; [done|]. split; [|apply NoDup_singleton].
  intros x Hx Hx'. apply list_elem_of_singleton in Hx'. by subst.
Qed.

Lemma obj_get_elem_of key v acc : NoDup acc.*1 → (key, v) ∈ acc → obj_get key acc = Some v.
Proof.
  induction acc as [|[k v'] acc IH]; intros Hnd Hin; [by apply elem_of_nil in Hin|].
  simpl in *. apply NoDup_cons in Hnd as [Hk Hnd].
  apply elem_of_cons in Hin as [[= -> ->]|Hin].
  - by destruct (decide _).
  - destruct (decide (k = key)) as [->|_]; [|by apply IH].
    exfalso. apply Hk. apply list_elem_of_fmap. by exists (key, v).
Qed.

End Objects.

Lemma exportSections_snoc l s :
  exportSections (l ++ [s]) = obj_set (sectionKey s) (sectionValue s) (exportSections l).
Proof. unfold exportSections. by rewrite foldl_app. Qed.

Lemma exportSections_NoDup l : NoDup (exportSections l).*1.
Proof.
  induction l as [|s l IH] using rev_ind; [constructor|].
  rewrite exportSections_snoc. by apply obj_set_NoDup.
Qed.

Lemma exportSections_keys l key :
  key ∈ (exportSections l).*1 ↔ ∃ s, s ∈ l ∧ sectionKey s = key.
Proof.
  induction l as [|s l IH] using rev_ind.
  - split; [intros H; by apply elem_of_nil in H | intros (s & H & _); by apply elem_of_nil in H].
  - rewrite exportSections_snoc, obj_set_keys.
    assert (Hiff : key ∈ (exportSections l).*1 ++ [sectionKey s]
                   ↔ ∃ s', s' ∈ l ++ [s] ∧ sectionKey s' = key).
    { rewrite elem_of_app, IH, list_elem_of_singleton. split.
      - intros [(s' & Hin & Hk) | ->].
        + exists s'. split; [apply elem_of_app; by left | done].
        + exists s. split; [apply elem_of_app; right; constructor | done].
      - intros (s' & Hin & Hk). apply elem_of_app in Hin as [Hin|Hin].
        + left. eauto.
        + apply list_elem_of_singleton in Hin. subst. by right. }
    destruct (decide _) as [Hin|Hin]; [|done].
    rewrite <- Hiff, elem_of_app, list_elem_of_singleton. split; [by left|].
    intros [H | ->]; done.
Qed.

Lemma exportSections_last before s after :
  (∀ s', s' ∈ after → TextRecord.label s' ≠ TextRecord.label s) →
  obj_get (sectionKey s) (exportSections (before ++ s :: after)) = Some (sectionValue s).
Proof.
  induction after as [|s' after IH] using rev_ind; intros Hlater.
  - rewrite exportSections_snoc. apply obj_get_set_eq.
  - rewrite app_comm_cons, app_assoc, exportSections_snoc.
    rewrite obj_get_set_ne.
    + apply IH. intros s'' Hin. apply Hlater. apply elem_of_app. by left.
    + intros Heq. apply TextLabel_value_inj in Heq.
      apply (Hlater s'); [apply elem_of_app; right; constructor | done].
Qed.

(** C10.  The exported [sections] object is the left fold of the text
    sections that assigns each one to the property named by its label.  It
    has one property for each label that occurs.  For a section that is the
    last one with its label, the property of that label holds the
    (processed) content of this section, and no other value. *)
Theorem C10_export_last_section_wins (data : CaseRecord.t) :
  let sections := TrainingData.sections (training_data data) in
  sections = foldl (λ acc curr,
                      obj_set (TextLabel_value (TextRecord.label curr))
                        (processContent (TextRecord.label curr) (TextRecord.content curr)) acc)
               [] (CaseRecord.textSections data) ∧
  NoDup sections.*1 ∧
  (∀ key, key ∈ sections.*1 ↔
          ∃ s, s ∈ CaseRecord.textSections data ∧ TextLabel_value (TextRecord.label s) = key) ∧
  (∀ before s after,
     CaseRecord.textSections data = before ++ s :: after →
     (∀ s', s' ∈ after → TextRecord.label s' ≠ TextRecord.label s) →
     obj_get (TextLabel_value (TextRecord.label s)) sections
     = Some (processContent (TextRecord.label s) (TextRecord.content s)) ∧
     (∀ v, (TextLabel_value (TextRecord.label s), v) ∈ sections →
           v = processContent (TextRecord.label s) (TextRecord.content s))).
Proof.
  intros sections. split; [reflexivity|].
  split; [apply exportSections_NoDup|]. split; [apply exportSections_keys|].
  intros before s after Hsplit Hlater.
  assert (Hget : obj_get (sectionKey s) sections = Some (sectionValue s)).
  { unfold sections. simpl. rewrite Hsplit. by apply exportSections_last. }
  split; [exact Hget|].
  intros v Hin.
  apply obj_get_elem_of in Hin; [|apply exportSections_NoDup].
  unfold sectionKey, sectionValue in Hget. congruence.
Qed.

Lemma C10_export_last_section_wins_witness :
  obj_get (TextLabel_value DIAGNOSIS)
    (TrainingData.sections (training_data Sample.duplicated))
  = Some (Text "IDC, grade 2") ∧
  length (TrainingData.sections (training_data Sample.duplicated)) = 2.
Proof.
  split; [|reflexivity].
  destruct (C10_export_last_section_wins Sample.duplicated) as (_ & _ & _ & Hlast).
  refine (proj1 (Hlast [TextRecord.mk "t-1" DIAGNOSIS "IDC"; TextRecord.mk "t-2" PATIENT_DATA "F, 52"]
                   (TextRecord.mk "t-3" DIAGNOSIS "IDC, grade 2") [] eq_refl _)).
  intros s' Hs'. by apply elem_of_nil in Hs'.
Defined.

(* ===================================================================== *)
(** * Properties of the page queue and of the PDF import *)
(* ===================================================================== *)

Lemma with_selected_twice b img :
  with_selected (negb (QueuedImage.selected (with_selected b img))) (with_selected b img)
  = with_selected (negb b) img.
Proof. reflexivity. Qed.

Lemma with_selected_same img : with_selected (QueuedImage.selected img) img = img.
Proof. by destruct img. Qed.

Lemma World_set_queuedImages_same w : World.set_queuedImages (World.queuedImages w) w = w.
Proof. by destruct w. Qed.

(** Toggling the selection of the pages with identifier [id] flips the
    flag of exactly these pages: every page keeps its place and its other
    members, a page with another identifier keeps its flag; nothing else
    in the state changes, and toggling a second time gives the state
    back. *)
Theorem togglePageSelection_flips (id : string) (w : World.t) :
  let w1 := exec (togglePageSelection id) w in
  outcome (togglePageSelection id) w = Ok tt ∧
  w1 = World.set_queuedImages (World.queuedImages w1) w ∧
  length (World.queuedImages w1) = length (World.queuedImages w) ∧
  (∀ i img, World.queuedImages w !! i = Some img →
     ∃ img1, World.queuedImages w1 !! i = Some img1 ∧
             img1 = with_selected (QueuedImage.selected img1) img ∧
             QueuedImage.selected img1
             = xorb (QueuedImage.selected img) (bool_decide (QueuedImage.id img = id))) ∧
  (id ∉ QueuedImage.id <$> World.queuedImages w → w1 = w) ∧
  exec (togglePageSelection id) w1 = w.
Proof.
  intros w1. unfold w1, exec, outcome, togglePageSelection, modify. simpl.
  split; [done|]. split; [by destruct w|]. split; [by rewrite length_map|].
  split; [|split].
  - intros i img Hi. rewrite list_lookup_fmap, Hi. simpl. eexists. split; [done|].
    destruct (decide (QueuedImage.id img = id)) as [Heq|Hne].
    + rewrite bool_decide_true by done. rewrite xorb_true_r. done.
    + rewrite bool_decide_false by done. rewrite xorb_false_r.
      split; [by rewrite with_selected_same | done].
  - intros Hnot.
    assert (Hmap : map (λ img, if decide (QueuedImage.id img = id)
                               then with_selected (negb (QueuedImage.selected img)) img
                               else img) (World.queuedImages w)
                   = World.queuedImages w).
    { rewrite <- (map_id (World.queuedImages w)) at 2.
      apply map_ext_in. intros img Hin. apply decide_False. intros Heq.
      apply Hnot. apply list_elem_of_fmap. exists img. split; [done|].
      by apply list_elem_of_In. }
    rewrite Hmap. apply World_set_queuedImages_same.
  - set (f := λ img, if decide (QueuedImage.id img = id)
                     then with_selected (negb (QueuedImage.selected img)) img
                     else img).
    assert (Hmap : map f (map f (World.queuedImages w)) = World.queuedImages w).
    { rewrite map_map. rewrite <- (map_id (World.queuedImages w)) at 2.
      apply map_ext. intros img. unfold f.
      destruct (decide (QueuedImage.id img = id)) as [Heq|Hne]; simpl.
      - rewrite decide_True by done. destruct img as [? ? ? ? []]; reflexivity.
      - by rewrite decide_False. }
    rewrite Hmap. by destruct w.
Qed.

Lemma selectedImages_all q w :
  Forall (λ img, QueuedImage.selected img = true) q →
  selectedImages (World.set_queuedImages q w) = q.
Proof.
  intros Hall. unfold selectedImages. simpl.
  induction Hall as [|img q Himg _ IH]; [done|].
  by rewrite filter_cons_True, IH.
Qed.

Lemma selectedImages_none q w :
  Forall (λ img, QueuedImage.selected img = false) q →
  selectedImages (World.set_queuedImages q w) = [].
Proof.
  intros Hall. unfold selectedImages. simpl.
  induction Hall as [|img q Himg _ IH]; [done|].
  rewrite filter_cons_False; [done|]. by rewrite Himg.
Qed.

Lemma processBatchSequentially_nothing_selected E w :
  selectedImages w = [] → processBatchSequentially E w = (Ok tt, w).
Proof.
  intros Hnil. unfold processBatchSequentially, bind, get. by rewrite Hnil.
Qed.

(** Selecting all pages makes the selection the whole queue, in order;
    deselecting all makes it empty, and so does an empty queue.  On an
    empty selection the batch orchestrator returns at once: no request, no
    notification, no change of the state at all. *)
Theorem setAllSelection_selection (E : Env.t) (w : World.t) :
  (let w1 := exec (setAllSelection true) w in
   selectedImages w1 = World.queuedImages w1 ∧
   World.queuedImages w1 = with_selected true <$> World.queuedImages w ∧
   length (selectedImages w1) = length (World.queuedImages w)) ∧
  (let w0 := exec (setAllSelection false) w in
   World.queuedImages w0 = with_selected false <$> World.queuedImages w ∧
   selectedImages w0 = [] ∧
   processBatchSequentially E w0 = (Ok tt, w0)) ∧
  (selectedImages w = [] → processBatchSequentially E w = (Ok tt, w)) ∧
  (World.queuedImages w = [] → processBatchSequentially E w = (Ok tt, w)).
Proof.
  split; [|split; [|split]].
  - intros w1. subst w1.
    change (exec (setAllSelection true) w)
      with (World.set_queuedImages (with_selected true <$> World.queuedImages w) w).
    assert (Hsel : selectedImages
                     (World.set_queuedImages (with_selected true <$> World.queuedImages w) w)
                   = with_selected true <$> World.queuedImages w).
    { apply selectedImages_all. apply Forall_fmap, Forall_true. done. }
    split; [exact Hsel|]. split; [done|]. by rewrite Hsel, length_fmap.
  - intros w0. subst w0.
    change (exec (setAllSelection false) w)
      with (World.set_queuedImages (with_selected false <$> World.queuedImages w) w).
    assert (Hsel : selectedImages
                     (World.set_queuedImages (with_selected false <$> World.queuedImages w) w)
                   = []).
    { apply selectedImages_none. apply Forall_fmap, Forall_true. done. }
    split; [done|]. split; [exact Hsel|].
    by apply processBatchSequentially_nothing_selected.
  - apply processBatchSequentially_nothing_selected.
  - intros Hq. apply processBatchSequentially_nothing_selected.
    unfold selectedImages. by rewrite Hq.
Qed.

(** ** The PDF import *)

Lemma imap_snoc {A B} (f : nat → A → B) l x :
  imap f (l ++ [x]) = imap f l ++ [f (length l) x].
Proof. rewrite imap_app. simpl. by rewrite Nat.add_0_r. Qed.

Lemma imap_names E datas : ∀ k (f : nat → nat),
  QueuedImage.name <$>
    imap (λ j data, QueuedImage.mk (Env.uuid E (f j)) data "image/jpeg"
                      ("p" ++ pretty (S (k + j)))%string true) datas
  = (λ i, ("p" ++ pretty i)%string) <$> seq (S k) (length datas).
Proof.
  induction datas as [|d datas IH]; intros k f; [done|].
  cbn [imap length seq]. rewrite !fmap_cons. cbn [QueuedImage.name].
  rewrite Nat.add_0_r. f_equal.
  etrans; [|apply (IH (S k) (λ j, f (S j)))].
  f_equal. apply imap_ext. intros j x _. simpl. repeat f_equal. lia.
Qed.

(** The loop from page [S k] on draws identifiers and moves the progress,
    and does nothing else to the state. *)
Lemma pageLoop_spec E pdf : ∀ remaining k imgs w,
  ∃ u bp,
    (pageLoop E pdf (S k) remaining imgs w).2
    = World.set_batchProgress bp (World.set_uuids u w) ∧
    World.uuids w ≤ u ∧
    match (pageLoop E pdf (S k) remaining imgs w).1 with
    | Ok l =>
        ∃ datas, PdfDocument.page pdf <$> seq (S k) remaining = Some <$> datas ∧
                 l = imgs ++ imap (λ j data,
                                     QueuedImage.mk (Env.uuid E (World.uuids w + j)) data
                                       "image/jpeg" ("p" ++ pretty (S (k + j)))%string true)
                              datas ∧
                 u = World.uuids w + remaining
    | Throw => ∃ i, S k ≤ i < S k + remaining ∧ PdfDocument.page pdf i = None
    end.
Proof.
  induction remaining as [|remaining IH]; intros k imgs w.
  - exists (World.uuids w), (World.batchProgress w). simpl.
    split; [by destruct w|]. split; [done|].
    exists []. simpl. rewrite app_nil_r. split; [done|]. split; [done|lia].
  - cbn [pageLoop]. destruct (PdfDocument.page pdf (S k)) as [data|] eqn:Hpage.
    2:{ exists (World.uuids w), (World.batchProgress w). simpl.
        split; [by destruct w|]. split; [done|]. exists (S k). split; [lia | done]. }
    unfold bind, uuidv4, modify. simpl.
    set (w1 := World.set_batchProgress _ (World.set_uuids _ w)).
    set (imgs1 := imgs ++ [_]).
    destruct (IH (S k) imgs1 w1) as (u & bp & Hw & Hu & Hres).
    exists u, bp. split.
    { rewrite Hw. unfold w1. by destruct w. }
    split; [unfold w1 in Hu; simpl in Hu; lia|].
    destruct (pageLoop E pdf (S (S k)) remaining imgs1 w1).1 as [l|].
    + destruct Hres as (datas & Hdatas & -> & ->).
      exists (data :: datas). split; [|split].
      * rewrite fmap_cons, <- Hdatas, Hpage. done.
      * unfold imgs1. rewrite <- app_assoc. f_equal. simpl. f_equal.
        -- repeat f_equal; lia.
        -- apply imap_ext. intros j d _. unfold w1. simpl.
           repeat f_equal; lia.
      * unfold w1. simpl. lia.
    + destruct Hres as (i & Hi & Hnone). exists i. split; [lia | done].
Qed.

Lemma pageLoop_from_1 E pdf w :
  ∃ u bp,
    (pageLoop E pdf 1 (PdfDocument.numPages pdf) [] w).2
    = World.set_batchProgress bp (World.set_uuids u w) ∧
    World.uuids w ≤ u ∧
    match (pageLoop E pdf 1 (PdfDocument.numPages pdf) [] w).1 with
    | Ok l =>
        ∃ datas, PdfDocument.page pdf <$> seq 1 (PdfDocument.numPages pdf) = Some <$> datas ∧
                 l = imap (importedPage E (World.uuids w)) datas ∧
                 u = World.uuids w + PdfDocument.numPages pdf
    | Throw => ∃ i, 1 ≤ i ≤ PdfDocument.numPages pdf ∧ PdfDocument.page pdf i = None
    end.
Proof.
  destruct (pageLoop_spec E pdf (PdfDocument.numPages pdf) 0 [] w)
    as (u & bp & Hw & Hu & Hres).
  exists u, bp. split; [done|]. split; [done|].
  destruct (pageLoop E pdf 1 (PdfDocument.numPages pdf) [] w).1 as [l|].
  - destruct Hres as (datas & Hd & -> & ->). by exists datas.
  - destruct Hres as (i & Hi & Hnone). exists i. split; [lia | done].
Qed.

Lemma handlePDFUpload_run E document w :
  handlePDFUpload E (Some document) w =
    match document with
    | None => (Ok tt, afterImport pdfFailure (World.queuedImages w) (World.uuids w) w)
    | Some pdf =>
        match pageLoop E pdf 1 (PdfDocument.numPages pdf) [] (World.set_isAIProcessing true w)
        with
        | (Ok imgs, w1) =>
            (Ok tt, afterImport (pdfSuccess (length imgs)) imgs (World.uuids w1) w)
        | (Throw, w1) =>
            (Ok tt, afterImport pdfFailure (World.queuedImages w) (World.uuids w1) w)
        end
    end.
Proof.
  unfold handlePDFUpload, bind, modify, try_catch_finally. simpl.
  destruct document as [pdf|]; [|reflexivity].
  destruct (pageLoop_from_1 E pdf (World.set_isAIProcessing true w)) as (u & bp & Hw & _ & _).
  destruct (pageLoop E pdf 1 (PdfDocument.numPages pdf) [] (World.set_isAIProcessing true w))
    as [[imgs|] w1]; simpl in Hw; subst w1; reflexivity.
Qed.

(** Importing a PDF whose pages all render replaces the queue by one page
    for each page of the document, in the order of the document: page
    number [i] is named [p<i>], is a JPEG, is selected, and has a fresh
    identifier.  The handler ends with the notification that counts the
    pages, the processing flag lowered and the progress back at 0/0;
    drafts, history and the two stores are as before, and the selection
    of a batch run started next is the whole document. *)
Theorem handlePDFUpload_success (E : Env.t) (pdf : PdfDocument.t) (w : World.t) :
  (∀ i, 1 ≤ i ≤ PdfDocument.numPages pdf → is_Some (PdfDocument.page pdf i)) →
  let w' := exec (handlePDFUpload E (Some (Some pdf))) w in
  ∃ datas,
    PdfDocument.page pdf <$> seq 1 (PdfDocument.numPages pdf) = Some <$> datas ∧
    World.queuedImages w' = imap (importedPage E (World.uuids w)) datas ∧
    length (World.queuedImages w') = PdfDocument.numPages pdf ∧
    selectedImages w' = World.queuedImages w' ∧
    QueuedImage.name <$> World.queuedImages w'
    = (λ i, ("p" ++ pretty i)%string) <$> seq 1 (PdfDocument.numPages pdf) ∧
    outcome (handlePDFUpload E (Some (Some pdf))) w = Ok tt ∧
    w' = afterImport (pdfSuccess (PdfDocument.numPages pdf)) (World.queuedImages w')
           (World.uuids w + PdfDocument.numPages pdf) w.
Proof.
  intros Hall w'. unfold w', exec, outcome. rewrite handlePDFUpload_run.
  destruct (pageLoop_from_1 E pdf (World.set_isAIProcessing true w))
    as (u & bp & Hw & _ & Hres).
  destruct (pageLoop E pdf 1 (PdfDocument.numPages pdf) [] (World.set_isAIProcessing true w))
    as [[imgs|] w1]; simpl in *.
  2:{ destruct Hres as (i & Hi & Hnone). destruct (Hall i Hi) as [d Hd]. congruence. }
  destruct Hres as (datas & Hd & -> & ->). subst w1. simpl.
  assert (Hlen : length datas = PdfDocument.numPages pdf).
  { apply (f_equal length) in Hd. rewrite !length_fmap, length_seq in Hd. done. }
  exists datas. split; [done|]. split; [done|].
  split; [by rewrite length_imap|].
  split.
  { rewrite <- (World_set_queuedImages_same (afterImport _ _ _ _)) at 1.
    apply selectedImages_all. apply Forall_forall. intros img Hin.
    apply list_elem_of_lookup in Hin as [j Hj].
    rewrite list_lookup_imap in Hj. destruct (datas !! j); inversion Hj. done. }
  split.
  { rewrite <- Hlen. apply (imap_names E datas 0 (λ j, World.uuids w + j)). }
  split; [done|]. by rewrite length_imap, Hlen.
Qed.

(** An import that fails (the document does not open, or one of its
    pages does not render) leaves the queue, its selection, the drafts and
    the stores as they were: the handler catches the failure, surfaces the
    failure notification and no other, lowers the processing flag and puts
    the progress back at 0/0. *)
Theorem handlePDFUpload_failure (E : Env.t) (document : option PdfDocument.t) (w : World.t) :
  (∀ pdf, document = Some pdf →
     ∃ i, 1 ≤ i ≤ PdfDocument.numPages pdf ∧ PdfDocument.page pdf i = None) →
  let w' := exec (handlePDFUpload E (Some document)) w in
  outcome (handlePDFUpload E (Some document)) w = Ok tt ∧
  World.queuedImages w' = World.queuedImages w ∧
  selectedImages w' = selectedImages w ∧
  notifications (trace_since w w') = [pdfFailure] ∧
  (∃ u, World.uuids w ≤ u ∧ w' = afterImport pdfFailure (World.queuedImages w) u w).
Proof.
  intros Hfail w'. unfold w', exec, outcome. rewrite handlePDFUpload_run.
  assert (Hgoal : ∀ u, World.uuids w ≤ u →
    let w' := afterImport pdfFailure (World.queuedImages w) u w in
    World.queuedImages w' = World.queuedImages w ∧
    selectedImages w' = selectedImages w ∧
    notifications (trace_since w w') = [pdfFailure] ∧
    (∃ u, World.uuids w ≤ u ∧ w' = afterImport pdfFailure (World.queuedImages w) u w)).
  { intros u Hu. simpl. split; [done|]. split; [done|]. split; [|eauto].
    unfold trace_since. simpl. by rewrite drop_app_length. }
  destruct document as [pdf|]; [|split; [done|]; by apply Hgoal].
  destruct (Hfail pdf eq_refl) as (i & Hi & Hnone).
  destruct (pageLoop_from_1 E pdf (World.set_isAIProcessing true w))
    as (u & bp & Hw & Hu & Hres).
  destruct (pageLoop E pdf 1 (PdfDocument.numPages pdf) [] (World.set_isAIProcessing true w))
    as [[imgs|] w1]; simpl in *.
  - destruct Hres as (datas & Hd & _).
    assert (Hi' : (PdfDocument.page pdf <$> seq 1 (PdfDocument.numPages pdf)) !! (i - 1)
                  = Some None).
    { rewrite list_lookup_fmap, lookup_seq_lt by lia. simpl.
      replace (S (i - 1)) with i by lia. by rewrite Hnone. }
    rewrite Hd, list_lookup_fmap in Hi'. destruct (datas !! (i - 1)); discriminate Hi'.
  - split; [done|]. apply Hgoal. by subst w1.
Qed.

Lemma handlePDFUpload_success_witness :
  let w' := exec (handlePDFUpload Sample.env (Some (Some Desk.pdf))) Sample.world in
  (∀ i, 1 ≤ i ≤ PdfDocument.numPages Desk.pdf → is_Some (PdfDocument.page Desk.pdf i)) ∧
  QueuedImage.name <$> World.queuedImages w' = ["p1"; "p2"; "p3"]%string ∧
  selectedImages w' = World.queuedImages w' ∧
  World.notification w' = Some (pdfSuccess 3).
Proof.
  intros w'.
  assert (Hall : ∀ i, 1 ≤ i ≤ PdfDocument.numPages Desk.pdf →
                      is_Some (PdfDocument.page Desk.pdf i)).
  { intros i _. by eexists. }
  split; [exact Hall|].
  destruct (handlePDFUpload_success Sample.env Desk.pdf Sample.world Hall)
    as (datas & _ & _ & _ & Hsel & Hnames & _ & Hw).
  split; [exact Hnames|]. split; [exact Hsel|].
  fold w' in Hw. rewrite Hw. reflexivity.
Defined.

Lemma handlePDFUpload_failure_witness :
  let w' := exec (handlePDFUpload Sample.env (Some (Some Desk.damaged_pdf))) Sample.world in
  PdfDocument.page Desk.damaged_pdf 2 = None ∧
  World.queuedImages w' = World.queuedImages Sample.world ∧
  notifications (trace_since Sample.world w') = [pdfFailure].
Proof.
  intros w'. split; [reflexivity|].
  assert (Hfail : ∀ pdf, Some Desk.damaged_pdf = Some pdf →
                    ∃ i, 1 ≤ i ≤ PdfDocument.numPages pdf ∧ PdfDocument.page pdf i = None).
  { intros pdf [= <-]. exists 2. split; [simpl; lia | reflexivity]. }
  destruct (handlePDFUpload_failure Sample.env (Some Desk.damaged_pdf) Sample.world Hfail)
    as (_ & Hq & _ & Hn & _).
  split; [exact Hq | exact Hn].
Defined.

(* ===================================================================== *)
(** * The cropper stays within the page *)
(* ===================================================================== *)

(** For an image of W x H pixels and a box within 0..1000 whose corners
    are in order, the numbers that the cropper hands to [drawImage] are
    finite: the origin and the extent of the rectangle that it reads are
    each within the side of the image, and their sum exceeds the side by
    at most 2^-19, the error of the roundings (it can exceed it).  The
    rectangle is drawn at the origin of the canvas without scaling; each
    side of the canvas is at least 1 and at most the side of the image,
    and at most the extent read when that is at least 1. *)
Theorem cropGeometry_within_image (imgWidth imgHeight : Z) (box : Box.t) :
  (0 < imgWidth < 2 ^ 31)%Z → (0 < imgHeight < 2 ^ 31)%Z →
  (0 <= Box.ymin box)%Q → (Box.ymin box <= Box.ymax box)%Q → (Box.ymax box <= 1000)%Q →
  (0 <= Box.xmin box)%Q → (Box.xmin box <= Box.xmax box)%Q → (Box.xmax box <= 1000)%Q →
  let canvas := (cropGeometry imgWidth imgHeight box).1 in
  let draw := (cropGeometry imgWidth imgHeight box).2 in
  ∃ x y width height : Q,
    draw = DrawImage.mk (Number.Finite x) (Number.Finite y)
             (Number.Finite width) (Number.Finite height)
             (Number.Finite 0) (Number.Finite 0)
             (Number.Finite width) (Number.Finite height) ∧
    (0 <= x ∧ x <= inject_Z imgWidth ∧ 0 <= width ∧ width <= inject_Z imgWidth ∧
     x + width <= inject_Z imgWidth + (1 # 524288) ∧
     0 <= y ∧ y <= inject_Z imgHeight ∧ 0 <= height ∧ height <= inject_Z imgHeight ∧
     y + height <= inject_Z imgHeight + (1 # 524288))%Q ∧
    (1 <= Canvas.width canvas <= imgWidth)%Z ∧
    (1 <= Canvas.height canvas <= imgHeight)%Z ∧
    (1 <= width → inject_Z (Canvas.width canvas) <= width)%Q ∧
    (1 <= height → inject_Z (Canvas.height canvas) <= height)%Q.
Proof.
  intros HW HH Hy0 Hy Hy1 Hx0 Hx Hx1 canvas draw.
  destruct (canvas_side 300 imgWidth (Box.xmin box) (Box.xmax box) HW Hx0 Hx Hx1)
    as (x & width & Hx' & Hwidth & Hxb & _ & _ & Hxg & Hxr & _).
  destruct (canvas_side 150 imgHeight (Box.ymin box) (Box.ymax box) HH Hy0 Hy Hy1)
    as (y & height & Hy' & Hheight & Hyb & _ & _ & Hyg & Hyr & _).
  cbv zeta in Hxg, Hxr, Hyg, Hyr. rewrite Hwidth in Hxg, Hxr. rewrite Hheight in Hyg, Hyr.
  exists x, y, width, height.
  unfold canvas, draw, cropGeometry. cbn [fst snd Canvas.width Canvas.height].
  rewrite Hx', Hy', Hwidth, Hheight.
  split; [done|]. split; [tauto|]. split; [done|]. split; [done|].
  split; [intros H; by destruct (Hxg H) | intros H; by destruct (Hyg H)].
Qed.

Lemma cropGeometry_within_image_witness :
  let draw := (cropGeometry 1240 1240 (Box.mk 0 83 1000 1000)).2 in
  ∃ x width : Q,
    DrawImage.sx draw = Number.Finite x ∧ DrawImage.sw draw = Number.Finite width ∧
    (inject_Z 1240 < x + width ∧ x + width <= inject_Z 1240 + (1 # 524288))%Q.
Proof.
  intros draw.
  assert (H1 : (0 < 1240 < 2 ^ 31)%Z) by lia.
  assert (Hy0 : (0 <= 0)%Q) by lra.
  assert (Hy : (0 <= 1000)%Q) by lra.
  assert (Hy1 : (1000 <= 1000)%Q) by lra.
  assert (Hx0 : (0 <= 83)%Q) by lra.
  assert (Hx : (83 <= 1000)%Q) by lra.
  destruct (cropGeometry_within_image 1240 1240 (Box.mk 0 83 1000 1000)
              H1 H1 Hy0 Hy Hy1 Hx0 Hx Hy1)
    as (x & y & width & height & Hdraw & (_ & _ & _ & _ & Hsum & _) & _).
  exists x, width. fold draw in Hdraw. rewrite Hdraw. cbn [DrawImage.sx DrawImage.sw].
  split; [done|]. split; [done|]. split; [|exact Hsum].
  assert (Hx' : Number.Finite x = Number.Finite (7242351150765179 # 70368744177664)).
  { transitivity (DrawImage.sx draw); [by rewrite Hdraw | vm_compute; reflexivity]. }
  assert (Hw' : Number.Finite width = Number.Finite (5000930726846137 # 4398046511104)).
  { transitivity (DrawImage.sw draw); [by rewrite Hdraw | vm_compute; reflexivity]. }
  inversion Hx'. inversion Hw'. vm_compute. reflexivity.
Defined.

(* ===================================================================== *)
(** * The object stores: order of the listing, round trips *)
(* ===================================================================== *)

Lemma unit_rank_inj x y : unit_rank x = unit_rank y → x = y.
Proof.
  intros H. rewrite <- (ascii_N_embedding x), <- (ascii_N_embedding y). f_equal.
  pose proof (N_ascii_bounded x) as Hx. pose proof (N_ascii_bounded y) as Hy.
  unfold unit_rank in H. cbv zeta in H.
  repeat match type of H with
         | context [(?a <=? ?b)%N] => destruct (N.leb_spec a b)
         end; simpl in H; lia.
Qed.

Lemma code_unit_leb_total (a b : string) :
  code_unit_leb a b = true ∨ code_unit_leb b a = true.
Proof.
  revert b. induction a as [|x a IH]; intros [|y b]; simpl; auto.
  rewrite (N.eqb_sym (unit_rank y)).
  destruct (N.eqb_spec (unit_rank x) (unit_rank y)) as [_|Hne]; [apply IH|].
  destruct (N.ltb_spec (unit_rank x) (unit_rank y));
    destruct (N.ltb_spec (unit_rank y) (unit_rank x)); auto; lia.
Qed.

Lemma code_unit_leb_trans (a b c : string) :
  code_unit_leb a b = true → code_unit_leb b c = true → code_unit_leb a c = true.
Proof.
  revert b c. induction a as [|x a IH]; intros [|y b] [|z c]; simpl; try done.
  destruct (N.eqb_spec (unit_rank x) (unit_rank y)) as [Hxy|Hxy];
    destruct (N.eqb_spec (unit_rank y) (unit_rank z)) as [Hyz|Hyz];
    destruct (N.eqb_spec (unit_rank x) (unit_rank z)) as [Hxz|Hxz];
    rewrite ?N.ltb_lt; try lia; try congruence.
  apply IH.
Qed.

Lemma code_unit_leb_antisym (a b : string) :
  code_unit_leb a b = true → code_unit_leb b a = true → a = b.
Proof.
  revert b. induction a as [|x a IH]; intros [|y b]; simpl; try done.
  rewrite (N.eqb_sym (unit_rank y)).
  destruct (N.eqb_spec (unit_rank x) (unit_rank y)) as [Heq|Hne].
  - intros H1 H2. apply unit_rank_inj in Heq. subst y. f_equal. by apply IH.
  - rewrite !N.ltb_lt. lia.
Qed.

(** The order of the keys against the code units themselves, on the
    sample texts. *)
Lemma code_unit_leb_checked (a b : string) :
  a ∈ sample_keys → b ∈ sample_keys →
  code_unit_leb a b = units_leb (utf16_units a) (utf16_units b).
Proof.
  intros Ha Hb.
  assert (Hall : forallb (λ x, forallb (λ y,
            Bool.eqb (code_unit_leb x y) (units_leb (utf16_units x) (utf16_units y)))
            sample_keys) sample_keys = true) by (vm_compute; reflexivity).
  rewrite forallb_forall in Hall. apply list_elem_of_In in Ha. specialize (Hall _ Ha).
  rewrite forallb_forall in Hall. apply list_elem_of_In in Hb. specialize (Hall _ Hb).
  by apply Bool.eqb_prop in Hall.
Qed.

#[local] Instance key_le_total : Total key_le.
Proof. intros a b. apply code_unit_leb_total. Qed.

#[local] Instance key_le_trans : Transitive key_le.
Proof. intros a b c. apply code_unit_leb_trans. Qed.

Lemma sorted_pairs m : StronglySorted key_le (merge_sort key_le (map_to_list m)).
Proof. apply (StronglySorted_merge_sort _). Qed.

Lemma StronglySorted_filter {A} (R : relation A) (P : A → Prop) `{!∀ x, Decision (P x)} l :
  StronglySorted R l → StronglySorted R (filter P l).
Proof.
  induction 1 as [|x l Hs IH Hx]; [constructor|].
  destruct (decide (P x)).
  - rewrite filter_cons_True by done. constructor; [done|].
    apply Forall_forall. intros y Hy. apply list_elem_of_filter in Hy as [_ Hy].
    rewrite Forall_forall in Hx. by apply Hx.
  - by rewrite filter_cons_False.
Qed.

(** The listing of a store from which a key has been deleted is the
    listing of the store without the pair of this key. *)
Lemma sorted_pairs_delete (m : gmap string CaseRecord.t) k :
  merge_sort key_le (map_to_list (delete k m))
  = filter (λ p, p.1 ≠ k) (merge_sort key_le (map_to_list m)).
Proof.
  apply (StronglySorted_unique_strong key_le).
  - intros [k1 c1] [k2 c2] H1 H2 H12 H21.
    rewrite merge_sort_Permutation in H1.
    apply list_elem_of_filter in H2 as [_ H2]. rewrite merge_sort_Permutation in H2.
    apply elem_of_map_to_list in H1, H2.
    assert (k1 = k2) by (by apply code_unit_leb_antisym). subst k2.
    rewrite lookup_delete in H1. case_decide; [done|]. congruence.
  - apply sorted_pairs.
  - apply StronglySorted_filter, sorted_pairs.
  - rewrite !merge_sort_Permutation.
    apply NoDup_Permutation.
    + apply NoDup_map_to_list.
    + apply NoDup_filter, NoDup_map_to_list.
    + intros [k' c]. rewrite list_elem_of_filter, !elem_of_map_to_list, lookup_delete. simpl.
      case_decide; subst; split; try done; try (by intros [? ?]).
Qed.

Lemma fmap_filter_pairs storeName (l : list (string * CaseRecord.t)) k :
  Forall (λ p, keyPath storeName p.2 = Some p.1) l →
  (filter (λ p, p.1 ≠ k) l).*2 = filter (λ c, keyPath storeName c ≠ Some k) l.*2.
Proof.
  induction 1 as [|[k' c] l Hp _ IH]; [done|]. simpl in Hp.
  rewrite fmap_cons. cbn [snd]. destruct (decide (k' = k)) as [->|Hne].
  - rewrite !filter_cons_False; [done | | ]; simpl; [rewrite Hp; by intros H | by intros H].
  - rewrite !filter_cons_True; [|simpl; congruence|simpl; done].
    rewrite fmap_cons. by rewrite IH.
Qed.

Lemma pairs_keyPath storeName m :
  store_ok storeName m →
  Forall (λ p, keyPath storeName p.2 = Some p.1) (merge_sort key_le (map_to_list m)).
Proof.
  intros Hok. apply Forall_forall. intros [k c] Hin.
  rewrite merge_sort_Permutation in Hin. apply elem_of_map_to_list in Hin. by apply Hok.
Qed.

Lemma getAll_delete storeName m k :
  store_ok storeName m →
  getAll (delete k m) = filter (λ c, keyPath storeName c ≠ Some k) (getAll m).
Proof.
  intros Hok. unfold getAll. rewrite sorted_pairs_delete.
  by apply fmap_filter_pairs, pairs_keyPath.
Qed.


Lemma getAll_NoDup_keys storeName m :
  store_ok storeName m → NoDup (keyPath storeName <$> getAll m).
Proof.
  intros Hok.
  assert (Heq : keyPath storeName <$> getAll m
                = Some <$> (merge_sort key_le (map_to_list m)).*1).
  { unfold getAll. pose proof (pairs_keyPath storeName m Hok) as Hk.
    induction Hk as [|[k c] l Hp _ IH]; [done|]. rewrite !fmap_cons. simpl in *.
    by rewrite Hp, IH. }
  rewrite Heq. apply (NoDup_fmap_2 _).
  rewrite merge_sort_Permutation. apply NoDup_fst_map_to_list.
Qed.

Lemma getAll_insert_Permutation m k c :
  getAll (<[k := c]> m) ≡ₚ c :: getAll (delete k m).
Proof.
  rewrite !getAll_Permutation.
  rewrite <- insert_delete_eq.
  rewrite map_to_list_insert by apply lookup_delete_eq. done.
Qed.

Lemma objectStore_set storeName m w :
  objectStore storeName (set_objectStore storeName m w) = m.
Proof. by destruct storeName. Qed.

Lemma objectStore_set_other s1 s2 m w :
  s1 ≠ s2 → objectStore s1 (set_objectStore s2 m w) = objectStore s1 w.
Proof. by destruct s1, s2. Qed.




(* ===================================================================== *)
(** * The order of the history and of the reloaded collections *)
(* ===================================================================== *)

Section Stable.
Context {A : Type} (time : A → Z).

Lemma sort_insert_filter (t : Z) x l :
  filter (λ y, time y = t) (sort_insert (λ a b, (time b - time a)%Z) x l)
  = filter (λ y, time y = t) (x :: l).
Proof.
  induction l as [|y l IH]; [done|]. cbn [sort_insert].
  destruct (Z.ltb_spec 0 (time y - time x)) as [Hlt|Hle]; [|done].
  destruct (decide (time y = t)) as [Hy|Hy].
  - rewrite (filter_cons_True _ y) by done. rewrite IH.
    rewrite (filter_cons_False _ x) by lia.
    rewrite (filter_cons_False _ x) by lia.
    by rewrite (filter_cons_True _ y).
  - rewrite (filter_cons_False _ y) by done. rewrite IH.
    destruct (decide (time x = t)) as [Hx|Hx].
    + rewrite !(filter_cons_True _ x) by done. by rewrite (filter_cons_False _ y).
    + rewrite !(filter_cons_False _ x) by done. by rewrite (filter_cons_False _ y).
Qed.

(** The sort is stable: the elements of one time come in the order
    that they had before. *)
Lemma Array_sort_stable (t : Z) l :
  filter (λ y, time y = t) (Array_sort (λ a b, (time b - time a)%Z) l)
  = filter (λ y, time y = t) l.
Proof.
  induction l as [|x l IH]; [done|].
  change (Array_sort (λ a b, (time b - time a)%Z) (x :: l))
    with (sort_insert (λ a b, (time b - time a)%Z) x
            (Array_sort (λ a b, (time b - time a)%Z) l)).
  rewrite sort_insert_filter.
  destruct (decide (time x = t)).
  - rewrite !(filter_cons_True _ x) by done. by rewrite IH.
  - by rewrite !(filter_cons_False _ x).
Qed.

End Stable.

Lemma filter_fmap_comp {A B} (f : A → B) (P : B → Prop) `{!∀ y, Decision (P y)} (l : list A) :
  filter P (f <$> l) = f <$> filter (λ x, P (f x)) l.
Proof.
  induction l as [|x l IH]; [done|]. rewrite fmap_cons.
  destruct (decide (P (f x))).
  - rewrite !filter_cons_True by done. by rewrite fmap_cons, IH.
  - by rewrite !filter_cons_False.
Qed.

(** The history view counts one item for each confirmed case and each
    draft in memory.  Items of equal time stamp (and so the items that
    have none) come with the confirmed cases before the drafts, and
    within each of the two in the order of its collection. *)
Theorem unifiedHistory_equal_times (w : World.t) :
  length (unifiedHistory w)
  = length (World.globalHistory w) + length (World.draftCases w) ∧
  ∀ t : Z,
    filter (λ item, getTime item = t) (unifiedHistory w)
    = (CaseRecord.with_status (Some confirmed)
         <$> filter (λ c, getTime c = t) (World.globalHistory w))
      ++ (CaseRecord.with_status (Some draft)
            <$> filter (λ d, getTime d = t) (World.draftCases w)).
Proof.
  split.
  - rewrite unifiedHistory_Permutation, length_app, !length_fmap. done.
  - intros t. unfold unifiedHistory.
    rewrite (Array_sort_stable getTime t).
    change (map (CaseRecord.with_status (Some confirmed)) (World.globalHistory w))
      with (CaseRecord.with_status (Some confirmed) <$> World.globalHistory w).
    change (map (CaseRecord.with_status (Some draft)) (World.draftCases w))
      with (CaseRecord.with_status (Some draft) <$> World.draftCases w).
    rewrite filter_app, !filter_fmap_comp. done.
Qed.



(* ===================================================================== *)
(** * Reviewing drafts: edits, selection, deletion, confirmation *)
(* ===================================================================== *)

Lemma currentCase_lookup w cur :
  currentCase w = Some cur ↔
  (0 <= World.selectedDraftIndex w)%Z ∧
  World.draftCases w !! Z.to_nat (World.selectedDraftIndex w) = Some cur.
Proof.
  unfold currentCase, array_get.
  destruct (Z.ltb_spec (World.selectedDraftIndex w) 0); split; try done; intros []; try done; lia.
Qed.

Lemma imap_replace {A} (l : list A) (idx : Z) (u : A) :
  (0 <= idx)%Z →
  imap (λ i d, if decide (Z.of_nat i = idx) then u else d) l = <[Z.to_nat idx := u]> l.
Proof.
  intros Hidx. apply list_eq. intros i. rewrite list_lookup_imap.
  destruct (decide (i = Z.to_nat idx)) as [->|Hne].
  - destruct (l !! Z.to_nat idx) as [x|] eqn:Hl; simpl.
    + rewrite decide_True by lia. symmetry. apply list_lookup_insert_eq.
      by eapply lookup_lt_Some.
    + symmetry. apply lookup_ge_None. rewrite length_insert. by apply lookup_ge_None.
  - rewrite list_lookup_insert_ne by done.
    destruct (l !! i); simpl; [|done]. rewrite decide_False by lia. done.
Qed.

(** An edit of the current case, in closed form. *)
Lemma editCurrent_run (f : CaseRecord.t → CaseRecord.t) w cur k :
  currentCase w = Some cur → CaseRecord.id (f cur) = Some k →
  editCurrent f w =
    (Ok tt,
     World.emit (EvPut STORE_DRAFTS (f cur))
       (World.set_drafts (<[k := f cur]> (World.drafts w))
          (World.set_draftCases
             (<[Z.to_nat (World.selectedDraftIndex w) := f cur]> (World.draftCases w)) w))).
Proof.
  intros Hcur Hk. unfold editCurrent, bind, get. rewrite Hcur.
  unfold commitDraft, bind, modify, detached, saveToDB. simpl. rewrite Hk. simpl.
  apply currentCase_lookup in Hcur as [Hidx _]. by rewrite imap_replace.
Qed.

Lemma editCurrent_none f w : currentCase w = None → editCurrent f w = (Ok tt, w).
Proof. intros Hcur. unfold editCurrent, bind, get. by rewrite Hcur. Qed.

Lemma applyEdit_editCurrent e : applyEdit e = editCurrent (edited e).
Proof. by destruct e. Qed.

Lemma edited_same_case e cur : same_case (edited e cur) cur.
Proof. by destruct e. Qed.

Lemma listed_as_stored_insert w i cur upd k :
  listed_as_stored w →
  World.draftCases w !! i = Some cur → CaseRecord.id cur = Some k →
  CaseRecord.id upd = Some k →
  listed_as_stored
    (World.set_drafts (<[k := upd]> (World.drafts w))
       (World.set_draftCases (<[i := upd]> (World.draftCases w)) w)).
Proof.
  intros [Hnd Hin] Hi Hk Hupd. unfold listed_as_stored. simpl.
  assert (Hids : CaseRecord.id <$> <[i := upd]> (World.draftCases w)
                 = CaseRecord.id <$> World.draftCases w).
  { rewrite list_fmap_insert, Hupd, <- Hk. apply list_insert_id.
    by rewrite list_lookup_fmap, Hi. }
  split; [by rewrite Hids|].
  intros d Hd. apply list_elem_of_lookup in Hd as [j Hj].
  destruct (decide (j = i)) as [->|Hne].
  - rewrite list_lookup_insert_eq in Hj by (by eapply lookup_lt_Some).
    inversion Hj; subst d. exists k. split; [done|]. apply lookup_insert_eq.
  - rewrite list_lookup_insert_ne in Hj by done.
    destruct (Hin d) as (k' & Hk' & Hs); [by eapply list_elem_of_lookup_2|].
    exists k'. split; [done|]. rewrite lookup_insert_ne; [done|].
    intros <-. apply Hne.
    eapply (NoDup_lookup _ j i (Some k)); [exact Hnd | |].
    + by rewrite list_lookup_fmap, Hj; simpl; rewrite Hk'.
    + by rewrite list_lookup_fmap, Hi; simpl; rewrite Hk.
Qed.

(** An edit of the current case (its category, a text section or an
    image changed, a text section or an image removed) replaces the draft
    at the selected position in memory and the record stored under the
    draft's identifier by the same edited draft, which differs from the
    draft at most in its category, sections and images.  The other drafts,
    in memory and in the store, the confirmed cases, the queue and the
    selection are as before; one write is made, to the store of drafts;
    and memory stays in step with the store, so that the edit is what a
    reload shows.  Without a current case there is no edit. *)
Theorem edit_updates_memory_and_store (e : Edit) (w : World.t) :
  listed_as_stored w →
  match currentCase w with
  | None => applyEdit e w = (Ok tt, w)
  | Some cur =>
      let w' := exec (applyEdit e) w in
      outcome (applyEdit e) w = Ok tt ∧
      ∃ updated k,
        updated = edited e cur ∧ same_case updated cur ∧
        CaseRecord.id cur = Some k ∧
        currentCase w' = Some updated ∧
        World.drafts w' = <[k := updated]> (World.drafts w) ∧
        World.drafts w' !! k = Some updated ∧
        (∀ k', k' ≠ k → World.drafts w' !! k' = World.drafts w !! k') ∧
        length (World.draftCases w') = length (World.draftCases w) ∧
        (∀ i, Z.of_nat i ≠ World.selectedDraftIndex w →
              World.draftCases w' !! i = World.draftCases w !! i) ∧
        listed_as_stored w' ∧
        updated ∈ World.draftCases (exec loadAllData w') ∧
        trace_since w w' = [EvPut STORE_DRAFTS updated] ∧
        World.cases w' = World.cases w ∧
        World.globalHistory w' = World.globalHistory w ∧
        World.queuedImages w' = World.queuedImages w ∧
        World.selectedDraftIndex w' = World.selectedDraftIndex w ∧
        World.notification w' = World.notification w
  end.
Proof.
  intros Hlisted. rewrite applyEdit_editCurrent.
  destruct (currentCase w) as [cur|] eqn:Hcur; [|by apply editCurrent_none].
  intros w'.
  pose proof Hcur as Hcur'. apply currentCase_lookup in Hcur' as [Hidx Hl].
  destruct Hlisted as [Hnd Hin].
  destruct (Hin cur) as (k & Hk & Hstored); [by eapply list_elem_of_lookup_2|].
  pose proof (edited_same_case e cur) as Hsame.
  assert (Hk' : CaseRecord.id (edited e cur) = Some k) by (destruct Hsame as [-> _]; done).
  unfold w', exec, outcome. rewrite (editCurrent_run _ w cur k Hcur Hk'). simpl.
  split; [done|]. exists (edited e cur), k.
  split; [done|]. split; [done|]. split; [done|].
  split.
  { apply currentCase_lookup. simpl. split; [done|].
    apply list_lookup_insert_eq. by eapply lookup_lt_Some. }
  split; [done|]. split; [apply lookup_insert_eq|].
  split. { intros k0 Hne. by apply lookup_insert_ne. }
  split; [apply length_insert|].
  split. { intros i Hi. apply list_lookup_insert_ne. lia. }
  assert (Hl' : listed_as_stored
                  (World.set_drafts (<[k := edited e cur]> (World.drafts w))
                     (World.set_draftCases
                        (<[Z.to_nat (World.selectedDraftIndex w) := edited e cur]>
                           (World.draftCases w)) w))).
  { by apply (listed_as_stored_insert w _ cur). }
  split; [exact Hl'|].
  split. { apply elem_of_getAll. exists k. apply lookup_insert_eq. }
  split; [|done].
  unfold trace_since. simpl. by rewrite drop_app_length.
Qed.

Lemma Sample_reviewing_listed : listed_as_stored Sample.reviewing.
Proof.
  split; [repeat constructor; by intros H%elem_of_nil|].
  intros d Hd. apply list_elem_of_singleton in Hd. subst d.
  exists "d-1"%string. split; [reflexivity|]. apply lookup_singleton_eq.
Qed.

Lemma edit_updates_memory_and_store_witness :
  let w' := exec (applyEdit (SetCategory "lung")) Sample.reviewing in
  listed_as_stored Sample.reviewing ∧
  currentCase Sample.reviewing = Some Sample.draft1 ∧
  World.drafts w' !! "d-1"%string = Some (with_organCategory "lung" Sample.draft1) ∧
  currentCase w' = Some (with_organCategory "lung" Sample.draft1).
Proof.
  intros w'. split; [apply Sample_reviewing_listed|]. split; [reflexivity|].
  pose proof (edit_updates_memory_and_store (SetCategory "lung") Sample.reviewing
                Sample_reviewing_listed) as H.
  change (currentCase Sample.reviewing) with (Some Sample.draft1) in H.
  destruct H as (_ & updated & k & -> & _ & Hk & Hcur & _ & Hst & _).
  inversion Hk; subst k. split; [exact Hst | exact Hcur].
Defined.

(** ** One entry at a time *)

Section Unique.
Context {A K : Type} `{EqDecision K} (g : A → K).
Implicit Types (l : list A) (k : K).

Lemma map_unique (h : A → A) l j x :
  NoDup (g <$> l) → l !! j = Some x →
  map (λ y, if decide (g y = g x) then h y else y) l = <[j := h x]> l.
Proof.
  intros Hnd Hj. apply list_eq. intros i.
  change (map ?f l) with (f <$> l). rewrite list_lookup_fmap.
  destruct (decide (i = j)) as [->|Hne].
  - rewrite Hj. simpl. rewrite decide_True by done.
    symmetry. apply list_lookup_insert_eq. by eapply lookup_lt_Some.
  - rewrite list_lookup_insert_ne by done.
    destruct (l !! i) as [y|] eqn:Hi; [|done]. simpl.
    rewrite decide_False; [done|]. intros Heq. apply Hne.
    eapply (NoDup_lookup _ i j (g x)); [exact Hnd | |].
    + by rewrite list_lookup_fmap, Hi; simpl; rewrite Heq.
    + by rewrite list_lookup_fmap, Hj.
Qed.

Lemma map_absent (h : A → A) l k :
  k ∉ g <$> l → map (λ y, if decide (g y = k) then h y else y) l = l.
Proof.
  intros Hnot. rewrite <- (map_id l) at 2. apply map_ext_in. intros y Hy.
  apply decide_False. intros <-. apply Hnot. apply list_elem_of_fmap.
  exists y. split; [done|]. by apply list_elem_of_In.
Qed.

Lemma filter_all (P : A → Prop) `{!∀ x, Decision (P x)} l : Forall P l → filter P l = l.
Proof.
  induction 1 as [|x l Hx _ IH]; [done|]. by rewrite filter_cons_True, IH.
Qed.

Lemma filter_unique l j x :
  NoDup (g <$> l) → l !! j = Some x → filter (λ y, g y ≠ g x) l = delete j l.
Proof.
  revert j. induction l as [|y l IH]; intros j Hnd Hj; [done|].
  rewrite fmap_cons in Hnd. apply NoDup_cons in Hnd as [Hnot Hnd].
  destruct j as [|j]; simpl in Hj.
  - inversion Hj; subst y. rewrite filter_cons_False by (by intros H). simpl.
    apply filter_all. apply Forall_forall. intros z Hz Heq. apply Hnot.
    rewrite <- Heq. by apply list_elem_of_fmap_2.
  - rewrite filter_cons_True.
    + simpl. f_equal. by apply IH.
    + intros Heq. apply Hnot. rewrite Heq. apply list_elem_of_fmap_2.
      by eapply list_elem_of_lookup_2.
Qed.

Lemma filter_absent l k : k ∉ g <$> l → filter (λ y, g y ≠ k) l = l.
Proof.
  intros Hnot. apply filter_all. apply Forall_forall. intros y Hy Heq.
  apply Hnot. rewrite <- Heq. by apply list_elem_of_fmap_2.
Qed.

End Unique.

Lemma editCurrent_current f w cur :
  listed_as_stored w → currentCase w = Some cur →
  CaseRecord.id (f cur) = CaseRecord.id cur →
  currentCase (exec (editCurrent f) w) = Some (f cur).
Proof.
  intros [_ Hin] Hcur Hid.
  pose proof Hcur as Hcur'. apply currentCase_lookup in Hcur' as [Hidx Hl].
  destruct (Hin cur) as (k & Hk & _); [by eapply list_elem_of_lookup_2|].
  unfold exec. rewrite (editCurrent_run f w cur k Hcur) by congruence.
  apply currentCase_lookup. simpl. split; [done|].
  apply list_lookup_insert_eq. by eapply lookup_lt_Some.
Qed.

(** When the text sections of the current case have distinct identifiers,
    the handlers given to a text entry touch the one section of the entry:
    an update (that does not change the identifier) replaces this section
    at its place by the section with the updated members, a removal takes
    it out; the other sections keep their order and content, and the
    images are as before.  With an identifier that no section has, an
    update or a removal leaves the sections as they are.  The export shown
    beside the editor follows: after an update of the content of a section
    that is the last of its label, the exported property of this label is
    the (processed) new content. *)
Theorem TextEntry_handlers_touch_one_section (w : World.t) (cur : CaseRecord.t) :
  listed_as_stored w →
  currentCase w = Some cur →
  NoDup (TextRecord.id <$> CaseRecord.textSections cur) →
  (∀ j x up,
     CaseRecord.textSections cur !! j = Some x →
     PartialTextRecord.id up = None →
     currentCase (exec (TextEntry_onUpdate (TextRecord.id x) up) w)
     = Some (with_textSections
               (<[j := PartialTextRecord.spread x up]> (CaseRecord.textSections cur)) cur)) ∧
  (∀ j x,
     CaseRecord.textSections cur !! j = Some x →
     currentCase (exec (TextEntry_onRemove (TextRecord.id x)) w)
     = Some (with_textSections (delete j (CaseRecord.textSections cur)) cur)) ∧
  (∀ id up,
     id ∉ TextRecord.id <$> CaseRecord.textSections cur →
     currentCase (exec (TextEntry_onUpdate id up) w) = Some cur ∧
     currentCase (exec (TextEntry_onRemove id) w) = Some cur) ∧
  (∀ before x after content,
     CaseRecord.textSections cur = before ++ x :: after →
     (∀ s, s ∈ after → TextRecord.label s ≠ TextRecord.label x) →
     ∃ updated,
       currentCase (exec (TextEntry_onUpdate (TextRecord.id x)
                            (PartialTextRecord.mk None None (Some content))) w)
       = Some updated ∧
       CaseRecord.images updated = CaseRecord.images cur ∧
       obj_get (TextLabel_value (TextRecord.label x))
         (TrainingData.sections (training_data updated))
       = Some (processContent (TextRecord.label x) content)).
Proof.
  intros Hlisted Hcur Hnd.
  assert (Hrun : ∀ l, currentCase (exec (editCurrent (λ c, with_textSections (l c) c)) w)
                      = Some (with_textSections (l cur) cur)).
  { intros l. by apply (editCurrent_current (λ c, with_textSections (l c) c)). }
  assert (Hsame : with_textSections (CaseRecord.textSections cur) cur = cur) by by destruct cur.
  split; [|split; [|split]].
  - intros j x up Hj Hup. unfold TextEntry_onUpdate. rewrite Hrun. do 2 f_equal.
    apply (map_unique TextRecord.id (λ y, PartialTextRecord.spread y up)); done.
  - intros j x Hj. unfold TextEntry_onRemove. rewrite Hrun. do 2 f_equal.
    by apply (filter_unique TextRecord.id).
  - intros id up Hnot. unfold TextEntry_onUpdate, TextEntry_onRemove. rewrite !Hrun.
    rewrite (map_absent TextRecord.id) by done.
    rewrite (filter_absent TextRecord.id) by done.
    by rewrite Hsame.
  - intros before x after content Hsplit Hlater.
    assert (Hj : CaseRecord.textSections cur !! length before = Some x).
    { rewrite Hsplit. by apply list_lookup_middle. }
    set (up := PartialTextRecord.mk None None (Some content)).
    eexists. split.
    { unfold TextEntry_onUpdate. rewrite Hrun. reflexivity. }
    split; [done|].
    rewrite (map_unique TextRecord.id (λ y, PartialTextRecord.spread y up) _ _ _ Hnd Hj).
    rewrite Hsplit.
    replace (length before) with (length before + 0) by lia.
    rewrite insert_app_r. simpl.
    apply (exportSections_last before (PartialTextRecord.spread x up) after). done.
Qed.

Lemma TextEntry_handlers_touch_one_section_witness :
  listed_as_stored Sample.reviewing ∧
  currentCase (exec (TextEntry_onRemove "t-1") Sample.reviewing)
  = Some (with_textSections [] Sample.draft1).
Proof.
  split; [apply Sample_reviewing_listed|].
  assert (Hnd : NoDup (TextRecord.id <$> CaseRecord.textSections Sample.draft1)).
  { repeat constructor. by intros H%elem_of_nil. }
  destruct (TextEntry_handlers_touch_one_section Sample.reviewing Sample.draft1
              Sample_reviewing_listed eq_refl Hnd) as (_ & Hremove & _).
  exact (Hremove 0 (TextRecord.mk "t-1" DIAGNOSIS "IDC, grade 2") eq_refl).
Defined.

(** The same for the images of the current case: with distinct image
    identifiers, an update replaces the one image of the entry at its
    place, a removal takes it out, and the text sections are as before;
    an identifier that no image has changes nothing. *)
Theorem ImageEntry_handlers_touch_one_image (w : World.t) (cur : CaseRecord.t) :
  listed_as_stored w →
  currentCase w = Some cur →
  NoDup (ImageRecord.id <$> CaseRecord.images cur) →
  (∀ j x up,
     CaseRecord.images cur !! j = Some x →
     PartialImageRecord.id up = None →
     currentCase (exec (ImageEntry_onUpdate (ImageRecord.id x) up) w)
     = Some (with_images (<[j := PartialImageRecord.spread x up]> (CaseRecord.images cur)) cur)) ∧
  (∀ j x,
     CaseRecord.images cur !! j = Some x →
     currentCase (exec (ImageEntry_onRemove (ImageRecord.id x)) w)
     = Some (with_images (delete j (CaseRecord.images cur)) cur)) ∧
  (∀ id up,
     id ∉ ImageRecord.id <$> CaseRecord.images cur →
     currentCase (exec (ImageEntry_onUpdate id up) w) = Some cur ∧
     currentCase (exec (ImageEntry_onRemove id) w) = Some cur).
Proof.
  intros Hlisted Hcur Hnd.
  assert (Hrun : ∀ l, currentCase (exec (editCurrent (λ c, with_images (l c) c)) w)
                      = Some (with_images (l cur) cur)).
  { intros l. by apply (editCurrent_current (λ c, with_images (l c) c)). }
  assert (Hsame : with_images (CaseRecord.images cur) cur = cur) by by destruct cur.
  split; [|split].
  - intros j x up Hj Hup. unfold ImageEntry_onUpdate. rewrite Hrun. do 2 f_equal.
    apply (map_unique ImageRecord.id (λ y, PartialImageRecord.spread y up)); done.
  - intros j x Hj. unfold ImageEntry_onRemove. rewrite Hrun. do 2 f_equal.
    by apply (filter_unique ImageRecord.id).
  - intros id up Hnot. unfold ImageEntry_onUpdate, ImageEntry_onRemove. rewrite !Hrun.
    rewrite (map_absent ImageRecord.id) by done.
    rewrite (filter_absent ImageRecord.id) by done.
    by rewrite Hsame.
Qed.

Lemma Desk_world_listed : listed_as_stored Desk.world.
Proof.
  split.
  - repeat constructor.
    + intros H%list_elem_of_singleton. discriminate H.
    + by intros H%elem_of_nil.
  - intros d Hd.
    apply elem_of_cons in Hd as [->|Hd]; [|apply list_elem_of_singleton in Hd as ->].
    + exists "d-1"%string. split; [reflexivity|]. apply lookup_insert_eq.
    + exists "d-2"%string. split; [reflexivity|].
      change (World.drafts Desk.world)
        with (<[ "d-1"%string := Sample.draft1 ]>
                ({[ "d-2"%string := Desk.draft2 ]} : gmap string CaseRecord.t)).
      rewrite lookup_insert_ne by discriminate. apply lookup_singleton_eq.
Qed.

Lemma ImageEntry_handlers_touch_one_image_witness :
  listed_as_stored Desk.world ∧
  currentCase Desk.world = Some Desk.draft2 ∧
  currentCase (exec (ImageEntry_onRemove "i-1") Desk.world)
  = Some (with_images [Desk.image2] Desk.draft2).
Proof.
  split; [apply Desk_world_listed|]. split; [reflexivity|].
  assert (Hnd : NoDup (ImageRecord.id <$> CaseRecord.images Desk.draft2)).
  { repeat constructor.
    - intros H%list_elem_of_singleton. discriminate H.
    - by intros H%elem_of_nil. }
  destruct (ImageEntry_handlers_touch_one_image Desk.world Desk.draft2
              Desk_world_listed eq_refl Hnd) as (_ & Hremove & _).
  exact (Hremove 0 Desk.image1 eq_refl).
Defined.

(** ** Selecting a draft from the history *)

Lemma findIndex_from_spec {A} (p : A → bool) l : ∀ i,
  (∃ n x, l !! n = Some x ∧ p x = true ∧ findIndex_from p i l = (i + Z.of_nat n)%Z) ∨
  (Forall (λ x, p x = false) l ∧ findIndex_from p i l = (-1)%Z).
Proof.
  induction l as [|x l IH]; intros i; [right; by split|]. cbn [findIndex_from].
  destruct (p x) eqn:Hp.
  - left. exists 0, x. split; [done|]. split; [done|]. simpl. lia.
  - destruct (IH (i + 1)%Z) as [(n & y & Hn & Hy & Hf)|[Hall Hf]].
    + left. exists (S n), y. split; [done|]. split; [done|]. rewrite Hf. lia.
    + right. split; [by constructor | done].
Qed.

(** A click on an item of the history that is a draft selects the first
    draft in memory with the identifier of the item and shows the editor;
    with distinct identifiers, the current case then is the draft of the
    item.  A click on a confirmed case does nothing. *)
Theorem historyItem_onClick_selects (item : CaseRecord.t) (s : Screen.t) :
  item ∈ unifiedHistory (Screen.world s) →
  let s' := historyItem_onClick item s in
  (CaseRecord.status item = Some confirmed → s' = s) ∧
  (CaseRecord.status item = Some draft →
   Screen.activeTab s' = edit ∧
   (∃ i, Screen.world s' = set_selectedDraftIndex (Z.of_nat i) (Screen.world s) ∧
         i < length (World.draftCases (Screen.world s))) ∧
   ∃ d, currentCase (Screen.world s') = Some d ∧
        d ∈ World.draftCases (Screen.world s) ∧
        CaseRecord.id d = CaseRecord.id item ∧
        (NoDup (CaseRecord.id <$> World.draftCases (Screen.world s)) →
         item = CaseRecord.with_status (Some draft) d)).
Proof.
  intros Hitem s'. split.
  { intros Hst. unfold s', historyItem_onClick. rewrite decide_False; [done|]. by rewrite Hst. }
  intros Hst. unfold s', historyItem_onClick. rewrite decide_True by done. simpl.
  split; [done|].
  destruct (unifiedHistory_draft_item _ _ Hitem Hst) as (d0 & Hd0 & ->).
  set (p := λ d : CaseRecord.t,
              bool_decide (CaseRecord.id d
                           = CaseRecord.id (CaseRecord.with_status (Some draft) d0))).
  destruct (findIndex_from_spec p (World.draftCases (Screen.world s)) 0)
    as [(n & d & Hn & Hp & Hfind)|[Hall _]].
  2:{ rewrite Forall_forall in Hall. specialize (Hall d0 Hd0).
      unfold p in Hall. by rewrite bool_decide_true in Hall. }
  fold (findIndex p (World.draftCases (Screen.world s))) in Hfind.
  rewrite Hfind, Z.add_0_l. split.
  { exists n. split; [done|]. by eapply lookup_lt_Some. }
  exists d. unfold p in Hp. apply bool_decide_eq_true in Hp. simpl in Hp.
  split. { apply currentCase_lookup. simpl. split; [lia|]. by rewrite Nat2Z.id. }
  split; [by eapply list_elem_of_lookup_2|]. split; [done|].
  intros Hnd. f_equal.
  apply list_elem_of_lookup in Hd0 as [n0 Hn0].
  assert (n = n0); [|congruence].
  eapply (NoDup_lookup _ n n0 (CaseRecord.id d)); [exact Hnd | |].
  - by rewrite list_lookup_fmap, Hn.
  - by rewrite list_lookup_fmap, Hn0; simpl; rewrite Hp.
Qed.

Lemma historyItem_onClick_selects_witness :
  let s := Screen.mk Desk.world history in
  let item := CaseRecord.with_status (Some draft) Sample.draft1 in
  item ∈ unifiedHistory Desk.world ∧
  Screen.activeTab (historyItem_onClick item s) = edit ∧
  ∃ d, currentCase (Screen.world (historyItem_onClick item s)) = Some d ∧
       CaseRecord.id d = Some "d-1"%string.
Proof.
  intros s item.
  assert (Hin : item ∈ unifiedHistory (Screen.world s)).
  { apply (list_elem_of_lookup_2 _ 1). reflexivity. }
  split; [exact Hin|].
  destruct (historyItem_onClick_selects item s Hin) as [_ Hdraft].
  destruct (Hdraft eq_refl) as (Htab & _ & d & Hcur & _ & Hid & _).
  split; [exact Htab|]. exists d. split; [exact Hcur | exact Hid].
Defined.

(** ** Deleting and confirming leave the selection where it is *)

Lemma handleDraftDelete_list w j d k :
  NoDup (CaseRecord.id <$> World.draftCases w) →
  World.draftCases w !! j = Some d → CaseRecord.id d = Some k →
  World.draftCases (exec (handleDraftDelete k) w) = delete j (World.draftCases w).
Proof.
  intros Hnd Hj Hk. unfold exec. rewrite handleDraftDelete_run. simpl.
  rewrite <- Hk. by apply (filter_unique CaseRecord.id).
Qed.

(** Deleting the draft at position [j] of the list in memory (the
    identifiers being distinct) takes this draft out of the list and its
    record out of the store, and leaves the selected position as it is:
    when [j] is before the selected position or is the selected position,
    the draft after the one that was under review becomes the current
    case (none, when there is no draft after it); when [j] is after the
    selected position, the current case stays.  Deleting an identifier
    that no draft in memory has leaves the list and the current case as
    they are. *)
Theorem handleDraftDelete_keeps_selection (w : World.t) (i j : nat) (d : CaseRecord.t)
    (k : string) :
  NoDup (CaseRecord.id <$> World.draftCases w) →
  World.selectedDraftIndex w = Z.of_nat i →
  World.draftCases w !! j = Some d →
  CaseRecord.id d = Some k →
  let w' := exec (handleDraftDelete k) w in
  outcome (handleDraftDelete k) w = Ok tt ∧
  World.draftCases w' = delete j (World.draftCases w) ∧
  World.drafts w' = delete k (World.drafts w) ∧
  World.selectedDraftIndex w' = World.selectedDraftIndex w ∧
  (j ≤ i → currentCase w' = World.draftCases w !! S i) ∧
  (i < j → currentCase w' = currentCase w) ∧
  (∀ k', Some k' ∉ CaseRecord.id <$> World.draftCases w →
     World.draftCases (exec (handleDraftDelete k') w) = World.draftCases w ∧
     currentCase (exec (handleDraftDelete k') w) = currentCase w).
Proof.
  intros Hnd Hi Hj Hk w'.
  assert (Hlist : World.draftCases w' = delete j (World.draftCases w))
    by by eapply handleDraftDelete_list.
  assert (Hsel : World.selectedDraftIndex w' = World.selectedDraftIndex w) by done.
  assert (Hcur : ∀ w0, World.selectedDraftIndex w0 = Z.of_nat i →
                       currentCase w0 = World.draftCases w0 !! i).
  { intros w0 H0. unfold currentCase, array_get. rewrite H0.
    destruct (Z.ltb_spec (Z.of_nat i) 0); [lia|]. by rewrite Nat2Z.id. }
  split; [done|]. split; [done|]. split; [done|]. split; [done|].
  split; [|split].
  - intros Hle. rewrite (Hcur w') by congruence. rewrite Hlist.
    by apply list_lookup_delete_ge.
  - intros Hlt. rewrite (Hcur w'), (Hcur w) by congruence. rewrite Hlist.
    by apply list_lookup_delete_lt.
  - intros k' Hnot.
    assert (Hl : World.draftCases (exec (handleDraftDelete k') w) = World.draftCases w).
    { unfold exec. rewrite handleDraftDelete_run. simpl.
      by apply (filter_absent CaseRecord.id). }
    split; [done|]. unfold currentCase. by rewrite Hl.
Qed.

Lemma handleDraftDelete_keeps_selection_witness :
  let w' := exec (handleDraftDelete "d-1") Desk.world in
  currentCase Desk.world = Some Desk.draft2 ∧
  World.draftCases w' = [Desk.draft2] ∧
  currentCase w' = None.
Proof.
  intros w'. split; [reflexivity|].
  assert (Hnd : NoDup (CaseRecord.id <$> World.draftCases Desk.world))
    by apply Desk_world_listed.
  destruct (handleDraftDelete_keeps_selection Desk.world 1 0 Sample.draft1 "d-1"
              Hnd eq_refl eq_refl eq_refl) as (_ & Hlist & _ & _ & Hnext & _).
  split; [exact Hlist|]. exact (Hnext ltac:(lia)).
Defined.

Lemma handleCaseSubmit_none E w : currentCase w = None → handleCaseSubmit E w = (Ok tt, w).
Proof. intros Hcur. unfold handleCaseSubmit, bind, get. by rewrite Hcur. Qed.

(** Confirming, from a state whose drafts in memory are the listing of
    the store: the draft under review leaves the list, the other drafts
    keep their order, and the selected position is as before, so that the
    draft listed after the confirmed one becomes the current case, and
    there is none after the last.  The confirmed case is in the history
    view as a confirmed item, and the success notification is the one
    notification.  Without a current case the handler does nothing. *)
Theorem handleCaseSubmit_moves_on (E : Env.t) (w : World.t) (i : nat) :
  store_ok STORE_DRAFTS (World.drafts w) →
  World.draftCases w = getAll (World.drafts w) →
  World.selectedDraftIndex w = Z.of_nat i →
  let w' := exec (handleCaseSubmit E) w in
  match World.draftCases w !! i with
  | None => handleCaseSubmit E w = (Ok tt, w)
  | Some cur =>
      outcome (handleCaseSubmit E) w = Ok tt ∧
      World.draftCases w' = delete i (World.draftCases w) ∧
      World.selectedDraftIndex w' = World.selectedDraftIndex w ∧
      currentCase w' = World.draftCases w !! S i ∧
      CaseRecord.with_status (Some confirmed) (confirmedOf E w cur) ∈ unifiedHistory w' ∧
      notifications (trace_since w w') = [Notification.mk success "已存档"]
  end.
Proof.
  intros Hok Hmem Hi w'.
  assert (Hcur : ∀ w0, World.selectedDraftIndex w0 = Z.of_nat i →
                       currentCase w0 = World.draftCases w0 !! i).
  { intros w0 H0. unfold currentCase, array_get. rewrite H0.
    destruct (Z.ltb_spec (Z.of_nat i) 0); [lia|]. by rewrite Nat2Z.id. }
  destruct (World.draftCases w !! i) as [cur|] eqn:Hl.
  2:{ apply handleCaseSubmit_none. by rewrite Hcur. }
  assert (Hc : currentCase w = Some cur) by (by rewrite Hcur).
  assert (Hkey : ∃ key, CaseRecord.id cur = Some key) .
  { assert (Hin : cur ∈ getAll (World.drafts w))
      by (rewrite <- Hmem; by eapply list_elem_of_lookup_2).
    apply elem_of_getAll in Hin as [key Hkey]. exists key. by apply (Hok key cur). }
  destruct Hkey as [key Hkey].
  destruct (handleCaseSubmit_run E w cur key Hc Hkey) as (Hcases & Hdrafts & Hg & Hdc & _ & Htr).
  fold w' in Hcases, Hdrafts, Hg, Hdc, Htr.
  assert (Hlist : World.draftCases w' = delete i (World.draftCases w)).
  { rewrite Hdc, (getAll_delete STORE_DRAFTS) by done. rewrite <- Hmem. simpl.
    rewrite <- Hkey. apply (filter_unique CaseRecord.id); [|done].
    rewrite Hmem. by apply (getAll_NoDup_keys STORE_DRAFTS). }
  assert (Hsel : World.selectedDraftIndex w' = World.selectedDraftIndex w).
  { unfold w', exec, handleCaseSubmit, bind, get. rewrite Hc.
    unfold try_catch, try_catch_finally, bind. simpl. by rewrite Hkey. }
  split.
  { unfold outcome, handleCaseSubmit, bind, get. rewrite Hc.
    unfold try_catch, try_catch_finally, bind. simpl. by rewrite Hkey. }
  split; [done|]. split; [done|].
  split. { rewrite (Hcur w') by congruence. rewrite Hlist. by apply list_lookup_delete_ge. }
  split.
  { rewrite unifiedHistory_Permutation. apply elem_of_app. left.
    apply list_elem_of_fmap_2. rewrite Hg, Array_sort_Permutation.
    apply elem_of_getAll. exists (CaseRecord.caseId cur).
    apply lookup_insert_eq. }
  by rewrite Htr.
Qed.

Lemma Desk_world_drafts_ok : store_ok STORE_DRAFTS (World.drafts Desk.world).
Proof.
  intros k c Hk.
  change (World.drafts Desk.world)
    with (<[ "d-1"%string := Sample.draft1 ]>
            ({[ "d-2"%string := Desk.draft2 ]} : gmap string CaseRecord.t)) in Hk.
  apply lookup_insert_Some in Hk as [[<- <-]|[_ Hk]]; [reflexivity|].
  apply lookup_singleton_Some in Hk as [<- <-]. reflexivity.
Qed.

Lemma handleCaseSubmit_moves_on_witness :
  let w := set_selectedDraftIndex 0 Desk.world in
  let w' := exec (handleCaseSubmit Sample.env) w in
  World.draftCases w = getAll (World.drafts w) ∧
  currentCase w = Some Sample.draft1 ∧
  currentCase w' = Some Desk.draft2.
Proof.
  intros w w'.
  assert (Hmem : World.draftCases w = getAll (World.drafts w)) by (vm_compute; reflexivity).
  split; [exact Hmem|]. split; [reflexivity|].
  pose proof (handleCaseSubmit_moves_on Sample.env w 0 Desk_world_drafts_ok Hmem eq_refl) as H.
  change (World.draftCases w !! 0) with (Some Sample.draft1) in H.
  destruct H as (_ & _ & _ & Hnext & _). exact Hnext.
Defined.

(* ===================================================================== *)
(** * The batch orchestrator: the drafts of a run, progress, identifiers *)
(* ===================================================================== *)

Section BatchMore.
Variable E : Env.t.

(** [newDraft] on an entry, in closed form. *)
Lemma newDraft_run chunk aiCase w :
  newDraft E chunk (Some aiCase) w =
    match promise_all (detectedImage E chunk) (default [] (AiCase.detectedImages aiCase)) w with
    | (Ok results, w1) =>
        match World.user w1 with
        | None => (Throw, World.set_uuids (S (World.uuids w1)) w1)
        | Some user =>
            match traverse (textSection E) (default [] (AiCase.textSections aiCase))
                    (World.set_uuids (S (World.uuids w1)) w1) with
            | (Ok sections, w2) =>
                (Ok (CaseRecord.mk (Some (Env.uuid E (World.uuids w1))) (Some draft)
                       ("Case-" ++ or_else (AiCase.chapterNumber aiCase) "0"
                          ++ "-" ++ or_else (AiCase.caseNumber aiCase) "0")%string
                       (User.id user) (Some (User.username user))
                       (or_else (AiCase.organCategory aiCase) "")
                       sections (omap (λ r, r) results)
                       (Some (Env.clock E (World.ticks w2))) None),
                 World.set_ticks (S (World.ticks w2)) w2)
            | (Throw, w2) => (Throw, w2)
            end
        end
    | (Throw, w1) => (Throw, w1)
    end.
Proof.
  unfold newDraft, bind.
  destruct (promise_all _ _ w) as [[results|] w1]; [|done]. simpl.
  destruct (World.user w1) as [user|]; [|done].
  by destruct (traverse _ _ _) as [[sections|] w2].
Qed.

(** The text sections of a draft: those of the entry, with identifiers
    drawn one after the other. *)
Lemma textSections_run l : ∀ w,
  traverse (textSection E) l w =
    (Ok (imap (λ i s, TextRecord.mk (Env.uuid E (World.uuids w + i))
                        (AiSection.label s) (AiSection.content s)) l),
     World.set_uuids (World.uuids w + length l) w).
Proof.
  unfold traverse. induction l as [|s l IH]; intros w.
  - simpl. rewrite Nat.add_0_r. by destruct w.
  - cbn [promise_all]. unfold bind at 1. unfold textSection at 1. unfold bind at 1.
    rewrite uuidv4_run. cbn [ret]. unfold bind at 1. rewrite IH. cbn [ret imap length].
    unfold ret. rewrite Nat.add_0_r.
    match goal with
    | |- (Ok (_ :: imap ?f l), ?a) = (Ok (_ :: imap ?g l), ?b) =>
        assert (H1 : imap f l = imap g l)
          by (apply imap_ext; intros i x _; simpl;
              replace (S (World.uuids w + i)) with (World.uuids w + S i) by lia; done);
        assert (H2 : a = b) by (destruct w; unfold World.set_uuids; simpl;
                                apply f_equal3; [lia | done | done]);
        by rewrite H1, H2
    end.
Qed.

(** The identifiers of the images of a draft are drawn in increasing
    order during the run of the callbacks. *)
Lemma images_ids chunk l : ∀ w results w',
  promise_all (detectedImage E chunk) l w = (Ok results, w') →
  Advance w w' ∧
  ∃ ns, ImageRecord.id <$> omap (λ r, r) results = Env.uuid E <$> ns ∧
        StronglySorted lt ns ∧
        Forall (λ n, World.uuids w ≤ n < World.uuids w') ns.
Proof.
  induction l as [|x l IH]; intros w results w' Hrun.
  - inversion Hrun; subst. split; [apply Advance_refl|]. exists []. repeat split; constructor.
  - cbn [promise_all] in Hrun. unfold bind at 1 in Hrun.
    pose proof (detectedImage_run E chunk x w) as Hx.
    destruct (detectedImage_total E chunk x w) as (r & w1 & Hr & Hadv1).
    rewrite Hr in Hrun. unfold bind at 1 in Hrun.
    destruct (promise_all (detectedImage E chunk) l w1) as [[rs|] w2] eqn:Hrest; [|done].
    inversion Hrun; subst results w'. clear Hrun.
    destruct (IH w1 rs w2 Hrest) as (Hadv2 & ns & Hids & Hsorted & Hrange).
    split; [by eapply Advance_trans|].
    pose proof (Advance_uuids _ _ Hadv1) as Hu1.
    pose proof (Advance_uuids _ _ Hadv2) as Hu2.
    rewrite Hr in Hx.
    destruct (array_get chunk _) as [source|]; [destruct (AiImage.box_2d x) as [box|]|].
    + destruct (outcome _ w) as [cropped|]; [|done].
      inversion Hx; subst r w1. clear Hx.
      exists (World.uuids w :: ns).
      match goal with
      | |- context [omap _ (Some ?i :: rs)] =>
          change (omap (λ r, r) (Some i :: rs)) with (i :: omap (λ r, r) rs)
      end.
      rewrite !fmap_cons, Hids. simpl in Hrange, Hu2. split; [done|]. split.
      * constructor; [done|]. eapply Forall_impl; [exact Hrange|]. simpl. lia.
      * constructor; [lia|]. eapply Forall_impl; [exact Hrange|]. simpl. lia.
    + inversion Hx; subst r w1. exists ns. simpl. split; [done|]. split; [done|].
      eapply Forall_impl; [exact Hrange|]. simpl. lia.
    + inversion Hx; subst r w1. exists ns. simpl. split; [done|]. split; [done|].
      eapply Forall_impl; [exact Hrange|]. simpl. lia.
Qed.

Lemma imap_sections_Forall2 l : ∀ f : nat → string,
  Forall2 (λ s t, TextRecord.label t = AiSection.label s ∧
                  TextRecord.content t = AiSection.content s)
    l (imap (λ i s, TextRecord.mk (f i) (AiSection.label s) (AiSection.content s)) l).
Proof.
  induction l as [|s l IH]; intros f; [constructor|].
  cbn [imap]. constructor; [done|]. apply (IH (λ i, f (S i))).
Qed.

Lemma draftOf_newDraft chunk aiCase w d w' u :
  World.user w = Some u →
  newDraft E chunk (Some aiCase) w = (Ok d, w') →
  draftOf E u chunk aiCase d.
Proof.
  intros Hu Hrun.
  pose proof (draft_images_kept E chunk aiCase w d w' Hrun) as Himgs.
  rewrite newDraft_run in Hrun.
  destruct (promise_all _ _ w) as [[results|] w1] eqn:Hres; [|done].
  apply images_ids in Hres as [Hadv _].
  rewrite (Advance_user _ _ Hadv), Hu in Hrun.
  rewrite textSections_run in Hrun. inversion Hrun; subst d w'. clear Hrun.
  unfold draftOf. simpl.
  split; [done|]. split; [eauto|]. split; [done|]. split; [done|]. split; [done|].
  split; [done|]. split; [|split; [exact Himgs|split; [eauto|done]]].
  apply (imap_sections_Forall2 _ (λ i, Env.uuid E (S (World.uuids w1) + i))).
Qed.

Lemma Advance_fields w w' :
  Advance w w' →
  World.trace w' = World.trace w ∧ World.draftCases w' = World.draftCases w ∧
  World.batchProgress w' = World.batchProgress w ∧ World.drafts w' = World.drafts w.
Proof. by intros (u & t & _ & _ & ->). Qed.

Lemma puts_EvPut (new : list CaseRecord.t) :
  puts STORE_DRAFTS (EvPut STORE_DRAFTS <$> new) = new.
Proof.
  induction new as [|d new IH]; [done|].
  rewrite fmap_cons. change (puts STORE_DRAFTS (EvPut STORE_DRAFTS d :: ?l))
    with (d :: puts STORE_DRAFTS l). by rewrite IH.
Qed.

(** The cases of a response, when all of them give a draft. *)
Lemma processCases_ok chunk u cases : ∀ acc w ds w',
  World.user w = Some u →
  processCases E chunk cases acc w = (Ok ds, w') →
  ∃ new, ds = acc ++ new ∧
         World.trace w' = World.trace w ++ (EvPut STORE_DRAFTS <$> new) ∧
         Forall2 (λ c d, ∃ aiCase, c = Some aiCase ∧ draftOf E u chunk aiCase d) cases new ∧
         World.draftCases w' = World.draftCases w ∧
         World.user w' = Some u.
Proof.
  induction cases as [|c cases IH]; intros acc w ds w' Hu Hrun.
  - inversion Hrun; subst. exists []. rewrite fmap_nil, !app_nil_r.
    split; [done|]. split; [done|]. split; [constructor | done].
  - cbn [processCases] in Hrun. unfold bind at 1 in Hrun.
    destruct c as [aiCase|]; [|done].
    pose proof (newDraft_spec E chunk (Some aiCase) w) as [Hadv Hspec].
    destruct (newDraft E chunk (Some aiCase) w) as [[d|] w1] eqn:Hdraft; [|done].
    simpl in Hadv, Hspec. destruct Hspec as (_ & _ & n & _ & Hid).
    pose proof (draftOf_newDraft chunk aiCase w d w1 u Hu Hdraft) as Hof.
    unfold bind at 1 in Hrun. unfold saveToDB in Hrun. simpl in Hrun. rewrite Hid in Hrun.
    unfold modify in Hrun.
    set (w2 := World.emit _ _) in Hrun.
    destruct (Advance_fields _ _ Hadv) as (Htr & Hdc & _ & _).
    destruct (IH (acc ++ [d]) w2 ds w') as (new & -> & Htr2 & Hall & Hdc2 & Hu2).
    { unfold w2. simpl. by rewrite (Advance_user _ _ Hadv). }
    { exact Hrun. }
    exists (d :: new). rewrite <- app_assoc. split; [done|].
    split. { rewrite Htr2. unfold w2. simpl. rewrite Htr, <- app_assoc. done. }
    split. { constructor; [eauto | done]. }
    split; [by rewrite Hdc2|done].
Qed.

Lemma processCases_progress chunk cases : ∀ acc w,
  World.batchProgress (processCases E chunk cases acc w).2 = World.batchProgress w.
Proof.
  induction cases as [|c cases IH]; intros acc w; [done|].
  cbn [processCases]. unfold bind at 1.
  pose proof (newDraft_spec E chunk c w) as [Hadv _].
  destruct (newDraft E chunk c w) as [[d|] w1]; simpl in Hadv;
    destruct (Advance_fields _ _ Hadv) as (_ & _ & Hbp & _); [|done].
  unfold bind at 1, saveToDB. destruct (keyPath STORE_DRAFTS d) as [k|]; [|done].
  unfold modify. rewrite IH. done.
Qed.

Lemma floor_div_2 j : floor_div (2 * j) CHUNK_SIZE = j.
Proof.
  unfold floor_div, Math_floor, CHUNK_SIZE.
  rewrite <- Zdiv_Qdiv. rewrite Nat2Z.inj_mul. simpl (Z.of_nat 2).
  rewrite Z.mul_comm, Z.div_mul by lia. apply Nat2Z.id.
Qed.

Lemma processChunk_progress i chunk w :
  World.batchProgress (processChunk E i chunk w).2
  = BatchProgress.mk (floor_div i CHUNK_SIZE + 1) (BatchProgress.total (World.batchProgress w)).
Proof.
  unfold processChunk, bind, modify, generateContent. simpl.
  destruct (Env.extraction E chunk) as [cases|]; [|done].
  pose proof (processCases_progress chunk cases [] (World.emit (EvExtract chunk)
    (World.set_batchProgress
       (BatchProgress.mk (floor_div i CHUNK_SIZE + 1)
          (BatchProgress.total (World.batchProgress w))) w))) as Hp.
  destruct (processCases _ _ _ _ _) as [[ds|] w2]; simpl in *; done.
Qed.

Lemma runChunks_progress chunks : ∀ j w,
  chunks ≠ [] →
  World.batchProgress (runChunks E (2 * j) chunks w).2
  = BatchProgress.mk (j + length (attempted E (World.user w) chunks))
      (BatchProgress.total (World.batchProgress w)).
Proof.
  induction chunks as [|chunk chunks IH]; intros j w Hne; [done|].
  cbn [runChunks attempted]. unfold bind.
  pose proof (processChunk_progress (2 * j) chunk w) as Hp.
  destruct (processChunk_spec E (2 * j) chunk w) as (tr & Hs & _ & Hr).
  rewrite floor_div_2 in Hp.
  destruct (processChunk E (2 * j) chunk w) as [[[]|] w1]; cbn [fst snd] in *.
  - rewrite Hr. destruct chunks as [|c2 chunks].
    + cbn [runChunks ret attempted length snd]. rewrite Hp. f_equal.
    + replace (2 * j + CHUNK_SIZE) with (2 * S j) by (unfold CHUNK_SIZE; lia).
      rewrite IH by done. rewrite (step_user _ _ _ _ Hs), Hp.
      cbn [BatchProgress.total length]. f_equal. lia.
  - rewrite Hr. cbn [length]. by rewrite Hp.
Qed.

(** One iteration that does not raise. *)
Lemma processChunk_ok i chunk w w' u :
  World.user w = Some u →
  processChunk E i chunk w = (Ok tt, w') →
  ∃ cases new,
    Env.extraction E chunk = Some cases ∧
    World.trace w' = World.trace w ++ EvExtract chunk :: (EvPut STORE_DRAFTS <$> new) ∧
    Forall2 (λ c d, ∃ aiCase, c = Some aiCase ∧ draftOf E u chunk aiCase d) cases new ∧
    World.draftCases w' = World.draftCases w ++ new ∧
    World.user w' = Some u.
Proof.
  intros Hu Hrun. unfold processChunk, bind, modify, generateContent in Hrun. simpl in Hrun.
  destruct (Env.extraction E chunk) as [cases|]; [|done].
  destruct (processCases E chunk cases [] _) as [[ds|] w2] eqn:Hcases; [|done].
  inversion Hrun; subst w'. clear Hrun.
  apply (processCases_ok chunk u) in Hcases as (new & -> & Htr & Hall & Hdc & Hu2); [|done].
  exists cases, new. simpl in *. split; [done|].
  split. { rewrite Htr, <- app_assoc. done. }
  split; [done|]. split; [by rewrite Hdc | done].
Qed.

Lemma runChunks_ok chunks : ∀ i w w' u,
  World.user w = Some u →
  runChunks E i chunks w = (Ok tt, w') →
  ∃ tr, World.trace w' = World.trace w ++ tr ∧
        World.draftCases w' = World.draftCases w ++ puts STORE_DRAFTS tr ∧
        Forall2 (answered E u) (answers E chunks) (puts STORE_DRAFTS tr) ∧
        World.user w' = Some u.
Proof.
  induction chunks as [|chunk chunks IH]; intros i w w' u Hu Hrun.
  - inversion Hrun; subst. exists []. simpl. rewrite !app_nil_r.
    split; [done|]. split; [done|]. split; [constructor | done].
  - cbn [runChunks] in Hrun. unfold bind in Hrun.
    destruct (processChunk E i chunk w) as [[[]|] w1] eqn:Hchunk; [|done].
    destruct (processChunk_ok i chunk w w1 u Hu Hchunk) as (cases & new & Hex & Htr & Hall & Hdc & Hu1).
    destruct (IH _ w1 w' u Hu1 Hrun) as (tr2 & Htr2 & Hdc2 & Hall2 & Hu2).
    exists (EvExtract chunk :: (EvPut STORE_DRAFTS <$> new) ++ tr2).
    assert (Hputs : puts STORE_DRAFTS (EvExtract chunk :: (EvPut STORE_DRAFTS <$> new) ++ tr2)
                    = new ++ puts STORE_DRAFTS tr2).
    { change (EvExtract chunk :: (EvPut STORE_DRAFTS <$> new) ++ tr2)
        with ([EvExtract chunk] ++ (EvPut STORE_DRAFTS <$> new) ++ tr2).
      rewrite !puts_app, puts_EvPut. done. }
    rewrite Hputs.
    split. { rewrite Htr2, Htr, <- app_assoc. done. }
    split. { rewrite Hdc2, Hdc, <- app_assoc. done. }
    split; [|done].
    unfold answers. cbn [map concat]. rewrite Hex. simpl.
    apply Forall2_app; [|exact Hall2].
    apply Forall2_fmap_l. eapply Forall2_impl; [exact Hall|].
    intros c d (aiCase & -> & Hof). by exists aiCase.
Qed.

(** The cases of a response up to the first that raises. *)
Lemma processCases_fail chunk u cases : ∀ acc w res w',
  World.user w = Some u →
  existsb (caseRaises (Some u)) cases = true →
  processCases E chunk cases acc w = (res, w') →
  ∃ new, res = Throw ∧
         World.trace w' = World.trace w ++ (EvPut STORE_DRAFTS <$> new) ∧
         Forall2 (draftOf E u chunk) (entries_before_null cases) new ∧
         World.draftCases w' = World.draftCases w.
Proof.
  induction cases as [|c cases IH]; intros acc w res w' Hu Hraise Hrun; [done|].
  cbn [processCases] in Hrun. unfold bind at 1 in Hrun.
  destruct c as [aiCase|].
  2:{ simpl in Hrun. inversion Hrun; subst. exists []. simpl. rewrite app_nil_r.
      repeat split. constructor. }
  simpl in Hraise.
  pose proof (newDraft_spec E chunk (Some aiCase) w) as [Hadv Hspec].
  destruct (newDraft E chunk (Some aiCase) w) as [[d|] w1] eqn:Hdraft; simpl in Hadv, Hspec.
  2:{ unfold caseRaises in Hspec. by rewrite Hu in Hspec. }
  destruct Hspec as (_ & _ & n & _ & Hid).
  pose proof (draftOf_newDraft chunk aiCase w d w1 u Hu Hdraft) as Hof.
  unfold bind at 1 in Hrun. unfold saveToDB in Hrun. simpl in Hrun. rewrite Hid in Hrun.
  unfold modify in Hrun.
  set (w2 := World.emit _ _) in Hrun.
  destruct (Advance_fields _ _ Hadv) as (Htr & Hdc & _ & _).
  destruct (IH (acc ++ [d]) w2 res w') as (new & -> & Htr2 & Hall & Hdc2).
  { unfold w2. simpl. by rewrite (Advance_user _ _ Hadv). }
  { exact Hraise. }
  { exact Hrun. }
  exists (d :: new). split; [done|].
  split. { rewrite Htr2. unfold w2. simpl. by rewrite Htr, <- app_assoc. }
  split; [by constructor|]. by rewrite Hdc2.
Qed.

(** One iteration that raises. *)
Lemma processChunk_fail i chunk w u :
  World.user w = Some u →
  chunkRaises E (Some u) chunk = true →
  ∃ new, (processChunk E i chunk w).1 = Throw ∧
         World.trace (processChunk E i chunk w).2
         = World.trace w ++ EvExtract chunk :: (EvPut STORE_DRAFTS <$> new) ∧
         Forall2 (draftOf E u chunk)
           (entries_before_null (default [] (Env.extraction E chunk))) new ∧
         World.draftCases (processChunk E i chunk w).2 = World.draftCases w.
Proof.
  intros Hu Hraise. unfold chunkRaises in Hraise.
  unfold processChunk, bind, modify, generateContent. simpl.
  destruct (Env.extraction E chunk) as [cases|].
  2:{ exists []. simpl. repeat split. constructor. }
  set (w1 := World.emit _ _).
  destruct (processCases E chunk cases [] w1) as [res w2] eqn:Hrun.
  destruct (processCases_fail chunk u cases [] w1 res w2 Hu Hraise Hrun)
    as (new & -> & Htr & Hall & Hdc).
  exists new. simpl.
  split; [done|]. split; [|by split].
  rewrite Htr. unfold w1. simpl. by rewrite <- app_assoc.
Qed.

Lemma chunk_outcome i chunk w :
  (processChunk E i chunk w).1 = Ok tt ↔ chunkRaises E (World.user w) chunk = false.
Proof.
  destruct (processChunk_spec E i chunk w) as (tr & _ & _ & Hr).
  destruct (processChunk E i chunk w).1 as [[]|]; rewrite Hr; split; done.
Qed.

(** The loop that stops at the chunk of position [k]. *)
Lemma runChunks_fail chunks : ∀ k chunk i w u,
  World.user w = Some u →
  chunks !! k = Some chunk →
  chunkRaises E (Some u) chunk = true →
  (∀ j c, j < k → chunks !! j = Some c → chunkRaises E (Some u) c = false) →
  ∃ listed unlisted tr,
    (runChunks E i chunks w).1 = Throw ∧
    World.trace (runChunks E i chunks w).2 = World.trace w ++ tr ∧
    puts STORE_DRAFTS tr = listed ++ unlisted ∧
    World.draftCases (runChunks E i chunks w).2 = World.draftCases w ++ listed ∧
    Forall2 (answered E u) (answers E (take k chunks)) listed ∧
    Forall2 (draftOf E u chunk)
      (entries_before_null (default [] (Env.extraction E chunk))) unlisted.
Proof.
  induction chunks as [|c chunks IH]; intros k chunk i w u Hu Hk Hraise Hbefore; [done|].
  cbn [runChunks]. unfold bind.
  destruct k as [|k]; simpl in Hk.
  - inversion Hk; subst c.
    destruct (processChunk_fail i chunk w u Hu Hraise) as (new & Hthrow & Htr & Hall & Hdc).
    destruct (processChunk E i chunk w) as [[[]|] w1]; [done|]. simpl in *.
    exists [], new, (EvExtract chunk :: (EvPut STORE_DRAFTS <$> new)).
    split; [done|]. split; [done|].
    split. { change (EvExtract chunk :: (EvPut STORE_DRAFTS <$> new))
               with ([EvExtract chunk] ++ (EvPut STORE_DRAFTS <$> new)).
             by rewrite puts_app, puts_EvPut. }
    split; [by rewrite app_nil_r|]. split; [constructor | done].
  - assert (Hc : chunkRaises E (Some u) c = false) by (apply (Hbefore 0 c); [lia | done]).
    pose proof (chunk_outcome i c w) as Hout. rewrite Hu in Hout.
    destruct (processChunk E i c w) as [[[]|] w1] eqn:Hchunk; simpl in Hout.
    2:{ destruct Hout as [_ Hout]. by specialize (Hout Hc). }
    destruct (processChunk_ok i c w w1 u Hu Hchunk) as (cases & new & Hex & Htr & Hall & Hdc & Hu1).
    destruct (IH k chunk (i + CHUNK_SIZE) w1 u Hu1 Hk Hraise)
      as (listed & unlisted & tr2 & Hthrow & Htr2 & Hputs & Hdc2 & Hall2 & Hun).
    { intros j c' Hj Hc'. apply (Hbefore (S j) c'); [lia | done]. }
    exists (new ++ listed), unlisted, (EvExtract c :: (EvPut STORE_DRAFTS <$> new) ++ tr2).
    split; [done|].
    split. { rewrite Htr2, Htr, <- app_assoc. done. }
    split.
    { change (EvExtract c :: (EvPut STORE_DRAFTS <$> new) ++ tr2)
        with ([EvExtract c] ++ (EvPut STORE_DRAFTS <$> new) ++ tr2).
      rewrite !puts_app, puts_EvPut, Hputs. simpl. by rewrite app_assoc. }
    split. { rewrite Hdc2, Hdc, <- app_assoc. done. }
    split; [|done].
    cbn [take]. unfold answers. cbn [map concat]. rewrite Hex. simpl.
    apply Forall2_app; [|exact Hall2].
    apply Forall2_fmap_l. eapply Forall2_impl; [exact Hall|].
    intros c0 d (aiCase & -> & Hof). by exists aiCase.
Qed.

Lemma processBatchSequentially_unfold w :
  selectedImages w ≠ [] →
  processBatchSequentially E w =
    match runChunks E 0 (chunked (selectedImages w)) (prelude w) with
    | (Ok _, w2) => (Ok tt, finish batchSuccess (World.set_queuedImages [] w2))
    | (Throw, w2) => (Ok tt, finish batchFailure w2)
    end.
Proof.
  intros Hsel. unfold processBatchSequentially, bind, get.
  destruct (decide (length (selectedImages w) = 0)) as [H0|_].
  { by apply length_zero_iff_nil in H0. }
  unfold modify. fold (prelude w). unfold try_catch_finally, bind.
  rewrite (chunkLoop_runChunks E (selectedImages w) (length (selectedImages w)) 0) by lia.
  rewrite drop_0.
  by destruct (runChunks E 0 (chunked (selectedImages w)) (prelude w)) as [[[]|] w2].
Qed.

End BatchMore.

Lemma section_ids E l : ∀ a,
  TextRecord.id <$> imap (λ i s, TextRecord.mk (Env.uuid E (a + i)) (AiSection.label s)
                                   (AiSection.content s)) l
  = Env.uuid E <$> seq a (length l).
Proof.
  induction l as [|s l IH]; intros a; [done|].
  cbn [imap length seq]. rewrite !fmap_cons. cbn [TextRecord.id]. rewrite Nat.add_0_r.
  f_equal. rewrite <- (IH (S a)). f_equal. apply imap_ext. intros i x _. simpl.
  by rewrite Nat.add_succ_r.
Qed.

Lemma length_omap_le {A B} (f : A → option B) l : length (omap f l) ≤ length l.
Proof.
  induction l as [|x l IH]; [done|].
  change (omap f (x :: l)) with (match f x with Some y => y :: omap f l | None => omap f l end).
  destruct (f x); cbn [length]; lia.
Qed.

(** The draft of an entry of a response.  A [null] entry makes the
    construction raise at once.  Whenever the construction returns a
    draft, for an entry of the shape of the response schema, the session
    has a user and the draft is built from the entry, whatever members the
    entry lacks: the case identifier is [Case-<chapter>-<case>] with 0 for
    a number that is missing or empty, the draft belongs to the user of
    the session, its category is the one of the entry or empty, its text
    sections are those of the entry in order, with their labels and
    contents as they are, it has at most one image for each region, and
    it is stamped as a draft with the instant of its construction. *)
Theorem newDraft_of_entry (E : Env.t) (chunk : list QueuedImage.t) (w : World.t) :
  newDraft E chunk None w = (Throw, w) ∧
  (∀ aiCase d w',
     newDraft E chunk (Some aiCase) w = (Ok d, w') →
     ∃ u, World.user w = Some u ∧
          Advance w w' ∧
          draftOf E u chunk aiCase d ∧
          length (CaseRecord.textSections d)
          = length (default [] (AiCase.textSections aiCase)) ∧
          length (CaseRecord.images d)
          ≤ length (default [] (AiCase.detectedImages aiCase))).
Proof.
  split; [done|].
  intros aiCase d w' Hrun.
  pose proof (newDraft_spec E chunk (Some aiCase) w) as [Hadv Hspec].
  rewrite Hrun in Hadv, Hspec. simpl in Hadv, Hspec.
  destruct (World.user w) as [u|] eqn:Hu.
  2:{ destruct Hspec as [Hc _]. done. }
  pose proof (draftOf_newDraft E chunk aiCase w d w' u Hu Hrun) as Hof.
  exists u. split; [done|]. split; [done|]. split; [done|].
  destruct Hof as (_ & _ & _ & _ & _ & _ & Hsec & Himg & _).
  split; [symmetry; by eapply Forall2_length|].
  rewrite <- (Forall2_length _ _ _ Himg). apply length_omap_le.
Qed.

(** The identifiers of a draft (its own, those of its text sections,
    those of its images) are drawn during its construction; when the
    generator never returns the same identifier twice they are pairwise
    distinct, and distinct from every identifier drawn before. *)
Theorem newDraft_identifiers (E : Env.t) (chunk : list QueuedImage.t) (aiCase : AiCase.t)
    (w : World.t) (d : CaseRecord.t) (w' : World.t) :
  Inj (=) (=) (Env.uuid E) →
  newDraft E chunk (Some aiCase) w = (Ok d, w') →
  NoDup (draft_ids d) ∧
  NoDup (TextRecord.id <$> CaseRecord.textSections d) ∧
  NoDup (ImageRecord.id <$> CaseRecord.images d) ∧
  (∀ k, k ∈ draft_ids d →
        ∃ n, World.uuids w ≤ n < World.uuids w' ∧ k = Env.uuid E n) ∧
  (∀ k n, k ∈ draft_ids d → n < World.uuids w → k ≠ Env.uuid E n).
Proof.
  intros Hinj Hrun. rewrite newDraft_run in Hrun.
  destruct (promise_all _ _ w) as [[results|] w1] eqn:Hres; [|done].
  apply images_ids in Hres as (Hadv & ns & Hids & Hsorted & Hrange).
  destruct (World.user w1) as [user|]; [|done].
  rewrite textSections_run in Hrun. injection Hrun as <- <-.
  set (l := default [] (AiCase.textSections aiCase)) in *.
  set (u1 := World.uuids w1) in *.
  pose proof (Advance_uuids _ _ Hadv) as Hu. fold u1 in Hu.
  unfold draft_ids.
  cbn [CaseRecord.id CaseRecord.textSections CaseRecord.images World.uuids World.set_uuids].
  fold u1. pose proof (section_ids E l (S u1)) as Hsec. cbn [Nat.add] in Hsec.
  rewrite Hids, Hsec.
  assert (Hall : [Env.uuid E u1] ++ (Env.uuid E <$> seq (S u1) (length l))
                   ++ (Env.uuid E <$> ns)
                 = Env.uuid E <$> (u1 :: seq (S u1) (length l) ++ ns)).
  { rewrite fmap_cons, fmap_app. done. }
  assert (Hnd : NoDup (u1 :: seq (S u1) (length l) ++ ns)).
  { rewrite Forall_forall in Hrange. constructor.
    - rewrite elem_of_app, elem_of_seq. intros [H|H]; [lia|]. apply Hrange in H. lia.
    - apply NoDup_app. split; [apply NoDup_seq|]. split.
      + intros n Hn Hn'. apply elem_of_seq in Hn. apply Hrange in Hn'. lia.
      + clear -Hsorted. induction Hsorted as [|n ns _ IH Hn]; constructor; [|done].
        intros Hin. rewrite Forall_forall in Hn. specialize (Hn _ Hin). lia. }
  assert (Hin : ∀ n, n ∈ u1 :: seq (S u1) (length l) ++ ns →
                     World.uuids w ≤ n < S u1 + length l).
  { intros n Hn. rewrite Forall_forall in Hrange.
    apply elem_of_cons in Hn as [->|Hn]; [lia|].
    apply elem_of_app in Hn as [Hn|Hn]; [apply elem_of_seq in Hn; lia|].
    apply Hrange in Hn. lia. }
  rewrite Hall.
  split; [by apply (NoDup_fmap_2 _)|].
  split; [apply (NoDup_fmap_2 _), NoDup_seq|].
  split.
  { apply (NoDup_fmap_2 _).
    apply NoDup_cons in Hnd as [_ Hnd]. by apply NoDup_app in Hnd as (_ & _ & Hnd). }
  split.
  - intros k Hk. apply list_elem_of_fmap in Hk as (n & -> & Hn). exists n.
    split; [|done]. apply Hin in Hn. simpl. lia.
  - intros k n Hk Hn Heq. apply list_elem_of_fmap in Hk as (n' & -> & Hn').
    apply Hinj in Heq. subst n'. apply Hin in Hn'. lia.
Qed.

Lemma newDraft_identifiers_witness :
  ∃ d w',
    newDraft Sample.env [Sample.page "p1" true; Sample.page "p3" true]
      (Some Sample.aiCase) Sample.world = (Ok d, w') ∧
    NoDup (draft_ids d) ∧ length (draft_ids d) = 4.
Proof.
  destruct (newDraft Sample.env [Sample.page "p1" true; Sample.page "p3" true]
              (Some Sample.aiCase) Sample.world) as [[d|] w'] eqn:Hrun.
  - exists d, w'. split; [reflexivity|]. split.
    + exact (proj1 (newDraft_identifiers Sample.env _ _ _ _ _ pretty_nat_inj Hrun)).
    + vm_compute in Hrun. inversion Hrun. reflexivity.
  - vm_compute in Hrun. discriminate Hrun.
Defined.

(** A run on a non-empty selection, in a session with a user, that
    returns and ends with the success notification: no iteration has
    raised, every chunk has been requested, the queue is emptied, the
    success notification is the one notification, and the processing flag
    is lowered.  The drafts added to the list in memory are the drafts
    persisted during the run, in the order of their persistence: one for
    each entry of each response, in the order of the chunks and of the
    entries, each built from its entry and the chunk that the response
    answers.  The confirmed cases, the history and the selection are as
    before. *)
Theorem processBatchSequentially_success (E : Env.t) (w : World.t) (u : User.t)
    (r : Result unit) (w' : World.t) :
  World.user w = Some u →
  selectedImages w ≠ [] →
  processBatchSequentially E w = (r, w') →
  World.notification w' = Some batchSuccess →
  let tr := trace_since w w' in
  r = Ok tt ∧
  existsb (chunkRaises E (Some u)) (chunked (selectedImages w)) = false ∧
  World.queuedImages w' = [] ∧
  notifications tr = [batchSuccess] ∧
  World.isAIProcessing w' = false ∧
  extractions tr = chunked (selectedImages w) ∧
  World.draftCases w' = World.draftCases w ++ puts STORE_DRAFTS tr ∧
  Forall2 (answered E u) (answers E (chunked (selectedImages w))) (puts STORE_DRAFTS tr) ∧
  World.drafts w' = foldl put_draft (World.drafts w) (puts STORE_DRAFTS tr) ∧
  puts STORE_CASES tr = [] ∧
  World.cases w' = World.cases w ∧
  World.globalHistory w' = World.globalHistory w ∧
  World.selectedDraftIndex w' = World.selectedDraftIndex w.
Proof.
  intros Hu Hsel Hrun0 Hnote tr.
  rewrite (processBatchSequentially_unfold E w Hsel) in Hrun0.
  destruct (runChunks_spec E (chunked (selectedImages w)) 0 (prelude w)) as (tr2 & Hs & He & Hr).
  change (World.user (prelude w)) with (World.user w) in He, Hr.
  rewrite Hu in He, Hr.
  destruct (runChunks E 0 (chunked (selectedImages w)) (prelude w)) as [[[]|] w2] eqn:Hchunks;
    cbn [fst snd] in *; injection Hrun0 as <- <-.
  2:{ simpl in Hnote. discriminate Hnote. }
  destruct (runChunks_ok E _ _ (prelude w) _ u Hu Hchunks) as (tr3 & Htr3 & Hdc & Hall & _).
  assert (tr3 = tr2).
  { rewrite (step_trace _ _ _ _ Hs) in Htr3. by apply app_inv_head in Htr3. }
  subst tr3.
  assert (Htr : tr = tr2 ++ [EvNotify batchSuccess]).
  { unfold tr. apply trace_since_app. simpl.
    rewrite (step_trace _ _ _ _ Hs). simpl. by rewrite <- app_assoc. }
  assert (Hputs : puts STORE_DRAFTS tr = puts STORE_DRAFTS tr2).
  { rewrite Htr, puts_app. simpl. apply app_nil_r. }
  rewrite Hputs.
  split; [done|]. split; [done|].
  simpl.
  split; [done|].
  split. { rewrite Htr, notifications_app, (step_notifications _ _ _ _ Hs). done. }
  split; [done|].
  split. { rewrite Htr, extractions_app, He. simpl. rewrite app_nil_r.
           by apply attempted_all. }
  split; [done|]. split; [done|].
  split. { by rewrite (step_drafts _ _ _ _ Hs). }
  split. { rewrite Htr, puts_app, (step_puts_cases _ _ _ _ Hs). done. }
  split; [apply (step_cases _ _ _ _ Hs)|].
  split; [apply (step_globalHistory _ _ _ _ Hs) | apply (step_selectedDraftIndex _ _ _ _ Hs)].
Qed.

Lemma processBatchSequentially_success_witness :
  let w' := exec (processBatchSequentially Sample.env) Sample.three_pages in
  let tr := trace_since Sample.three_pages w' in
  World.notification w' = Some batchSuccess ∧
  World.queuedImages w' = [] ∧
  World.draftCases w' = puts STORE_DRAFTS tr ∧
  length (World.draftCases w') = 1 ∧
  Forall2 (answered Sample.env Sample.user)
    (answers Sample.env (chunked (selectedImages Sample.three_pages))) (puts STORE_DRAFTS tr).
Proof.
  intros w' tr.
  assert (Hsel : selectedImages Sample.three_pages ≠ []) by discriminate.
  assert (Hnote : World.notification w' = Some batchSuccess) by (vm_compute; reflexivity).
  destruct (processBatchSequentially_success Sample.env Sample.three_pages Sample.user
              (outcome (processBatchSequentially Sample.env) Sample.three_pages) w'
              eq_refl Hsel (surjective_pairing _) Hnote)
    as (_ & _ & Hq & _ & _ & _ & Hdc & Hall & _).
  split; [exact Hnote|]. split; [exact Hq|]. split; [exact Hdc|]. split; [|exact Hall].
  vm_compute. reflexivity.
Defined.

(** Whenever a run on a non-empty selection returns, it returns without
    an exception, with the processing flag lowered and one notification:
    either the success notification, and then no iteration has raised, all
    chunks have been requested and the queue is empty; or the failure
    notification, and then the queue is as before.  The progress shows as
    total the number of chunks and as current the number of extraction
    requests made, which is at most the total.  The confirmed cases, the
    history, the user and the selected position are not touched. *)
Theorem processBatchSequentially_progress (E : Env.t) (w : World.t)
    (r : Result unit) (w' : World.t) :
  selectedImages w ≠ [] →
  processBatchSequentially E w = (r, w') →
  let tr := trace_since w w' in
  let total := length (chunked (selectedImages w)) in
  r = Ok tt ∧
  World.isAIProcessing w' = false ∧
  World.isMinimized w' = false ∧
  World.batchProgress w' = BatchProgress.mk (length (extractions tr)) total ∧
  length (extractions tr) ≤ total ∧
  total = ceil_div (length (selectedImages w)) CHUNK_SIZE ∧
  ((notifications tr = [batchSuccess] ∧ World.queuedImages w' = [] ∧
    length (extractions tr) = total ∧
    existsb (chunkRaises E (World.user w)) (chunked (selectedImages w)) = false) ∨
   (notifications tr = [batchFailure] ∧ World.queuedImages w' = World.queuedImages w)) ∧
  World.cases w' = World.cases w ∧
  World.globalHistory w' = World.globalHistory w ∧
  World.user w' = World.user w ∧
  World.selectedDraftIndex w' = World.selectedDraftIndex w.
Proof.
  intros Hsel Hrun0 tr total.
  rewrite (processBatchSequentially_unfold E w Hsel) in Hrun0.
  assert (Hchunks : chunked (selectedImages w) ≠ []).
  { intros Hnil. apply Hsel. rewrite <- (concat_chunked (selectedImages w)), Hnil. done. }
  destruct (runChunks_spec E (chunked (selectedImages w)) 0 (prelude w)) as (tr2 & Hs & He & Hr).
  pose proof (runChunks_progress E (chunked (selectedImages w)) 0 (prelude w) Hchunks) as Hp.
  change (2 * 0) with 0 in Hp.
  change (World.user (prelude w)) with (World.user w) in He, Hr, Hp.
  rewrite <- He in Hp.
  change (BatchProgress.total (World.batchProgress (prelude w)))
    with (ceil_div (length (selectedImages w)) CHUNK_SIZE) in Hp.
  assert (Htotal : total = ceil_div (length (selectedImages w)) CHUNK_SIZE).
  { unfold total. by rewrite length_chunked, ceil_div_2. }
  rewrite <- Htotal in Hp.
  assert (Hlen : length (extractions tr2) ≤ total).
  { rewrite He. apply prefix_length, attempted_prefix. }
  destruct (runChunks E 0 (chunked (selectedImages w)) (prelude w)) as [[[]|] w2];
    cbn [fst snd] in *; injection Hrun0 as <- <-.
  - assert (Htr : tr = tr2 ++ [EvNotify batchSuccess]).
    { unfold tr. apply trace_since_app. simpl.
      rewrite (step_trace _ _ _ _ Hs). simpl. by rewrite <- app_assoc. }
    assert (Hex : extractions tr = extractions tr2).
    { rewrite Htr, extractions_app. simpl. apply app_nil_r. }
    rewrite Hex.
    split; [done|].
    simpl.
    split; [done|]. split; [apply (step_isMinimized _ _ _ _ Hs)|].
    split; [done|]. split; [done|]. split; [done|].
    split.
    { left. split; [by rewrite Htr, notifications_app, (step_notifications _ _ _ _ Hs)|].
      split; [done|]. split; [|done]. rewrite He, attempted_all by done. done. }
    split; [apply (step_cases _ _ _ _ Hs)|].
    split; [apply (step_globalHistory _ _ _ _ Hs)|].
    split; [apply (step_user _ _ _ _ Hs) | apply (step_selectedDraftIndex _ _ _ _ Hs)].
  - assert (Htr : tr = tr2 ++ [EvNotify batchFailure]).
    { unfold tr. apply trace_since_app. simpl.
      rewrite (step_trace _ _ _ _ Hs). by rewrite <- app_assoc. }
    assert (Hex : extractions tr = extractions tr2).
    { rewrite Htr, extractions_app. simpl. apply app_nil_r. }
    rewrite Hex.
    split; [done|].
    simpl.
    split; [done|]. split; [apply (step_isMinimized _ _ _ _ Hs)|].
    split; [done|]. split; [done|]. split; [done|].
    split.
    { right. split; [by rewrite Htr, notifications_app, (step_notifications _ _ _ _ Hs)|].
      apply (step_queuedImages _ _ _ _ Hs). }
    split; [apply (step_cases _ _ _ _ Hs)|].
    split; [apply (step_globalHistory _ _ _ _ Hs)|].
    split; [apply (step_user _ _ _ _ Hs) | apply (step_selectedDraftIndex _ _ _ _ Hs)].
Qed.

Lemma processBatchSequentially_progress_witness :
  let w' := exec (processBatchSequentially Sample.env) Sample.world in
  selectedImages Sample.world ≠ [] ∧
  World.batchProgress w' = BatchProgress.mk 2 2 ∧
  World.isAIProcessing w' = false.
Proof.
  intros w'.
  assert (Hsel : selectedImages Sample.world ≠ []) by discriminate.
  split; [exact Hsel|].
  destruct (processBatchSequentially_progress Sample.env Sample.world
              (outcome (processBatchSequentially Sample.env) Sample.world) w'
              Hsel (surjective_pairing _))
    as (_ & Hflag & _ & Hp & _).
  split; [|exact Hflag]. rewrite Hp. reflexivity.
Defined.

(** A run that fails at the chunk of position [k], in a session with a
    user: the drafts of the chunks before [k] are persisted and added to
    the list in memory.  The drafts built for the entries of the failing
    chunk that precede the failure are persisted as well, but they are
    not added to the list in memory, which takes the drafts of a chunk
    only when the whole chunk is done: they are in the store without
    being shown, until the database is read again. *)
Theorem failed_run_leaves_unlisted_drafts (E : Env.t) (w : World.t) (u : User.t) (k : nat)
    (chunk : list QueuedImage.t) :
  Inj (=) (=) (Env.uuid E) →
  World.user w = Some u →
  chunked (selectedImages w) !! k = Some chunk →
  chunkRaises E (Some u) chunk = true →
  (∀ j c, j < k → chunked (selectedImages w) !! j = Some c →
          chunkRaises E (Some u) c = false) →
  let w' := exec (processBatchSequentially E) w in
  let tr := trace_since w w' in
  ∃ listed unlisted,
    puts STORE_DRAFTS tr = listed ++ unlisted ∧
    World.draftCases w' = World.draftCases w ++ listed ∧
    Forall2 (answered E u) (answers E (take k (chunked (selectedImages w)))) listed ∧
    Forall2 (draftOf E u chunk)
      (entries_before_null (default [] (Env.extraction E chunk))) unlisted ∧
    (∀ d, d ∈ unlisted →
       ∃ key, CaseRecord.id d = Some key ∧ World.drafts w' !! key = Some d) ∧
    (∀ d, d ∈ unlisted → d ∉ listed) ∧
    (fresh_ids E w → listed_as_stored w →
     ∀ d, d ∈ unlisted → d ∉ World.draftCases w') ∧
    (∀ d, d ∈ unlisted → d ∈ World.draftCases (exec loadAllData w')).
Proof.
  intros Hinj Hu Hk Hraise Hbefore w' tr.
  assert (Hsel : selectedImages w ≠ []) by (intros H; by rewrite H in Hk).
  pose proof (processBatchSequentially_unfold E w Hsel) as Hrun.
  destruct (runChunks_spec E (chunked (selectedImages w)) 0 (prelude w)) as (tr2 & Hs & _ & _).
  destruct (runChunks_fail E (chunked (selectedImages w)) k chunk 0 (prelude w) u
              Hu Hk Hraise Hbefore)
    as (listed & unlisted & tr3 & Hthrow & Htr3 & Hputs & Hdc & Hall & Hun).
  assert (tr3 = tr2).
  { rewrite (step_trace _ _ _ _ Hs) in Htr3. by apply app_inv_head in Htr3. }
  subst tr3. clear Htr3.
  destruct (runChunks E 0 (chunked (selectedImages w)) (prelude w)) as [[[]|] w2];
    [done|]. cbn [fst snd] in *.
  assert (Hw' : w' = finish batchFailure w2) by (unfold w', exec; by rewrite Hrun).
  assert (Htr : tr = tr2 ++ [EvNotify batchFailure]).
  { unfold tr. apply trace_since_app. rewrite Hw'. simpl.
    rewrite (step_trace _ _ _ _ Hs). by rewrite <- app_assoc. }
  assert (Hputs' : puts STORE_DRAFTS tr = listed ++ unlisted).
  { rewrite Htr, puts_app, Hputs. simpl. apply app_nil_r. }
  assert (Hstored : ∀ d, d ∈ puts STORE_DRAFTS tr2 →
            ∃ key, CaseRecord.id d = Some key ∧ World.drafts w' !! key = Some d).
  { intros d Hd. destruct (Step_puts_kept E _ _ _ Hinj Hs d Hd) as (key & Hid & Hl).
    exists key. split; [done|]. by rewrite Hw'. }
  destruct (step_put_ids _ _ _ _ Hs) as (ns & Hids & Hsorted & Hrange). simpl in Hrange.
  assert (Hnd : NoDup (CaseRecord.id <$> puts STORE_DRAFTS tr2)).
  { rewrite Hids. apply (NoDup_fmap_2 (λ n, Some (Env.uuid E n))).
    clear -Hsorted. induction Hsorted as [|n ns _ IH Hn]; constructor; [|done].
    intros Hin. rewrite Forall_forall in Hn. specialize (Hn _ Hin). lia. }
  assert (Hdisjoint : ∀ d, d ∈ unlisted → d ∉ listed).
  { intros d Hd1 Hd2. rewrite Hputs, fmap_app in Hnd.
    apply NoDup_app in Hnd as (_ & Hnd & _).
    apply (Hnd (CaseRecord.id d)); by apply list_elem_of_fmap_2. }
  exists listed, unlisted.
  split; [done|]. split; [by rewrite Hw'|]. split; [done|]. split; [done|].
  split. { intros d Hd. apply Hstored. rewrite Hputs. apply elem_of_app. by right. }
  split; [done|].
  split.
  { intros Hfresh [_ Hlisted] d Hd Hin. rewrite Hw' in Hin. simpl in Hin. rewrite Hdc in Hin.
    apply elem_of_app in Hin as [Hin|Hin]; [|by apply (Hdisjoint d)].
    destruct (Hlisted d Hin) as (key & Hkey & Hst).
    assert (Hid : CaseRecord.id d ∈ CaseRecord.id <$> puts STORE_DRAFTS tr2).
    { apply list_elem_of_fmap_2. rewrite Hputs. apply elem_of_app. by right. }
    rewrite Hids in Hid. apply list_elem_of_fmap in Hid as (n & Hn & Hn').
    rewrite Forall_forall in Hrange. apply Hrange in Hn'.
    rewrite Hkey in Hn. inversion Hn; subst key.
    apply (Hfresh (Env.uuid E n) n); [by eexists | simpl in Hn'; lia | done]. }
  intros d Hd. destruct (Hstored d) as (key & _ & Hl).
  { rewrite Hputs. apply elem_of_app. by right. }
  unfold exec. rewrite loadAllData_run. simpl. apply elem_of_getAll. by exists key.
Qed.

Lemma failed_run_leaves_unlisted_drafts_witness :
  let w' := exec (processBatchSequentially Desk.truncated) Sample.three_pages in
  ∃ d, (d ∉ World.draftCases w') ∧ d ∈ World.draftCases (exec loadAllData w').
Proof.
  intros w'.
  destruct (failed_run_leaves_unlisted_drafts Desk.truncated Sample.three_pages Sample.user 0
              [Sample.page "p1" true; Sample.page "p3" true] pretty_nat_inj
              eq_refl eq_refl eq_refl)
    as (listed & unlisted & _ & _ & _ & Hun & _ & _ & Hnot & Hload).
  { intros j c Hj. lia. }
  simpl in Hun. inversion Hun as [|c d cs ds _ _ Hc Hd]; subst.
  exists d. split; [|apply Hload; left].
  apply Hnot; [| |left].
  - intros key n [d' Hd'] _. done.
  - split; [constructor|]. intros d' Hd'. by apply elem_of_nil in Hd'.
Defined.

(* ===================================================================== *)
(** * The export and the text entries, continued *)
(* ===================================================================== *)

Lemma filter_partition {A} (P Q : A → Prop) `{!∀ x, Decision (P x)} `{!∀ x, Decision (Q x)}
    (l : list A) :
  (∀ x, P x → Q x → False) →
  filter P l ++ filter Q l ≡ₚ filter (λ x, P x ∨ Q x) l.
Proof.
  intros Hdis. induction l as [|x l IH]; [done|].
  destruct (decide (P x)) as [HP|HP]; destruct (decide (Q x)) as [HQ|HQ].
  - destruct (Hdis x HP HQ).
  - rewrite (filter_cons_True P) by done. rewrite (filter_cons_False Q) by done.
    rewrite (filter_cons_True (λ x, P x ∨ Q x)) by (by left). simpl. by rewrite IH.
  - rewrite (filter_cons_False P) by done. rewrite (filter_cons_True Q) by done.
    rewrite (filter_cons_True (λ x, P x ∨ Q x)) by (by right).
    rewrite <- Permutation_middle. by rewrite IH.
  - rewrite (filter_cons_False P) by done. rewrite (filter_cons_False Q) by done.
    rewrite (filter_cons_False (λ x, P x ∨ Q x)); [done|]. by intros [|].
Qed.

Lemma ImageType_values_iff t : t ∈ ImageType.values ↔ t = ImageType.HE ∨ t = ImageType.IHC.
Proof.
  unfold ImageType.values. rewrite elem_of_cons, list_elem_of_singleton. done.
Qed.

Lemma draft_image_types E chunk aiCase w d w' :
  newDraft E chunk (Some aiCase) w = (Ok d, w') →
  Forall (λ img, ImageRecord.type img ∈ ImageType.values) (CaseRecord.images d).
Proof.
  intros Hrun. pose proof (draft_images_kept E chunk aiCase w d w' Hrun) as Hall.
  apply Forall_forall. intros img Himg.
  apply list_elem_of_lookup in Himg as [n Hn].
  destruct (Forall2_lookup_r _ _ _ _ _ Hall Hn) as ([[source box] info] & _ & Hof).
  destruct Hof as (_ & _ & Hty & _). rewrite Hty. apply ImageType_values_iff.
  destruct (decide _); [by right | by left].
Qed.

(** The export keeps the case as it is and adds the training data: the
    case identifier and the category as metadata, and the images in two
    lists by stain, each image in the list of its stain with its
    magnification, description and file name, in the order of the images.
    An image whose type is neither of the two stains is in neither list;
    the images of a draft built by the batch orchestrator all are in one
    of the lists. *)
Theorem exportData_images (data : CaseRecord.t) :
  let td := (exportData data).2 in
  let he := TrainingData.images_he td in
  let ihc := TrainingData.images_ihc td in
  (exportData data).1 = data ∧
  TrainingData.metadata_id td = CaseRecord.caseId data ∧
  TrainingData.metadata_category td = CaseRecord.organCategory data ∧
  he ++ ihc ≡ₚ exportImage <$> filter (λ img, ImageRecord.type img ∈ ImageType.values)
                                 (CaseRecord.images data) ∧
  he `sublist_of` exportImage <$> CaseRecord.images data ∧
  ihc `sublist_of` exportImage <$> CaseRecord.images data ∧
  length he + length ihc ≤ length (CaseRecord.images data) ∧
  (∀ img, img ∈ CaseRecord.images data →
     (ImageRecord.type img = ImageType.HE → exportImage img ∈ he) ∧
     (ImageRecord.type img = ImageType.IHC → exportImage img ∈ ihc)) ∧
  (∀ e, e ∈ he ++ ihc →
     ∃ img, img ∈ CaseRecord.images data ∧ ImageRecord.type img ∈ ImageType.values ∧
            e = exportImage img) ∧
  (Forall (λ img, ImageRecord.type img ∈ ImageType.values) (CaseRecord.images data) →
   he ++ ihc ≡ₚ exportImage <$> CaseRecord.images data ∧
   length he + length ihc = length (CaseRecord.images data)) ∧
  (∀ E chunk aiCase w w',
     newDraft E chunk (Some aiCase) w = (Ok data, w') →
     length he + length ihc = length (CaseRecord.images data)).
Proof.
  intros td he ihc. subst he ihc td. unfold exportData, training_data. simpl.
  set (imgs := CaseRecord.images data).
  assert (Hperm : (exportImage <$> filter (λ img, ImageRecord.type img = ImageType.HE) imgs)
                  ++ (exportImage <$> filter (λ img, ImageRecord.type img = ImageType.IHC) imgs)
                  ≡ₚ exportImage <$> filter (λ img, ImageRecord.type img ∈ ImageType.values) imgs).
  { rewrite <- fmap_app. apply fmap_Permutation.
    rewrite filter_partition by (intros x H1 H2; rewrite H1 in H2; discriminate H2).
    erewrite list_filter_iff; [done|]. intros x. simpl. symmetry. apply ImageType_values_iff. }
  assert (Hall : Forall (λ img, ImageRecord.type img ∈ ImageType.values) imgs →
                 filter (λ img, ImageRecord.type img ∈ ImageType.values) imgs = imgs).
  { apply filter_all. }
  assert (Hfull : Forall (λ img, ImageRecord.type img ∈ ImageType.values) imgs →
    (exportImage <$> filter (λ img, ImageRecord.type img = ImageType.HE) imgs)
      ++ (exportImage <$> filter (λ img, ImageRecord.type img = ImageType.IHC) imgs)
      ≡ₚ exportImage <$> imgs ∧
    length (exportImage <$> filter (λ img, ImageRecord.type img = ImageType.HE) imgs)
      + length (exportImage <$> filter (λ img, ImageRecord.type img = ImageType.IHC) imgs)
    = length imgs).
  { intros H. rewrite <- length_app, Hperm, (Hall H). by rewrite length_fmap. }
  split; [done|]. split; [done|]. split; [done|]. split; [exact Hperm|].
  split; [apply fmap_sublist, sublist_filter|].
  split; [apply fmap_sublist, sublist_filter|].
  split.
  { rewrite <- length_app, Hperm, length_fmap. apply length_filter. }
  split.
  { intros img Himg. split; intros Hty; apply list_elem_of_fmap_2;
      by apply list_elem_of_filter. }
  split.
  { intros e He. rewrite Hperm in He. apply list_elem_of_fmap in He as (img & -> & Himg).
    apply list_elem_of_filter in Himg as [Hty Himg]. eauto. }
  split; [exact Hfull|].
  intros E chunk aiCase w w' Hrun. apply Hfull. by eapply draft_image_types.
Qed.

(** What the export makes of the content of a section.  For a label other
    than the diagnostic basis it is the text as it is, also when the text
    is JSON; for the diagnostic basis it is the text as well when the text
    is not JSON, or is JSON that denotes a number, a string, a boolean or
    null.  The content that the structured editor hands over is exported
    as the object of the four sub-fields when one of gross, HE and IHC is
    not empty, and as the content of the general field otherwise. *)
Theorem processContent_of_basis (structuredBasis : DiagnosticBasisStructured.t)
    (key : DiagnosticBasisStructured.key) (value : string) :
  let next := (handleStructuredChange structuredBasis key value).1 in
  let content := (handleStructuredChange structuredBasis key value).2 in
  (∀ label text, label ≠ DIAGNOSTIC_BASIS → processContent label text = Text text) ∧
  (∀ text, JSON.parse text = None → processContent DIAGNOSTIC_BASIS text = Text text) ∧
  (∀ text v, JSON.parse text = Some v →
     (∀ members, v ≠ JSON.Object members) → (∀ elements, v ≠ JSON.Array elements) →
     processContent DIAGNOSTIC_BASIS text = Text text) ∧
  (DiagnosticBasisStructured.gross next ≠ ""%string ∨
   DiagnosticBasisStructured.he next ≠ ""%string ∨
   DiagnosticBasisStructured.ihc next ≠ ""%string →
   processContent DIAGNOSTIC_BASIS content
   = Structured (DiagnosticBasisStructured.to_json next)) ∧
  (DiagnosticBasisStructured.gross next = ""%string →
   DiagnosticBasisStructured.he next = ""%string →
   DiagnosticBasisStructured.ihc next = ""%string →
   processContent DIAGNOSTIC_BASIS content
   = processContent DIAGNOSTIC_BASIS (DiagnosticBasisStructured.general next)) ∧
  (∀ before s after,
     TextRecord.label s = DIAGNOSTIC_BASIS →
     TextRecord.content s = content →
     (∀ s', s' ∈ after → TextRecord.label s' ≠ DIAGNOSTIC_BASIS) →
     DiagnosticBasisStructured.gross next ≠ ""%string ∨
     DiagnosticBasisStructured.he next ≠ ""%string ∨
     DiagnosticBasisStructured.ihc next ≠ ""%string →
     obj_get (TextLabel_value DIAGNOSTIC_BASIS) (exportSections (before ++ s :: after))
     = Some (Structured (DiagnosticBasisStructured.to_json next))).
Proof.
  intros next content.
  assert (Hjson : DiagnosticBasisStructured.gross next ≠ ""%string ∨
                  DiagnosticBasisStructured.he next ≠ ""%string ∨
                  DiagnosticBasisStructured.ihc next ≠ ""%string →
                  processContent DIAGNOSTIC_BASIS content
                  = Structured (DiagnosticBasisStructured.to_json next)).
  { intros Hsome. unfold content, next, handleStructuredChange in *.
    set (b := DiagnosticBasisStructured.set key value structuredBasis) in *.
    destruct (String.eqb_spec (DiagnosticBasisStructured.gross b) "") as [Hg|Hg];
      destruct (String.eqb_spec (DiagnosticBasisStructured.he b) "") as [Hh|Hh];
      destruct (String.eqb_spec (DiagnosticBasisStructured.ihc b) "") as [Hi|Hi];
      cbn [negb orb fst snd] in *;
      try (by destruct Hsome as [H|[H|H]]);
      unfold processContent; rewrite decide_True by done;
      by rewrite parse_stringify_basis. }
  split. { intros label text Hne. unfold processContent. by rewrite decide_False. }
  split. { intros text Hnone. unfold processContent. rewrite decide_True by done.
           by rewrite Hnone. }
  split.
  { intros text v Hv Hobj Harr. unfold processContent. rewrite decide_True by done.
    rewrite Hv. destruct v; try done; [by destruct (Harr elements) | by destruct (Hobj members)]. }
  split; [exact Hjson|].
  split.
  { intros Hg Hh Hi. unfold content, next, handleStructuredChange in *.
    set (b := DiagnosticBasisStructured.set key value structuredBasis) in *.
    cbn [fst snd] in *.
    destruct (negb _ || negb _ || negb _) eqn:Hb; cbn [fst snd] in *; [|done].
    rewrite Hg, Hh, Hi in Hb. discriminate Hb. }
  intros before s after Hlabel Hcontent Hafter Hsome.
  pose proof (exportSections_last before s after) as Hlast.
  unfold sectionKey, sectionValue in Hlast. rewrite Hlabel, Hcontent in Hlast.
  rewrite Hlast; [by rewrite Hjson|]. done.
Qed.

(** The state of the structured editor, started again from the content
    that it had handed over with gross, HE and IHC empty (the general
    field as plain text): it is the state that it was, unless the plain
    text is itself the JSON text of an object or an array.  For an array
    all four fields come back empty, and the text is lost from the
    editor.  For a section of another label the general field holds the
    content whatever it is. *)
Theorem plain_basis_round_trip (section : TextRecord.t)
    (structuredBasis : DiagnosticBasisStructured.t)
    (key : DiagnosticBasisStructured.key) (value : string) :
  let next := (handleStructuredChange structuredBasis key value).1 in
  let content := (handleStructuredChange structuredBasis key value).2 in
  DiagnosticBasisStructured.gross next = ""%string →
  DiagnosticBasisStructured.he next = ""%string →
  DiagnosticBasisStructured.ihc next = ""%string →
  content = DiagnosticBasisStructured.general next ∧
  (TextRecord.label section ≠ DIAGNOSTIC_BASIS →
   initStructuredBasis (with_content content section) = next) ∧
  (TextRecord.label section = DIAGNOSTIC_BASIS →
   (JSON.parse content = None →
    initStructuredBasis (with_content content section) = next) ∧
   (∀ v, JSON.parse content = Some v →
         (∀ members, v ≠ JSON.Object members) → (∀ elements, v ≠ JSON.Array elements) →
         initStructuredBasis (with_content content section) = next) ∧
   (∀ elements, JSON.parse content = Some (JSON.Array elements) →
      initStructuredBasis (with_content content section)
      = DiagnosticBasisStructured.mk "" "" "" "" ∧
      initStructuredBasis (with_content content section) ≠ next)).
Proof.
  intros next content Hg Hh Hi.
  assert (Hcontent : content = DiagnosticBasisStructured.general next).
  { unfold content, next, handleStructuredChange in *.
    set (b := DiagnosticBasisStructured.set key value structuredBasis) in *.
    cbn [fst snd] in *.
    destruct (negb _ || negb _ || negb _) eqn:Hb; cbn [fst snd] in *; [|done].
    rewrite Hg, Hh, Hi in Hb. discriminate Hb. }
  assert (Hnext : next = DiagnosticBasisStructured.mk "" "" "" content).
  { rewrite Hcontent. destruct next as [g h i n]. simpl in *. by subst. }
  split; [done|]. unfold initStructuredBasis, with_content. simpl.
  split. { intros Hne. by rewrite decide_False. }
  intros Hlabel. rewrite decide_True by done.
  split; [by intros ->|].
  split.
  { intros v -> Hobject Harray. destruct v as [| | | |elements|members]; try done.
    - by destruct (Harray elements).
    - by destruct (Hobject members). }
  intros elements Hparse. rewrite Hparse. split; [done|].
  rewrite Hnext. intros [= Hempty].
  rewrite <- Hempty in Hparse. vm_compute in Hparse. discriminate Hparse.
Qed.

Lemma plain_basis_round_trip_witness :
  let section := TextRecord.mk "t-9" DIAGNOSTIC_BASIS "" in
  let state := DiagnosticBasisStructured.mk "" "" "" "" in
  (initStructuredBasis
     (with_content (handleStructuredChange state DiagnosticBasisStructured.general_key
                      "nests of atypical cells").2 section)
   = DiagnosticBasisStructured.mk "" "" "" "nests of atypical cells") ∧
  (initStructuredBasis
     (with_content (handleStructuredChange state DiagnosticBasisStructured.general_key
                      "[1, 2]").2 section)
   = DiagnosticBasisStructured.mk "" "" "" "").
Proof.
  intros section state. split.
  - pose proof (plain_basis_round_trip section state DiagnosticBasisStructured.general_key
                  "nests of atypical cells" eq_refl eq_refl eq_refl) as (_ & _ & H).
    exact (proj1 (H eq_refl) eq_refl).
  - pose proof (plain_basis_round_trip section state DiagnosticBasisStructured.general_key
                  "[1, 2]" eq_refl eq_refl eq_refl) as (_ & _ & H).
    exact (proj1 (proj2 (proj2 (H eq_refl)) [JSON.Number "1"; JSON.Number "2"] eq_refl)).
Defined.

(** ** Required sections *)

Lemma blank_brace s : blank (String "{" s) = false.
Proof. by destruct s as [|c2 [|c3 s3]]. Qed.

Lemma stringify_basis_brace b :
  ∃ s, JSON.stringify (DiagnosticBasisStructured.to_json b) = String "{" s.
Proof. rewrite stringify_basis. eauto. Qed.

(** A section is flagged as lacking its content only when its label is
    one of the four required ones.  For a diagnostic basis, whenever the
    structured editor finds content in its state after a change, the
    content that it has handed over is not blank.  The converse fails:
    after a change that leaves white space only in the four fields, and
    at least one character in gross, HE or IHC, the section is flagged
    although the content handed over, a JSON text, is not blank.  For
    the other labels the flag is that the content is blank. *)
Theorem hasAnyContent_of_basis (section : TextRecord.t)
    (structuredBasis : DiagnosticBasisStructured.t)
    (key : DiagnosticBasisStructured.key) (value : string) :
  TextRecord.label section = DIAGNOSTIC_BASIS →
  let next := (handleStructuredChange structuredBasis key value).1 in
  let content := (handleStructuredChange structuredBasis key value).2 in
  isRequired section = true ∧
  (hasAnyContent (with_content content section) next = true → blank content = false) ∧
  (flaggedEmpty (with_content content section) next = false → blank content = false) ∧
  (blank content = true → flaggedEmpty (with_content content section) next = true) ∧
  (blank (DiagnosticBasisStructured.general next) = true →
   blank (DiagnosticBasisStructured.gross next) = true →
   blank (DiagnosticBasisStructured.he next) = true →
   blank (DiagnosticBasisStructured.ihc next) = true →
   DiagnosticBasisStructured.gross next ≠ ""%string ∨
   DiagnosticBasisStructured.he next ≠ ""%string ∨
   DiagnosticBasisStructured.ihc next ≠ ""%string →
   flaggedEmpty (with_content content section) next = true ∧ blank content = false) ∧
  (∀ s b, TextRecord.label s ∉ REQUIRED_TEXT_LABELS → flaggedEmpty s b = false) ∧
  (∀ s b, TextRecord.label s ≠ DIAGNOSTIC_BASIS →
          flaggedEmpty s b = isRequired s && blank (TextRecord.content s)).
Proof.
  intros Hlabel next content.
  assert (Hreq : isRequired section = true).
  { unfold isRequired. rewrite Hlabel. reflexivity. }
  assert (Hmain : hasAnyContent (with_content content section) next = true →
                  blank content = false).
  { unfold hasAnyContent, with_content. cbn [TextRecord.label]. rewrite decide_True by done.
    unfold content, next, handleStructuredChange.
    set (b := DiagnosticBasisStructured.set key value structuredBasis).
    destruct (negb _ || negb _ || negb _) eqn:Hb; cbn [fst snd].
    - intros _. destruct (stringify_basis_brace b) as [s ->]. apply blank_brace.
    - apply orb_false_elim in Hb as [Hb Hi]. apply orb_false_elim in Hb as [Hg Hh].
      apply negb_false_iff, String.eqb_eq in Hg, Hh, Hi. rewrite Hg, Hh, Hi.
      cbn [blank]. rewrite !andb_true_r. by intros H%negb_true_iff. }
  assert (Hr : isRequired (with_content content section) = true).
  { unfold isRequired, with_content. cbn [TextRecord.label]. by rewrite Hlabel. }
  split; [done|]. split; [done|].
  split.
  { unfold flaggedEmpty. rewrite Hr. cbn [andb]. intros H. apply Hmain.
    by apply negb_false_iff in H. }
  split.
  { intros Hblank. unfold flaggedEmpty. rewrite Hr. cbn [andb].
    destruct (hasAnyContent (with_content content section) next) eqn:Hany; [|done].
    rewrite (Hmain eq_refl) in Hblank. discriminate Hblank. }
  split.
  { intros Hn Hg Hh Hi Hsome. split.
    - unfold flaggedEmpty. rewrite Hr. cbn [andb].
      unfold hasAnyContent, with_content. cbn [TextRecord.label].
      rewrite decide_True by done. by rewrite Hn, Hg, Hh, Hi.
    - unfold content, next, handleStructuredChange in *.
      set (b := DiagnosticBasisStructured.set key value structuredBasis) in *.
      destruct (negb _ || negb _ || negb _) eqn:Hb; cbn [fst snd] in *.
      + destruct (stringify_basis_brace b) as [s ->]. apply blank_brace.
      + apply orb_false_elim in Hb as [Hb Hi']. apply orb_false_elim in Hb as [Hg' Hh'].
        apply negb_false_iff, String.eqb_eq in Hg', Hh', Hi'.
        by destruct Hsome as [?|[?|?]]. }
  split.
  { intros s b Hnot. unfold flaggedEmpty, isRequired. by rewrite bool_decide_false. }
  intros s b Hne. unfold flaggedEmpty, hasAnyContent. rewrite decide_False by done.
  by rewrite negb_involutive.
Qed.

Lemma hasAnyContent_of_basis_witness :
  let section := TextRecord.mk "t-9" DIAGNOSTIC_BASIS "" in
  let state := DiagnosticBasisStructured.mk "" "" "" "" in
  let edited := handleStructuredChange state DiagnosticBasisStructured.gross_key "  " in
  TextRecord.label section = DIAGNOSTIC_BASIS ∧
  flaggedEmpty (with_content edited.2 section) edited.1 = true ∧
  blank edited.2 = false.
Proof.
  intros section state edited0.
  split; [reflexivity|].
  destruct (hasAnyContent_of_basis section state DiagnosticBasisStructured.gross_key "  "
              eq_refl) as (_ & _ & _ & _ & H & _).
  apply H; [reflexivity | reflexivity | reflexivity | reflexivity |].
  left. discriminate.
Defined.

(* ===================================================================== *)
(** * Every handler keeps the session consistent *)
(* ===================================================================== *)

Section Invariant.
Variable E : Env.t.
Hypothesis uuid_inj : Inj (=) (=) (Env.uuid E).

(** Consistency depends on the two stores, the two collections in memory
    and the number of identifiers drawn, and it is kept when only the
    latter grows. *)
Lemma well_kept_ext w w' :
  World.cases w' = World.cases w → World.drafts w' = World.drafts w →
  World.draftCases w' = World.draftCases w →
  World.globalHistory w' = World.globalHistory w →
  World.uuids w ≤ World.uuids w' →
  well_kept E w → well_kept E w'.
Proof.
  intros Hc Hd Hdc Hg Hu (((Hokc & Hokd) & Hcases & Hdrafts & Hfresh) & [Hnd Hin] & Hhist).
  unfold well_kept, stores_kept, db_ok, listed_as_stored, fresh_ids.
  rewrite Hc, Hd, Hdc, Hg.
  split; [|by split]. split; [by split|]. split; [done|]. split; [done|].
  intros k n Hk Hn. apply Hfresh; [done | lia].
Qed.

(** Reading the database again makes memory consistent with it. *)
Lemma well_kept_loaded w w' :
  stores_kept E w →
  World.cases w' = World.cases w → World.drafts w' = World.drafts w →
  World.draftCases w' = getAll (World.drafts w) →
  World.globalHistory w' ≡ₚ getAll (World.cases w) →
  World.uuids w ≤ World.uuids w' →
  well_kept E w'.
Proof.
  intros ((Hokc & Hokd) & Hcases & Hdrafts & Hfresh) Hc Hd Hdc Hg Hu.
  unfold well_kept, stores_kept, db_ok, listed_as_stored, fresh_ids.
  rewrite Hc, Hd, Hdc.
  split; [|split; [split|]].
  - split; [by split|]. split; [done|]. split; [done|].
    intros k n Hk Hn. apply Hfresh; [done | lia].
  - by apply (getAll_NoDup_keys STORE_DRAFTS).
  - intros d Hin. apply elem_of_getAll in Hin as [k Hk]. exists k. split; [|done].
    by apply (Hokd k d).
  - intros c Hin. rewrite Hg in Hin. by apply elem_of_getAll.
Qed.

(** Deleting a draft, in the store and in memory. *)
Lemma well_kept_delete w id :
  well_kept E w → well_kept E (exec (handleDraftDelete id) w).
Proof.
  intros (((Hokc & Hokd) & Hcases & Hdrafts & Hfresh) & [Hnd Hin] & Hhist).
  unfold exec. rewrite handleDraftDelete_run.
  unfold well_kept, stores_kept, db_ok, listed_as_stored, fresh_ids. simpl.
  split; [|split; [split|done]].
  - split; [split; [done | by apply store_ok_delete]|]. split; [done|]. split.
    + intros k d Hk. apply lookup_delete_Some in Hk as [_ Hk]. by eapply Hdrafts.
    + intros k n [d Hk] Hn. apply lookup_delete_Some in Hk as [_ Hk].
      apply Hfresh; [by eexists | done].
  - eapply sublist_NoDup; [exact Hnd|]. apply fmap_sublist, sublist_filter.
  - intros d Hd. apply list_elem_of_filter in Hd as [Hne Hd].
    destruct (Hin d Hd) as (k & Hk & Hs). exists k. split; [done|].
    rewrite lookup_delete_ne; [done|]. congruence.
Qed.

(** An edit of the current case. *)
Lemma well_kept_edit w e :
  well_kept E w → well_kept E (exec (applyEdit e) w).
Proof.
  intros Hw. rewrite applyEdit_editCurrent.
  destruct (currentCase w) as [cur|] eqn:Hcur.
  2:{ unfold exec. by rewrite editCurrent_none. }
  pose proof Hw as (((Hokc & Hokd) & Hcases & Hdrafts & Hfresh) & Hlisted & Hhist).
  pose proof Hcur as Hcur'. apply currentCase_lookup in Hcur' as [Hidx Hl].
  destruct Hlisted as [Hnd Hin].
  destruct (Hin cur) as (k & Hk & Hstored); [by eapply list_elem_of_lookup_2|].
  destruct (edited_same_case e cur) as (Hid & Hst & _).
  assert (Hk' : CaseRecord.id (edited e cur) = Some k) by congruence.
  unfold exec. rewrite (editCurrent_run _ w cur k Hcur Hk').
  unfold well_kept, stores_kept, db_ok, fresh_ids. simpl.
  split; [|split].
  - split; [split; [done | by apply store_ok_insert]|].
    split; [done|]. split.
    + intros k0 d Hd. apply lookup_insert_Some in Hd as [[<- <-]|[_ Hd]].
      * rewrite Hst. by eapply Hdrafts.
      * by eapply Hdrafts.
    + intros k0 n Hsome Hn. apply Hfresh; [|done].
      apply lookup_insert_is_Some in Hsome as [<-|[_ Hsome]]; [by eexists | done].
  - by apply (listed_as_stored_insert w _ cur).
  - done.
Qed.

(** Confirming the current case. *)
Lemma well_kept_submit w :
  well_kept E w → well_kept E (exec (handleCaseSubmit E) w).
Proof.
  intros Hw.
  destruct (currentCase w) as [cur|] eqn:Hcur.
  2:{ unfold exec. by rewrite handleCaseSubmit_none. }
  pose proof Hw as (((Hokc & Hokd) & Hcases & Hdrafts & Hfresh) & [Hnd Hin] & Hhist).
  pose proof Hcur as Hcur'. apply currentCase_lookup in Hcur' as [Hidx Hl].
  destruct (Hin cur) as (key & Hkey & Hstored); [by eapply list_elem_of_lookup_2|].
  destruct (handleCaseSubmit_run E w cur key Hcur Hkey) as (Hc & Hd & Hg & Hdc & _ & _).
  set (w' := exec (handleCaseSubmit E) w) in *.
  assert (Hu : World.uuids w' = World.uuids w).
  { unfold w', exec, handleCaseSubmit, bind, get. rewrite Hcur.
    unfold try_catch, try_catch_finally, bind. simpl. by rewrite Hkey. }
  set (w1 := World.set_drafts (World.drafts w') (World.set_cases (World.cases w') w)).
  apply (well_kept_loaded w1).
  - unfold stores_kept, db_ok, fresh_ids, w1. simpl. rewrite Hc, Hd.
    split; [split; [by apply store_ok_insert | by apply store_ok_delete]|].
    split; [|split].
    + intros k c Hk. apply lookup_insert_Some in Hk as [[_ <-]|[_ Hk]]; [done|].
      by eapply Hcases.
    + intros k d Hk. apply lookup_delete_Some in Hk as [_ Hk]. by eapply Hdrafts.
    + intros k n [d Hk] Hn. apply lookup_delete_Some in Hk as [_ Hk].
      apply Hfresh; [by eexists | done].
  - done.
  - done.
  - by rewrite Hdc, <- Hd.
  - rewrite Hg, <- Hc. apply Array_sort_Permutation.
  - unfold w1. simpl. lia.
Qed.

(** ** The batch run *)

Lemma foldl_put_draft_inv ds : ∀ m k d,
  foldl put_draft m ds !! k = Some d →
  m !! k = Some d ∨ (d ∈ ds ∧ CaseRecord.id d = Some k).
Proof.
  induction ds as [|d0 ds IH]; intros m k d Hk; [by left|].
  simpl in Hk. apply IH in Hk as [Hk|[Hin Hid]].
  - unfold put_draft in Hk. destruct (CaseRecord.id d0) as [k0|] eqn:Hk0; [|by left].
    apply lookup_insert_Some in Hk as [[<- <-]|[_ Hk]]; [|by left].
    right. split; [constructor | done].
  - right. split; [by constructor | done].
Qed.

(** The drafts persisted during a run are marked as drafts. *)
Lemma processCases_puts_status chunk cases : ∀ acc w,
  ∃ tr, World.trace (processCases E chunk cases acc w).2 = World.trace w ++ tr ∧
        Forall (λ d, CaseRecord.status d = Some draft) (puts STORE_DRAFTS tr).
Proof.
  induction cases as [|c cases IH]; intros acc w.
  - exists []. simpl. by rewrite app_nil_r.
  - cbn [processCases]. unfold bind at 1.
    pose proof (newDraft_spec E chunk c w) as [Hadv Hspec].
    destruct (newDraft E chunk c w) as [[d|] w1]; simpl in Hadv, Hspec;
      destruct (Advance_fields _ _ Hadv) as (Htr & _).
    2:{ exists []. simpl. by rewrite app_nil_r. }
    destruct Hspec as (_ & Hst & n & _ & Hid).
    unfold bind at 1, saveToDB. simpl. rewrite Hid. unfold modify.
    set (w2 := World.emit _ _).
    destruct (IH (acc ++ [d]) w2) as (tr & Htr2 & Hall).
    exists (EvPut STORE_DRAFTS d :: tr). split.
    + rewrite Htr2. unfold w2. simpl. by rewrite Htr, <- app_assoc.
    + change (puts STORE_DRAFTS (EvPut STORE_DRAFTS d :: tr))
        with (d :: puts STORE_DRAFTS tr). by constructor.
Qed.

Lemma processChunk_puts_status i chunk w :
  ∃ tr, World.trace (processChunk E i chunk w).2 = World.trace w ++ tr ∧
        Forall (λ d, CaseRecord.status d = Some draft) (puts STORE_DRAFTS tr).
Proof.
  unfold processChunk, bind, modify, generateContent. simpl.
  destruct (Env.extraction E chunk) as [cases|].
  2:{ exists [EvExtract chunk]. split; [done | constructor]. }
  set (w1 := World.emit _ _).
  destruct (processCases_puts_status chunk cases [] w1) as (tr & Htr & Hall).
  exists (EvExtract chunk :: tr).
  split; [|done].
  destruct (processCases E chunk cases [] w1) as [[ds|] w2]; simpl in *;
    rewrite Htr; unfold w1; simpl; by rewrite <- app_assoc.
Qed.

Lemma runChunks_puts_status chunks : ∀ i w,
  ∃ tr, World.trace (runChunks E i chunks w).2 = World.trace w ++ tr ∧
        Forall (λ d, CaseRecord.status d = Some draft) (puts STORE_DRAFTS tr).
Proof.
  induction chunks as [|chunk chunks IH]; intros i w.
  - exists []. simpl. by rewrite app_nil_r.
  - cbn [runChunks]. unfold bind.
    destruct (processChunk_puts_status i chunk w) as (tr1 & Htr1 & Hall1).
    destruct (processChunk E i chunk w) as [[[]|] w1]; simpl in *.
    + destruct (IH (i + CHUNK_SIZE) w1) as (tr2 & Htr2 & Hall2).
      exists (tr1 ++ tr2). split.
      * by rewrite Htr2, Htr1, <- app_assoc.
      * rewrite puts_app. by apply Forall_app.
    + by exists tr1.
Qed.

Lemma well_kept_batch w :
  well_kept E w → well_kept E (exec (processBatchSequentially E) w).
Proof.
  intros Hw.
  destruct (decide (selectedImages w = [])) as [Hnil|Hsel].
  { unfold exec. by rewrite processBatchSequentially_nothing_selected. }
  pose proof (processBatchSequentially_db_ok E w) as Hdb.
  pose proof Hw as (((Hokc & Hokd) & Hcases & Hdrafts & Hfresh) & [Hnd Hin] & Hhist).
  specialize (Hdb (conj Hokc Hokd)).
  pose proof (processBatchSequentially_unfold E w Hsel) as Hrun.
  destruct (runChunks_spec E (chunked (selectedImages w)) 0 (prelude w)) as (tr & Hs & _ & _).
  destruct (runChunks_puts_status (chunked (selectedImages w)) 0 (prelude w))
    as (tr' & Htr' & Hstatus).
  assert (tr' = tr).
  { rewrite (step_trace _ _ _ _ Hs) in Htr'. by apply app_inv_head in Htr'. }
  subst tr'. clear Htr'.
  set (w2 := (runChunks E 0 (chunked (selectedImages w)) (prelude w)).2) in *.
  set (w' := exec (processBatchSequentially E) w) in *.
  assert (Hfields : World.cases w' = World.cases w2 ∧ World.drafts w' = World.drafts w2 ∧
                    World.draftCases w' = World.draftCases w2 ∧
                    World.globalHistory w' = World.globalHistory w2 ∧
                    World.uuids w' = World.uuids w2).
  { unfold w', exec, w2. rewrite Hrun.
    by destruct (runChunks E 0 (chunked (selectedImages w)) (prelude w)) as [[[]|] ?]. }
  destruct Hfields as (Hc & Hd & Hdc & Hg & Hu).
  pose proof (step_cases _ _ _ _ Hs) as Hc2. simpl in Hc2.
  pose proof (step_drafts _ _ _ _ Hs) as Hd2. simpl in Hd2.
  pose proof (step_globalHistory _ _ _ _ Hs) as Hg2. simpl in Hg2.
  pose proof (step_uuids _ _ _ _ Hs) as Hu2. simpl in Hu2.
  destruct (step_draftCases _ _ _ _ Hs) as (ds & Hds & Hsub). simpl in Hds.
  destruct (step_put_ids _ _ _ _ Hs) as (ns & Hids & Hsorted & Hrange). simpl in Hrange.
  set (new := puts STORE_DRAFTS tr) in *.
  assert (Hnew : ∀ d, d ∈ new → ∃ n, World.uuids w ≤ n < World.uuids w2 ∧
                                     CaseRecord.id d = Some (Env.uuid E n)).
  { intros d Hd0.
    assert (Hid : CaseRecord.id d ∈ CaseRecord.id <$> new) by by apply list_elem_of_fmap_2.
    rewrite Hids in Hid. apply list_elem_of_fmap in Hid as (n & Hn & Hin').
    rewrite Forall_forall in Hrange. exists n. split; [by apply Hrange | done]. }
  assert (Hnd_new : NoDup (CaseRecord.id <$> new)).
  { rewrite Hids. apply (NoDup_fmap_2 (λ n, Some (Env.uuid E n))).
    clear -Hsorted. induction Hsorted as [|n ns _ IH Hn]; constructor; [|done].
    intros Hin. rewrite Forall_forall in Hn. specialize (Hn _ Hin). lia. }
  assert (Hold : ∀ k, is_Some (World.drafts w !! k) → Some k ∉ CaseRecord.id <$> new).
  { intros k Hk Hin'. apply list_elem_of_fmap in Hin' as (d & Hid & Hd0).
    destruct (Hnew d Hd0) as (n & Hn & Hidn). rewrite Hidn in Hid. inversion Hid; subst k.
    apply (Hfresh _ n Hk); [lia | done]. }
  unfold well_kept, stores_kept, fresh_ids, listed_as_stored.
  rewrite Hc, Hd, Hdc, Hg, Hu, Hc2, Hd2, Hg2, Hds.
  split; [split; [|split; [|split]]|split; [split|]].
  - exact Hdb.
  - done.
  - intros k d Hk. apply foldl_put_draft_inv in Hk as [Hk|[Hk _]]; [by eapply Hdrafts|].
    rewrite Forall_forall in Hstatus. by apply Hstatus.
  - intros k n [d Hk] Hn. apply foldl_put_draft_inv in Hk as [Hk|[Hk Hid]].
    + apply Hfresh; [by eexists | lia].
    + destruct (Hnew d Hk) as (n0 & Hn0 & Hid0). rewrite Hid0 in Hid.
      inversion Hid; subst k. intros Heq. apply uuid_inj in Heq. lia.
  - rewrite fmap_app. apply NoDup_app. split; [done|]. split.
    + intros x Hx Hx'.
      apply list_elem_of_fmap in Hx as (d & -> & Hd0).
      destruct (Hin d Hd0) as (k & Hk & Hst). rewrite Hk in Hx'.
      apply (Hold k); [by eexists|].
      eapply elem_of_sublist; [exact Hx'|]. by apply fmap_sublist.
    + eapply sublist_NoDup; [exact Hnd_new|]. by apply fmap_sublist.
  - intros d Hd0. apply elem_of_app in Hd0 as [Hd0|Hd0].
    + destruct (Hin d Hd0) as (k & Hk & Hst). exists k. split; [done|].
      rewrite foldl_put_draft_other; [done|]. apply Hold. by eexists.
    + assert (Hd1 : d ∈ new) by (eapply elem_of_sublist; [exact Hd0 | exact Hsub]).
      destruct (Hnew d Hd1) as (n & _ & Hid). exists (Env.uuid E n). split; [done|].
      by apply foldl_put_draft_lookup.
  - done.
Qed.

(** ** All actions *)

Lemma well_kept_perform w a :
  well_kept E w → well_kept E (exec (perform E a) w) ∧ outcome (perform E a) w = Ok tt.
Proof.
  intros Hw. destruct a; simpl.
  - (* Login *)
    split; [|done].
    apply (well_kept_loaded (World.set_uuids (S (World.uuids w)) w)); try done.
    + destruct Hw as ((Hdb & Hcases & Hdrafts & Hfresh) & _).
      split; [done|]. split; [done|]. split; [done|].
      intros k n Hk Hn. simpl in *. apply Hfresh; [done | lia].
    + unfold exec, login, bind, uuidv4, modify. simpl. apply Array_sort_Permutation.
  - (* UploadImage *)
    split; [|done]. eapply well_kept_ext; [..|exact Hw]; try done.
    unfold exec, fileReader_onload, bind, uuidv4, modify. simpl. lia.
  - (* ImportPdf *)
    destruct file as [document|]; [|by split].
    unfold exec, outcome. rewrite handlePDFUpload_run.
    destruct document as [pdf|].
    2:{ split; [|done]. by eapply well_kept_ext; [..|exact Hw]. }
    destruct (pageLoop_from_1 E pdf (World.set_isAIProcessing true w))
      as (u & bp & Hw1 & Hu & _).
    destruct (pageLoop E pdf 1 (PdfDocument.numPages pdf) [] (World.set_isAIProcessing true w))
      as [[imgs|] w1]; simpl in Hw1; subst w1; (split; [|done]);
      by eapply well_kept_ext; [..|exact Hw].
  - (* TogglePage *) split; [|done]. by eapply well_kept_ext; [..|exact Hw].
  - (* SelectAll *) split; [|done]. by eapply well_kept_ext; [..|exact Hw].
  - (* ClearQueue *) split; [|done]. by eapply well_kept_ext; [..|exact Hw].
  - (* RunBatch *)
    split; [by apply well_kept_batch|].
    destruct (decide (selectedImages w = [])) as [Hnil|Hsel].
    + unfold outcome. by rewrite processBatchSequentially_nothing_selected.
    + unfold outcome. rewrite (processBatchSequentially_unfold E w Hsel).
      by destruct (runChunks E 0 (chunked (selectedImages w)) (prelude w)) as [[[]|] ?].
  - (* SelectDraft *) split; [|done]. by eapply well_kept_ext; [..|exact Hw].
  - (* OpenItem *)
    split; [|done]. unfold exec, modify, historyItem_onClick. simpl.
    destruct (decide _); by eapply well_kept_ext; [..|exact Hw].
  - (* Review *)
    split; [by apply well_kept_edit|].
    rewrite applyEdit_editCurrent. unfold outcome, editCurrent, bind, get.
    by destruct (currentCase w).
  - (* Confirm *)
    split; [by apply well_kept_submit|].
    unfold outcome, handleCaseSubmit, bind, get.
    destruct (currentCase w) as [cur|]; [|done].
    unfold try_catch, try_catch_finally, bind. simpl.
    by destruct (CaseRecord.id cur).
  - (* Delete *) split; [by apply well_kept_delete | done].
  - (* Dismiss *) split; [|done]. by eapply well_kept_ext; [..|exact Hw].
Qed.

Lemma well_kept_Session w actions w' :
  Session E w actions w' → well_kept E w → well_kept E w'.
Proof.
  induction 1 as [|w a r w1 actions w' Hrun _ IH]; intros Hw; [done|].
  apply IH. destruct (well_kept_perform w a Hw) as [Hkept _].
  unfold exec in Hkept. by rewrite Hrun in Hkept.
Qed.

Lemma Session_session actions : ∀ w, Session E w actions (session E actions w).
Proof.
  induction actions as [|a actions IH]; intros w; [constructor|].
  apply (Session_cons E w a (outcome (perform E a) w) (exec (perform E a) w)).
  - apply surjective_pairing.
  - apply IH.
Qed.

End Invariant.

Lemma well_kept_fresh_start E w :
  World.cases w = ∅ → World.drafts w = ∅ →
  World.draftCases w = [] → World.globalHistory w = [] →
  well_kept E w.
Proof.
  intros Hc Hd Hdc Hg.
  unfold well_kept, stores_kept, listed_as_stored, fresh_ids. rewrite Hc, Hd, Hdc, Hg.
  split; [split; [by apply db_ok_empty|]|split; [split|]].
  - split; [|split].
    + intros k c Hk. by rewrite lookup_empty in Hk.
    + intros k d Hk. by rewrite lookup_empty in Hk.
    + intros k n [d Hk]. by rewrite lookup_empty in Hk.
  - constructor.
  - intros d Hd0. by apply elem_of_nil in Hd0.
  - intros c Hc0. by apply elem_of_nil in Hc0.
Qed.

(** When the generator never returns the same identifier twice, every
    handler run that returns leaves the session consistent: login, image
    upload and PDF import, selection of pages, a batch run (whether it
    ends in success or in failure), selection of a draft, every edit of
    the current case, confirmation and deletion.  So after any sequence
    of handler runs, each up to its return, from a consistent state and in
    particular from an empty database: each draft in memory is the record
    stored under its identifier, no two drafts in memory share an
    identifier, every draft is marked as a draft, every case of the
    history is a stored case, and a confirmed case has neither the
    identifier nor the mark of a draft; and each draft item of the history
    view can be opened in the editor. *)
Theorem session_stays_consistent (E : Env.t) (actions : list Action) (w w' : World.t) :
  Inj (=) (=) (Env.uuid E) →
  well_kept E w →
  Session E w actions w' →
  well_kept E w' ∧
  (∀ a r w'', perform E a w' = (r, w'') → well_kept E w'') ∧
  NoDup (CaseRecord.id <$> World.draftCases w') ∧
  (∀ d, d ∈ World.draftCases w' →
     CaseRecord.status d = Some draft ∧
     ∃ k, CaseRecord.id d = Some k ∧ World.drafts w' !! k = Some d) ∧
  (∀ c, c ∈ World.globalHistory w' →
     CaseRecord.id c = None ∧ CaseRecord.status c = None ∧
     World.cases w' !! CaseRecord.caseId c = Some c) ∧
  (∀ item, item ∈ unifiedHistory w' → CaseRecord.status item = Some draft →
     ∃ d, currentCase (Screen.world (historyItem_onClick item (Screen.mk w' history)))
          = Some d ∧
          item = CaseRecord.with_status (Some draft) d ∧ d = item).
Proof.
  intros Hinj Hw Hsession.
  pose proof (well_kept_Session E Hinj w actions w' Hsession Hw) as Hw'.
  split; [exact Hw'|].
  split.
  { intros a r w'' Hrun. destruct (well_kept_perform E Hinj w' a Hw') as [H1 _].
    unfold exec in H1. by rewrite Hrun in H1. }
  pose proof Hw' as (((Hokc & Hokd) & Hcases & Hdrafts & Hfresh) & [Hnd Hin] & Hhist).
  split; [exact Hnd|].
  assert (Hlisted : ∀ d, d ∈ World.draftCases w' →
            CaseRecord.status d = Some draft ∧
            ∃ k, CaseRecord.id d = Some k ∧ World.drafts w' !! k = Some d).
  { intros d Hd. destruct (Hin d Hd) as (k & Hk & Hs). split; [by eapply Hdrafts | eauto]. }
  split; [exact Hlisted|].
  split.
  { intros c Hc. destruct (Hhist c Hc) as [k Hk]. destruct (Hcases k c Hk) as [Hid Hst].
    split; [done|]. split; [done|]. pose proof (Hokc k c Hk) as Hkey. simpl in Hkey.
    inversion Hkey. by subst k. }
  intros item Hitem Hst.
  destruct (unifiedHistory_draft_item _ _ Hitem Hst) as (d0 & Hd0 & ->).
  unfold historyItem_onClick. rewrite decide_True by done. simpl.
  set (p := λ d : CaseRecord.t, bool_decide (CaseRecord.id d = CaseRecord.id d0)).
  destruct (findIndex_from_spec p (World.draftCases w') 0)
    as [(n & d & Hn & Hp & Hfind)|[Hall _]].
  2:{ rewrite Forall_forall in Hall. specialize (Hall d0 Hd0).
      unfold p in Hall. by rewrite bool_decide_true in Hall. }
  fold (findIndex p (World.draftCases w')) in Hfind. rewrite Hfind, Z.add_0_l.
  unfold p in Hp. apply bool_decide_eq_true in Hp. simpl in Hp.
  assert (d = d0).
  { apply list_elem_of_lookup in Hd0 as [n0 Hn0].
    assert (n = n0); [|congruence].
    eapply (NoDup_lookup _ n n0 (CaseRecord.id d)); [exact Hnd | |].
    - by rewrite list_lookup_fmap, Hn.
    - by rewrite list_lookup_fmap, Hn0; simpl; rewrite Hp. }
  subst d. exists d0.
  split. { apply currentCase_lookup. simpl. split; [lia|]. by rewrite Nat2Z.id. }
  split; [done|].
  destruct (Hlisted d0) as [Hst0 _]; [by eapply list_elem_of_lookup_2|].
  destruct d0. simpl in *. by subst.
Qed.

Lemma session_stays_consistent_witness :
  let actions := [Login; ImportPdf (Some (Some Desk.pdf)); TogglePage "3"; RunBatch;
                  Review (SetCategory "lung"); Confirm] in
  let w := World.mk None None false false [] (BatchProgress.mk 0 0) [] [] 0 ∅ ∅ 0 0 [] in
  well_kept Sample.env (session Sample.env actions w) ∧
  NoDup (CaseRecord.id <$> World.draftCases (session Sample.env actions w)).
Proof.
  intros actions w.
  assert (Hw : well_kept Sample.env w) by (by apply well_kept_fresh_start).
  destruct (session_stays_consistent Sample.env actions w (session Sample.env actions w)
              pretty_nat_inj Hw (Session_session Sample.env actions w))
    as (Hkept & _ & Hnd & _).
  split; [exact Hkept | exact Hnd].
Defined.
